(** * uvaoj-scrawl: the catalog crawlers and their address normalizer

    A shallow embedding of [src/main.py] ([CatalogCrawler]) and
    [src/catalog_to_json.py] ([FullCatalogCrawler]).

    - Python [str] values are lists of code points ([N]); [bytes] values are
      lists of byte values ([N] below 256).
    - [normalize_url] is four calls into [urllib.parse]; the functions it
      reaches ([urlparse], [parse_qsl], [urlencode], [urlunparse] and their
      helpers) are transcribed from CPython 3.11 [Lib/urllib/parse.py].
    - A raised exception is the [Raise] outcome of the [result] type. *)

From stdpp Require Import base tactics option list strings gmap sets.
From Stdlib Require Import Ascii NArith ZArith Lia.

Open Scope N_scope.

(** ** Outcomes: a value, or a raised exception *)

(** The exceptions that are not an [Exception]: a handler
    [except Exception] lets them through. *)
Inductive interrupt := SystemExit | KeyboardInterrupt | GeneratorExit.

Inductive exn :=
  | ValueError
  | UnicodeEncodeError
  | KeyError
  | OSError
  | Interrupt (i : interrupt).

Inductive result (A : Type) :=
  | Ok (a : A)
  | Raise (e : exn).
Arguments Ok {A} a.
Arguments Raise {A} e.

#[global] Instance interrupt_eq_dec : EqDecision interrupt.
Proof. solve_decision. Defined.

#[global] Instance exn_eq_dec : EqDecision exn.
Proof. solve_decision. Defined.

#[global] Instance result_eq_dec `{EqDecision A} : EqDecision (result A).
Proof. solve_decision. Defined.

#[global] Instance result_ret : MRet result := fun _ a => Ok a.
#[global] Instance result_bind : MBind result := fun _ _ f r =>
  match r with Ok a => f a | Raise e => Raise e end.
#[global] Instance result_fmap : FMap result := fun _ _ f r =>
  match r with Ok a => Ok (f a) | Raise e => Raise e end.

(** ** Python [str] and the string methods the code calls *)

Module Py.

Abbreviation str := (list N) (only parsing).

Fixpoint lit (s : string) : str :=
  match s with
  | EmptyString => []
  | String a s' => Ascii.N_of_ascii a :: lit s'
  end.

Definition chr (a : Ascii.ascii) : N := Ascii.N_of_ascii a.

Arguments lit s%_string : simpl never.
Arguments chr a%_char : simpl never.

(** [c in s] *)
Definition contains (c : N) (s : str) : bool := bool_decide (c ∈ s).

(** [s.find(c)]: index of the first occurrence, [None] for -1. *)
Fixpoint find (c : N) (s : str) : option nat :=
  match s with
  | [] => None
  | x :: s' => if decide (x = c) then Some 0%nat else S <$> find c s'
  end.

(** [s.find(c, start)] *)
Definition find_from (c : N) (start : nat) (s : str) : option nat :=
  (fun i => (start + i)%nat) <$> find c (drop start s).

(** [s.rfind(c)] *)
Fixpoint rfind (c : N) (s : str) : option nat :=
  match s with
  | [] => None
  | x :: s' =>
      match rfind c s' with
      | Some i => Some (S i)
      | None => if decide (x = c) then Some 0%nat else None
      end
  end.

(** [s.split(c)]: the segments between the occurrences of [c]. *)
Fixpoint split (c : N) (s : str) : list str :=
  match s with
  | [] => [[]]
  | x :: s' =>
      if decide (x = c) then [] :: split c s'
      else match split c s' with
           | seg :: segs => (x :: seg) :: segs
           | [] => [[x]]
           end
  end.

(** [s.split(c, 1)] when [c in s], as a pair; [s.partition(c)] without the
    separator. When [c] is absent the whole string is the first part. *)
Definition split1 (c : N) (s : str) : str * str :=
  match find c s with
  | Some i => (take i s, drop (S i) s)
  | None => (s, [])
  end.

(** [sep.join(parts)] for a one-character separator. *)
Fixpoint join (sep : N) (parts : list str) : str :=
  match parts with
  | [] => []
  | [p] => p
  | p :: ps => p ++ sep :: join sep ps
  end.

(** [s.replace(c, "")] *)
Definition remove (c : N) (s : str) : str :=
  List.filter (fun x => negb (bool_decide (x = c))) s.

(** [s.replace(a, b)] for single characters. *)
Definition replace (a b : N) (s : str) : str :=
  (fun x => if decide (x = a) then b else x) <$> s.

(** [s.lstrip(chars)] *)
Fixpoint lstrip (chars : N → bool) (s : str) : str :=
  match s with
  | [] => []
  | x :: s' => if chars x then lstrip chars s' else s
  end.

Definition is_upper (c : N) : bool := (65 <=? c) && (c <=? 90).
Definition is_lower (c : N) : bool := (97 <=? c) && (c <=? 122).
Definition is_digit (c : N) : bool := (48 <=? c) && (c <=? 57).

(** [c.isascii() and c.isalpha()] *)
Definition isascii_alpha (c : N) : bool := is_upper c || is_lower c.

(** [s.lower()] on a string of ASCII characters. *)
Definition lower (s : str) : str :=
  (fun c => if is_upper c then c + 32 else c) <$> s.

(** [s.startswith(c)] *)
Definition startswith (c : N) (s : str) : bool :=
  match s with x :: _ => bool_decide (x = c) | [] => false end.

(** [s.isascii()] *)
Definition isascii (s : str) : bool := forallb (fun c => c <? 128) s.

End Py.

Import Py.

Example find_ex : find (chr ":") (lit "ab:c:d") = Some 2%nat.
Proof. reflexivity. Qed.
Example rfind_ex : rfind (chr "/") (lit "/a/b;c") = Some 2%nat.
Proof. reflexivity. Qed.
Example split_ex : split (chr "&") (lit "a&&b") = [lit "a"; lit ""; lit "b"].
Proof. reflexivity. Qed.
Example split_empty_ex : split (chr "&") (lit "") = [lit ""].
Proof. reflexivity. Qed.
Example join_ex : join (chr "&") [lit "a=1"; lit "b=2"] = lit "a=1&b=2".
Proof. reflexivity. Qed.

(** [[f(x) for x in xs]] where [f] may raise: the first exception wins. *)
Fixpoint traverse {A B} (f : A → result B) (xs : list A) : result (list B) :=
  match xs with
  | [] => Ok []
  | x :: xs' => y ← f x; ys ← traverse f xs'; Ok (y :: ys)
  end.

(** ** UTF-8, as [str.encode('utf-8', 'strict')] and
       [bytes.decode('utf-8', 'replace')] *)

Module Utf8.

Definition REPLACEMENT : N := 0xFFFD.

Definition is_cont (b : N) : bool := (0x80 <=? b) && (b <=? 0xBF).

(** One code point to its bytes. Surrogates are refused by the strict error
    handler; a number above U+10FFFF is not a code point and is refused too
    (no Python [str] holds one). *)
Definition encode_char (c : N) : result (list N) :=
  if c <? 0x80 then Ok [c]
  else if c <? 0x800 then Ok [0xC0 + c / 64; 0x80 + c mod 64]
  else if c <? 0x10000 then
    if (0xD800 <=? c) && (c <=? 0xDFFF) then Raise UnicodeEncodeError
    else Ok [0xE0 + c / 4096; 0x80 + (c / 64) mod 64; 0x80 + c mod 64]
  else if c <? 0x110000 then
    Ok [0xF0 + c / 262144; 0x80 + (c / 4096) mod 64;
        0x80 + (c / 64) mod 64; 0x80 + c mod 64]
  else Raise UnicodeEncodeError.

Definition encode (s : str) : result (list N) :=
  bs ← traverse encode_char s; Ok (concat bs).

(** Range of the second byte after the lead byte [b1] of a three-byte form. *)
Definition second3 (b1 b2 : N) : bool :=
  if b1 =? 0xE0 then (0xA0 <=? b2) && (b2 <=? 0xBF)
  else if b1 =? 0xED then (0x80 <=? b2) && (b2 <=? 0x9F)
  else is_cont b2.

(** Range of the second byte after the lead byte [b1] of a four-byte form. *)
Definition second4 (b1 b2 : N) : bool :=
  if b1 =? 0xF0 then (0x90 <=? b2) && (b2 <=? 0xBF)
  else if b1 =? 0xF4 then (0x80 <=? b2) && (b2 <=? 0x8F)
  else is_cont b2.

(** The decoder with the [replace] handler: every maximal ill-formed
    subsequence becomes one U+FFFD. *)
Fixpoint decode (bs : list N) : str :=
  match bs with
  | [] => []
  | b1 :: r1 =>
    if b1 <? 0x80 then b1 :: decode r1
    else if b1 <? 0xC2 then REPLACEMENT :: decode r1
    else if b1 <? 0xE0 then
      match r1 with
      | [] => [REPLACEMENT]
      | b2 :: r2 =>
        if is_cont b2 then ((b1 - 0xC0) * 64 + (b2 - 0x80)) :: decode r2
        else REPLACEMENT :: decode r1
      end
    else if b1 <? 0xF0 then
      match r1 with
      | [] => [REPLACEMENT]
      | b2 :: r2 =>
        if second3 b1 b2 then
          match r2 with
          | [] => [REPLACEMENT]
          | b3 :: r3 =>
            if is_cont b3
            then (((b1 - 0xE0) * 64 + (b2 - 0x80)) * 64 + (b3 - 0x80)) :: decode r3
            else REPLACEMENT :: decode r2
          end
        else REPLACEMENT :: decode r1
      end
    else if b1 <? 0xF5 then
      match r1 with
      | [] => [REPLACEMENT]
      | b2 :: r2 =>
        if second4 b1 b2 then
          match r2 with
          | [] => [REPLACEMENT]
          | b3 :: r3 =>
            if is_cont b3 then
              match r3 with
              | [] => [REPLACEMENT]
              | b4 :: r4 =>
                if is_cont b4
                then ((((b1 - 0xF0) * 64 + (b2 - 0x80)) * 64 + (b3 - 0x80)) * 64
                      + (b4 - 0x80)) :: decode r4
                else REPLACEMENT :: decode r3
              end
            else REPLACEMENT :: decode r2
          end
        else REPLACEMENT :: decode r1
      end
    else REPLACEMENT :: decode r1
  end.

End Utf8.

Example utf8_encode_ex :
  Utf8.encode [0x4F60; 0x41; 0xE9; 0x1F600]
  = Ok [0xE4; 0xBD; 0xA0; 0x41; 0xC3; 0xA9; 0xF0; 0x9F; 0x98; 0x80].
Proof. reflexivity. Qed.
Example utf8_encode_surrogate_ex : Utf8.encode [0x41; 0xD800] = Raise UnicodeEncodeError.
Proof. reflexivity. Qed.
Example utf8_decode_ex :
  Utf8.decode [0xE4; 0xBD; 0xA0; 0x41; 0xC3; 0xA9; 0xF0; 0x9F; 0x98; 0x80]
  = [0x4F60; 0x41; 0xE9; 0x1F600].
Proof. reflexivity. Qed.
Example utf8_decode_bad_ex :
  Utf8.decode [0xE4; 0xBD; 0x41; 0xED; 0xA0; 0x80; 0xC0; 0x80; 0xF0; 0x90]
  = [0xFFFD; 0x41; 0xFFFD; 0xFFFD; 0xFFFD; 0xFFFD; 0xFFFD; 0xFFFD].
Proof. reflexivity. Qed.

(** ** [urllib.parse]: quoting *)

Module Urllib.

(** Truth value of a string: non-empty. *)
Definition truthy (s : str) : bool :=
  match s with [] => false | _ => true end.

(** [_ALWAYS_SAFE]: letters, digits and [_.-~]. *)
Definition ALWAYS_SAFE (b : N) : bool :=
  is_upper b || is_lower b || is_digit b
  || bool_decide (b ∈ lit "_.-~").

(** One digit of ['%{:02X}'.format(b)]. *)
Definition hexdigit (n : N) : N := if n <? 10 then 48 + n else 55 + n.

(** [_Quoter.__missing__]: a safe byte stands for itself, any other byte
    becomes [%XX]. [safe] holds the extra safe bytes. *)
Definition quoter (safe : str) (b : N) : str :=
  if ALWAYS_SAFE b || contains b safe then [b]
  else [chr "%"; hexdigit (b / 16); hexdigit (b mod 16)].

(** [quote_from_bytes(bs, safe)] *)
Definition quote_from_bytes (bs : list N) (safe : str) : str :=
  if negb (truthy bs) then []
  else
    let safe := List.filter (fun c => c <? 128) safe in
    if forallb (fun b => ALWAYS_SAFE b || contains b safe) bs then bs
    else concat (quoter safe <$> bs).

(** [quote(string, safe)] with the default encoding and error handler. *)
Definition quote (string : str) (safe : str) : result str :=
  if negb (truthy string) then Ok string
  else bs ← Utf8.encode string; Ok (quote_from_bytes bs safe).

(** [quote_plus(string)] with [safe=''] *)
Definition quote_plus (string : str) : result str :=
  if negb (contains (chr " ") string) then quote string []
  else s ← quote string [chr " "]; Ok (replace (chr " ") (chr "+") s).

(** [urlencode(query, doseq=True)] on a list of pairs of [str]. *)
Definition urlencode (query : list (str * str)) : result str :=
  l ← traverse (fun kv : str * str =>
         k ← quote_plus kv.1; v ← quote_plus kv.2;
         Ok (k ++ chr "=" :: v)) query;
  Ok (join (chr "&") l).

(** ** [urllib.parse]: unquoting *)

(** Value of a character of [_hexdig]. *)
Definition hexval (c : N) : option N :=
  if is_digit c then Some (c - 48)
  else if (65 <=? c) && (c <=? 70) then Some (c - 55)
  else if (97 <=? c) && (c <=? 102) then Some (c - 87)
  else None.

(** The loop body of [unquote_to_bytes]: [item] is the text between two
    percent signs; [_hextobyte[item[:2]]] is found when its first two
    characters are hexadecimal digits. *)
Definition unquote_item (item : list N) : list N :=
  match item with
  | h1 :: h2 :: rest =>
      match hexval h1, hexval h2 with
      | Some a, Some b => (16 * a + b) :: rest
      | _, _ => chr "%" :: item
      end
  | _ => chr "%" :: item
  end.

(** [unquote_to_bytes(string)], for an ASCII [string] (its UTF-8 encoding
    is itself). *)
Definition unquote_to_bytes (string : str) : list N :=
  match split (chr "%") string with
  | [] | [_] => string
  | first :: items => first ++ concat (unquote_item <$> items)
  end.

(** The loop of [unquote]: [_asciire] cuts [string] into maximal runs of
    ASCII characters; each run is unquoted to bytes and decoded, the text
    between the runs is kept. [run] is the ASCII run read so far. *)
Fixpoint unquote_runs (run : str) (string : str) : str :=
  match string with
  | [] => Utf8.decode (unquote_to_bytes run)
  | c :: string' =>
      if c <? 128 then unquote_runs (run ++ [c]) string'
      else Utf8.decode (unquote_to_bytes run) ++ c :: unquote_runs [] string'
  end.

(** [unquote(string)] with [encoding='utf-8'], [errors='replace']. *)
Definition unquote (string : str) : str :=
  if negb (contains (chr "%") string) then string
  else unquote_runs [] string.

(** [parse_qsl(qs, keep_blank_values=True)] *)
Definition parse_qsl (qs : str) : list (str * str) :=
  let query_args := if truthy qs then split (chr "&") qs else [] in
  flat_map (fun name_value =>
    if negb (truthy name_value) then []
    else
      let nv := split1 (chr "=") name_value in
      let name := unquote (replace (chr "+") (chr " ") nv.1) in
      let value := unquote (replace (chr "+") (chr " ") nv.2) in
      [(name, value)]) query_args.

End Urllib.

Import Urllib.

Example quote_plus_ex :
  quote_plus (lit "a b+c/~" ++ [0x4F60]) = Ok (lit "a+b%2Bc%2F~%E4%BD%A0").
Proof. reflexivity. Qed.
Example unquote_ex : unquote (lit "%41%zz%%42%e4%BD%a0%E4") = lit "A%zz%B" ++ [0x4F60; 0xFFFD].
Proof. reflexivity. Qed.
Example unquote_mixed_ex : unquote (lit "%E4" ++ [0x4F60] ++ lit "%42") = [0xFFFD; 0x4F60; 66].
Proof. reflexivity. Qed.
Example parse_qsl_ex :
  parse_qsl (lit "a=1&&b&=c&d=e=f&%6Cimit=5&x+y=+")
  = [(lit "a", lit "1"); (lit "b", lit ""); (lit "", lit "c"); (lit "d", lit "e=f");
     (lit "limit", lit "5"); (lit "x y", lit " ")].
Proof. reflexivity. Qed.
Example urlencode_ex :
  urlencode [(lit "a", lit "1"); (lit "b", lit ""); (lit "x y", lit "e=f")]
  = Ok (lit "a=1&b=&x+y=e%3Df").
Proof. reflexivity. Qed.

(** ** [urllib.parse]: splitting and joining addresses *)

(** The two functions of other modules that [urlsplit] calls on the network
    location: [ipaddress.ip_address] on a bracketed host ([None] when it
    raises [ValueError]) and [unicodedata.normalize('NFKC', _)]. They are
    interfaces here; every statement below holds for all implementations. *)
Inductive ip_version := IPv4Address | IPv6Address.

Class HostLib := {
  ip_address : str → option ip_version;
  normalize_NFKC : str → str;
}.

Module UrlSplit.

Record ParseResult := mkParseResult {
  scheme : str;
  netloc : str;
  path : str;
  params : str;
  query : str;
  fragment : str;
}.

#[global] Instance ParseResult_eq_dec : EqDecision ParseResult.
Proof. solve_decision. Defined.

(** [parsed._replace(query=q)] *)
Definition replace_query (p : ParseResult) (q : str) : ParseResult :=
  mkParseResult (scheme p) (netloc p) (path p) (params p) q (fragment p).

Definition uses_netloc : list str :=
  lit <$> [""; "ftp"; "http"; "gopher"; "nntp"; "telnet";
           "imap"; "wais"; "file"; "mms"; "https"; "shttp";
           "snews"; "prospero"; "rtsp"; "rtspu"; "rsync";
           "svn"; "svn+ssh"; "sftp"; "nfs"; "git"; "git+ssh";
           "ws"; "wss"]%string.

Definition uses_params : list str :=
  lit <$> [""; "ftp"; "hdl"; "prospero"; "http"; "imap";
           "https"; "shttp"; "rtsp"; "rtspu"; "sip"; "sips";
           "mms"; "sftp"; "tel"]%string.

(** [c in scheme_chars] *)
Definition scheme_char (c : N) : bool :=
  is_lower c || is_upper c || is_digit c || bool_decide (c ∈ lit "+-.").

(** [c in _WHATWG_C0_CONTROL_OR_SPACE] *)
Definition C0_CONTROL_OR_SPACE (c : N) : bool := c <=? 32.

Definition UNSAFE_URL_BYTES_TO_REMOVE : list N := [9; 13; 10].

(** [_splitnetloc(url, start)] *)
Definition _splitnetloc (url : str) (start : nat) : str * str :=
  let delim :=
    foldl (fun delim c =>
             match find_from c start url with
             | Some wdelim => Nat.min delim wdelim
             | None => delim
             end) (length url) (lit "/?#") in
  (drop start (take delim url), drop delim url).

(** [re.match(r"\Av[a-fA-F0-9]+\..+\Z", hostname)] *)
Definition ipvfuture_match (hostname : str) : bool :=
  match hostname with
  | v :: rest =>
      bool_decide (v = chr "v")
      && (let tail := lstrip (fun c => bool_decide (is_Some (hexval c))) rest in
          negb (bool_decide (tail = rest))
          && match tail with
             | dot :: any =>
                 bool_decide (dot = chr ".") && truthy any
                 && forallb (fun c => negb (bool_decide (c = 10))) any
             | [] => false
             end)
  | [] => false
  end.

Section with_hostlib.
Context `{!HostLib}.

(** [_check_bracketed_host(hostname)] *)
Definition _check_bracketed_host (hostname : str) : result unit :=
  if startswith (chr "v") hostname then
    if negb (ipvfuture_match hostname) then Raise ValueError else Ok ()
  else
    match ip_address hostname with
    | None => Raise ValueError
    | Some IPv4Address => Raise ValueError
    | Some IPv6Address => Ok ()
    end.

(** [s.rpartition(c)[2]] *)
Definition rpartition2 (c : N) (s : str) : str :=
  match rfind c s with Some i => drop (S i) s | None => s end.

(** [_check_bracketed_netloc(netloc)] *)
Definition _check_bracketed_netloc (netloc : str) : result unit :=
  let hostname_and_port := rpartition2 (chr "@") netloc in
  if contains (chr "[") hostname_and_port then
    let '(before_bracket, bracketed) := split1 (chr "[") hostname_and_port in
    if truthy before_bracket then Raise ValueError
    else
      let '(hostname, port) := split1 (chr "]") bracketed in
      if truthy port && negb (startswith (chr ":") port) then Raise ValueError
      else _check_bracketed_host hostname
  else
    _check_bracketed_host (split1 (chr ":") hostname_and_port).1.

(** [_checknetloc(netloc)] *)
Definition _checknetloc (netloc : str) : result unit :=
  if negb (truthy netloc) || isascii netloc then Ok ()
  else
    let n := remove (chr "?") (remove (chr "#") (remove (chr ":")
               (remove (chr "@") netloc))) in
    let netloc2 := normalize_NFKC n in
    if bool_decide (n = netloc2) then Ok ()
    else if existsb (fun c => contains c netloc2) (lit "/?#@:")
         then Raise ValueError else Ok ().

(** [urlsplit(url)] with the default [scheme=''], [allow_fragments=True]. *)
Definition urlsplit (url : str) : result (str * str * str * str * str) :=
  let url := lstrip C0_CONTROL_OR_SPACE url in
  let url := foldl (fun u b => remove b u) url UNSAFE_URL_BYTES_TO_REMOVE in
  let '(scheme, url) :=
    match find (chr ":") url with
    | Some (S i') =>
        let i := S i' in
        if isascii_alpha (default 0 (head url))
           && forallb scheme_char (take i url)
        then (lower (take i url), drop (S i) url)
        else ([], url)
    | _ => ([], url)
    end in
  '(netloc, url) ←
    (if bool_decide (take 2 url = lit "//") then
       let '(netloc, url) := _splitnetloc url 2 in
       if (contains (chr "[") netloc && negb (contains (chr "]") netloc))
          || (contains (chr "]") netloc && negb (contains (chr "[") netloc))
       then Raise ValueError
       else if contains (chr "[") netloc && contains (chr "]") netloc
       then _check_bracketed_netloc netloc;; Ok (netloc, url)
       else Ok (netloc, url)
     else Ok ([], url));
  let '(url, fragment) :=
    if contains (chr "#") url then split1 (chr "#") url else (url, []) in
  let '(url, query) :=
    if contains (chr "?") url then split1 (chr "?") url else (url, []) in
  _checknetloc netloc;;
  Ok (scheme, netloc, url, query, fragment).

(** [_splitparams(url)]. [urlparse] calls it only when [';' in url]; the
    [None] case of the second [find] is Python's slicing with [i = -1]. *)
Definition _splitparams (url : str) : str * str :=
  if contains (chr "/") url then
    match find_from (chr ";") (default 0%nat (rfind (chr "/") url)) url with
    | None => (url, [])
    | Some i => (take i url, drop (S i) url)
    end
  else
    match find (chr ";") url with
    | Some i => (take i url, drop (S i) url)
    | None => (take (length url - 1) url, url)
    end.

(** [urlparse(url)] *)
Definition urlparse (url : str) : result ParseResult :=
  '(scheme, netloc, url, query, fragment) ← urlsplit url;
  let '(url, params) :=
    if bool_decide (scheme ∈ uses_params) && contains (chr ";") url
    then _splitparams url else (url, []) in
  Ok (mkParseResult scheme netloc url params query fragment).

End with_hostlib.

(** [urlunsplit((scheme, netloc, url, query, fragment))] *)
Definition urlunsplit (scheme netloc url query fragment : str) : str :=
  let url :=
    if truthy netloc
       || (truthy scheme && bool_decide (scheme ∈ uses_netloc)
           && negb (bool_decide (take 2 url = lit "//")))
    then
      let url :=
        if truthy url && negb (bool_decide (take 1 url = lit "/"))
        then chr "/" :: url else url in
      lit "//" ++ netloc ++ url
    else url in
  let url := if truthy scheme then scheme ++ chr ":" :: url else url in
  let url := if truthy query then url ++ chr "?" :: query else url in
  let url := if truthy fragment then url ++ chr "#" :: fragment else url in
  url.

(** [urlunparse(components)] *)
Definition urlunparse (p : ParseResult) : str :=
  let url := if truthy (params p) then path p ++ chr ";" :: params p else path p in
  urlunsplit (scheme p) (netloc p) url (query p) (fragment p).

End UrlSplit.

Import UrlSplit.

(** ** [normalize_url] ([src/main.py] and [src/catalog_to_json.py], the
       same text in both) *)

Definition NOISE : list str := [lit "limit"; lit "limitstart"].

Definition normalize_url `{!HostLib} (url : str) : result str :=
  parsed ← urlparse url;
  let query_pairs := parse_qsl (query parsed) in
  let filtered :=
    List.filter (fun kv : str * str => negb (bool_decide (kv.1 ∈ NOISE)))
      query_pairs in
  q ← urlencode filtered;
  let normalized := replace_query parsed q in
  Ok (urlunparse normalized).

(** ** What the crawlers see of the outside world *)

(** A parsed row of a listing page ([Entry] in [main.py], a tuple
    [(name, url, kind)] in [catalog_to_json.py]). *)
Record Entry := mkEntry {
  entry_name : str;
  entry_url : str;
  entry_kind : str;
}.

Definition FOLDER : str := lit "FOLDER".
Definition FILE : str := lit "FILE".

(** Outcome of [future.result()] for [_fetch_entries(url)]. The worker
    thread keeps whatever the call raised, and [result()] raises it again:
    - [Fetched entries]: the call returned the parsed entries;
    - [Failed exc]: it raised an [Exception], of which [exc] is the text
      (what [{exc}] formats to);
    - [Aborted i]: it raised an exception that is not an [Exception]. *)
Inductive fetch_result :=
  | Fetched (entries : list Entry)
  | Failed (exc : str)
  | Aborted (i : interrupt).

(** The environment of one crawl. [fetch f url] is the outcome of the
    future [f] submitted for [url]. [wait t pending] is the set returned by
    the [t]-th call [wait(futures.keys(), return_when=FIRST_COMPLETED)], in
    the order in which the [for] loop visits it. [print k url exc] is the
    outcome of the call [print(f"[WARN] ... {node.url} ... {exc}")] of the
    handler, made after [k] warnings were written, for a node with address
    [url] and an exception with text [exc]: the line is written to
    [sys.stdout], or the call raises ([UnicodeEncodeError] when the
    encoding of the stream has no code for a character of the line, which
    in both crawlers holds characters outside ASCII; [OSError] when the
    stream is broken; [ValueError] when it is closed). *)
Record World := mkWorld {
  fetch : nat → str → fetch_result;
  wait : nat → list nat → list nat;
  print : nat → str → str → result unit;
}.

(** [wait] blocks until a future completes and returns completed futures
    among those it was given. *)
Definition wait_ok (w : World) : Prop :=
  ∀ t pending, pending ≠ [] →
    wait w t pending ≠ [] ∧ NoDup (wait w t pending) ∧ wait w t pending ⊆ pending.

(** Every warning is written, and no future ends with an exception that
    the handler lets through. *)
Definition benign (w : World) : Prop :=
  (∀ k url exc, print w k url exc = Ok ())
  ∧ (∀ f url i, fetch w f url ≠ Aborted i).

(** ** The scheduler loop, shared text of both [crawl] methods

    Objects live in a heap: a node is referred to by its allocation index,
    so that [node.children.append(child)] on a queued or in-flight node is
    seen through every reference to it. *)

Module Sched.

(** The part of the state that the processing of a page updates. *)
Record Store (Node : Type) := mkStore {
  heap : list Node;
  seen : gset (list N);
  queue : list nat;
}.
Arguments mkStore {Node}.
Arguments heap {Node}.
Arguments seen {Node}.
Arguments queue {Node}.

(** [futures] is the dict from futures to nodes, in insertion order;
    [done] is [Some l] inside the [for future in done] loop, with [l] the
    futures still to visit; [log] collects the warnings written so far,
    as pairs [(node.url, exc)]. *)
Record State (Node : Type) := mkState {
  store : Store Node;
  futures : list (nat * nat);
  next_future : nat;
  waits : nat;
  done : option (list nat);
  log : list (list N * list N);
}.
Arguments mkState {Node}.
Arguments store {Node}.
Arguments futures {Node}.
Arguments next_future {Node}.
Arguments waits {Node}.
Arguments done {Node}.
Arguments log {Node}.

Inductive status (Node : Type) :=
  | Running (st : State Node)
  | Returned (st : State Node)
  | Raised (e : exn).
Arguments Running {Node}.
Arguments Returned {Node}.
Arguments Raised {Node}.

Section sched.
Context {Node : Type}.
(** [node.url] *)
Variable node_url : Node → str.
(** The body of the [for future in done] loop after a successful
    [future.result()]: lines 154-172 of [main.py], 134-142 of
    [catalog_to_json.py]. *)
Variable expand : nat → list Entry → Store Node → result (Store Node).
Variable w : World.
Variable max_workers : Z.

(** [node.url] through a reference. *)
Definition url_at (h : list Node) (node : nat) : str :=
  from_option node_url [] (h !! node).

(** [futures.pop(future)] *)
Definition pop_future (future : nat) (fs : list (nat * nat))
  : option (nat * list (nat * nat)) :=
  match list_find (fun kv => kv.1 = future) fs with
  | Some (i, kv) => Some (kv.2, delete i fs)
  | None => None
  end.

(** One transition of
<<
    while queue or futures:
        while queue and len(futures) < self.max_workers:
            node = queue.popleft()
            future = executor.submit(self._fetch_entries, node.url)
            futures[future] = node
        if not futures:
            continue
        done, _ = wait(futures.keys(), return_when=FIRST_COMPLETED)
        for future in done:
            node = futures.pop(future)
            try:
                entries = future.result()
            except Exception as exc:
                print(...)
                continue
            ...
>>
    Outside the [for] loop ([done = None]) a transition is one submission,
    or the call of [wait], or the end of the outer loop; inside it, a
    transition handles one completed future, or leaves the [for] loop.
    The handler catches an [Exception] only, and what its own [print]
    raises leaves the loop. *)
Definition step (st : State Node) : status Node :=
  let s := store st in
  match done st with
  | None =>
      match queue s with
      | node :: queue' =>
          if bool_decide (Z.of_nat (length (futures st)) < max_workers)%Z then
            Running (mkState (mkStore (heap s) (seen s) queue')
                       (futures st ++ [(next_future st, node)])
                       (S (next_future st)) (waits st) None (log st))
          else
            match futures st with
            | [] => Running st
            | _ :: _ =>
                Running (mkState s (futures st) (next_future st) (S (waits st))
                           (Some (wait w (waits st) (futures st).*1)) (log st))
            end
      | [] =>
          match futures st with
          | [] => Returned st
          | _ :: _ =>
              Running (mkState s (futures st) (next_future st) (S (waits st))
                         (Some (wait w (waits st) (futures st).*1)) (log st))
          end
      end
  | Some [] =>
      Running (mkState s (futures st) (next_future st) (waits st) None (log st))
  | Some (future :: rest) =>
      match pop_future future (futures st) with
      | None => Raised KeyError
      | Some (node, futures') =>
          match fetch w future (url_at (heap s) node) with
          | Aborted i => Raised (Interrupt i)
          | Failed exc =>
              match print w (length (log st)) (url_at (heap s) node) exc with
              | Raise e => Raised e
              | Ok _ =>
                  Running (mkState s futures' (next_future st) (waits st) (Some rest)
                             (log st ++ [(url_at (heap s) node, exc)]))
              end
          | Fetched entries =>
              match expand node entries s with
              | Raise e => Raised e
              | Ok s' =>
                  Running (mkState s' futures' (next_future st) (waits st)
                             (Some rest) (log st))
              end
          end
      end
  end.

(** At most [n] transitions from [st]. *)
Fixpoint exec (n : nat) (st : State Node) : status Node :=
  match n with
  | O => Running st
  | S n' =>
      match step st with
      | Running st' => exec n' st'
      | other => other
      end
  end.

End sched.
End Sched.

Import Sched.

(** [ThreadPoolExecutor(max_workers=n)] raises [ValueError] unless [n > 0]. *)
Definition executor_ok (max_workers : Z) : bool := bool_decide (0 < max_workers)%Z.

(** ** [CatalogCrawler] ([src/main.py]) *)

Module Main.

Record CatalogNode := mkNode {
  name : str;
  url : str;
  depth : Z;
  children : list nat;
  has_file_children : bool;
}.

(** [node.has_file_children = b] *)
Definition set_has_file_children (b : bool) (nd : CatalogNode) : CatalogNode :=
  mkNode (name nd) (url nd) (depth nd) (children nd) b.

(** [node.children.append(child)] *)
Definition append_child (child : nat) (nd : CatalogNode) : CatalogNode :=
  mkNode (name nd) (url nd) (depth nd) (children nd ++ [child]) (has_file_children nd).

(** [node.depth] through a reference. *)
Definition depth_at (h : list CatalogNode) (node : nat) : Z :=
  from_option depth 0%Z (h !! node).

Section crawler.
Context `{!HostLib}.

(** [for entry in folder_entries: ...] (lines 161-172) *)
Fixpoint attach (node : nat) (folder_entries : list Entry) (s : Store CatalogNode)
  : result (Store CatalogNode) :=
  match folder_entries with
  | [] => Ok s
  | entry :: rest =>
      normalized ← normalize_url (entry_url entry);
      if bool_decide (normalized ∈ seen s) then attach node rest s
      else
        let child := length (heap s) in
        let child_node :=
          mkNode (entry_name entry) (entry_url entry)
                 (depth_at (heap s) node + 1) [] false in
        attach node rest
          (mkStore (alter (append_child child) node (heap s ++ [child_node]))
                   ({[normalized]} ∪ seen s)
                   (queue s ++ [child]))
  end.

(** Lines 154-172: the work on the entries of a fetched page. *)
Definition expand (node : nat) (entries : list Entry) (s : Store CatalogNode)
  : result (Store CatalogNode) :=
  let folder_entries :=
    List.filter (fun entry => bool_decide (entry_kind entry = FOLDER)) entries in
  let has_file :=
    existsb (fun entry => bool_decide (entry_kind entry = FILE)) entries in
  attach node folder_entries
    (mkStore (alter (set_has_file_children has_file) node (heap s)) (seen s) (queue s)).

(** The state on entry of the [while] loop. *)
Definition init (root_name root_url normalized : str) : State CatalogNode :=
  mkState (mkStore [mkNode root_name root_url 0 [] false] {[normalized]} [0%nat])
          [] 0 0 None [].

(** [crawl(root_name, root_url)], run for at most [fuel] transitions of the
    loop: [None] when the loop is still running after them. The returned
    root is the node at reference 0 of the heap. *)
Definition crawl (w : World) (max_workers : Z) (root_name root_url : str) (fuel : nat)
  : option (result (list CatalogNode)) :=
  match normalize_url root_url with
  | Raise e => Some (Raise e)
  | Ok normalized =>
      if negb (executor_ok max_workers) then Some (Raise ValueError)
      else
        match exec url expand w max_workers fuel (init root_name root_url normalized) with
        | Running _ => None
        | Returned st => Some (Ok (heap (store st)))
        | Raised e => Some (Raise e)
        end
  end.

End crawler.
End Main.

(** ** [FullCatalogCrawler] ([src/catalog_to_json.py]) *)

Module Full.

Record CatalogNode := mkNode {
  name : str;
  url : str;
  kind : str;
  children : list nat;
}.

(** [node.children.append(child)] *)
Definition append_child (child : nat) (nd : CatalogNode) : CatalogNode :=
  mkNode (name nd) (url nd) (kind nd) (children nd ++ [child]).

Section crawler.
Context `{!HostLib}.

(** [for name, url, kind in entries: ...] (lines 134-142) *)
Fixpoint expand (node : nat) (entries : list Entry) (s : Store CatalogNode)
  : result (Store CatalogNode) :=
  match entries with
  | [] => Ok s
  | entry :: rest =>
      let child := length (heap s) in
      let child_node :=
        mkNode (entry_name entry) (entry_url entry) (entry_kind entry) [] in
      let heap' := alter (append_child child) node (heap s ++ [child_node]) in
      if bool_decide (entry_kind entry = FOLDER) then
        normalized ← normalize_url (entry_url entry);
        if bool_decide (normalized ∈ seen s)
        then expand node rest (mkStore heap' (seen s) (queue s))
        else expand node rest
               (mkStore heap' ({[normalized]} ∪ seen s) (queue s ++ [child]))
      else expand node rest (mkStore heap' (seen s) (queue s))
  end.

Definition init (root_name root_url normalized : str) : State CatalogNode :=
  mkState (mkStore [mkNode root_name root_url FOLDER []] {[normalized]} [0%nat])
          [] 0 0 None [].

Definition crawl (w : World) (max_workers : Z) (root_name root_url : str) (fuel : nat)
  : option (result (list CatalogNode)) :=
  match normalize_url root_url with
  | Raise e => Some (Raise e)
  | Ok normalized =>
      if negb (executor_ok max_workers) then Some (Raise ValueError)
      else
        match exec url expand w max_workers fuel (init root_name root_url normalized) with
        | Running _ => None
        | Returned st => Some (Ok (heap (store st)))
        | Raised e => Some (Raise e)
        end
  end.

End crawler.
End Full.

(** ** Facts about the UTF-8 codec and the quoting functions *)

Module CodecFacts.

#[local] Ltac Zify.zify_post_hook ::= Z.to_euclidean_division_equations.

(** Decide the comparisons of the goal by arithmetic. *)
Ltac cmp :=
  repeat match goal with
  | |- context [?a <? ?b] => destruct (N.ltb_spec a b); try lia
  | |- context [?a <=? ?b] => destruct (N.leb_spec a b); try lia
  | |- context [?a =? ?b] => destruct (N.eqb_spec a b); try lia
  end.

Lemma decode_encode_char c bs rest :
  Utf8.encode_char c = Ok bs → Utf8.decode (bs ++ rest) = c :: Utf8.decode rest.
Proof.
  unfold Utf8.encode_char.
  destruct (N.ltb_spec c 0x80).
  { intros [= <-]. simpl. by cmp. }
  destruct (N.ltb_spec c 0x800).
  { intros [= <-]. cbn [app Utf8.decode]. unfold Utf8.is_cont.
    cmp; simpl; f_equal; lia. }
  destruct (N.ltb_spec c 0x10000).
  { destruct (N.leb_spec 0xD800 c); destruct (N.leb_spec c 0xDFFF); simpl;
      try done; intros [= <-]; cbn [app Utf8.decode];
      unfold Utf8.second3, Utf8.is_cont; cmp; simpl; f_equal; lia. }
  destruct (N.ltb_spec c 0x110000); [|done].
  intros [= <-]. cbn [app Utf8.decode]. unfold Utf8.second4, Utf8.is_cont.
  cmp; simpl; f_equal; lia.
Qed.


Lemma encode_char_bytes c bs :
  Utf8.encode_char c = Ok bs → Forall (fun b => b < 256) bs.
Proof.
  unfold Utf8.encode_char.
  destruct (N.ltb_spec c 0x80); [intros [= <-]; repeat constructor; lia|].
  destruct (N.ltb_spec c 0x800); [intros [= <-]; repeat constructor; lia|].
  destruct (N.ltb_spec c 0x10000).
  { destruct (N.leb_spec 0xD800 c); destruct (N.leb_spec c 0xDFFF); simpl;
      try done; intros [= <-]; repeat constructor; lia. }
  destruct (N.ltb_spec c 0x110000); [|done].
  intros [= <-]; repeat constructor; lia.
Qed.

(** The bytes of a character are ASCII only for an ASCII character, which
    is then its own encoding. *)
Lemma encode_char_ascii c bs b :
  Utf8.encode_char c = Ok bs → b ∈ bs → b < 128 → bs = [c] ∧ c < 128.
Proof.
  unfold Utf8.encode_char.
  destruct (N.ltb_spec c 0x80); [by intros [= <-]|].
  destruct (N.ltb_spec c 0x800).
  { intros [= <-] Hb ?. exfalso. set_unfold. lia. }
  destruct (N.ltb_spec c 0x10000).
  { destruct (N.leb_spec 0xD800 c); destruct (N.leb_spec c 0xDFFF); simpl;
      try done; intros [= <-] Hb ?; exfalso; set_unfold; lia. }
  destruct (N.ltb_spec c 0x110000); [|done].
  intros [= <-] Hb ?. exfalso. set_unfold. lia.
Qed.

Lemma traverse_Ok {A B} (f : A → result B) xs ys :
  traverse f xs = Ok ys ↔ Forall2 (fun x y => f x = Ok y) xs ys.
Proof.
  revert ys. induction xs as [|x xs IH]; intros ys; simpl.
  - split; [intros [= <-]; constructor|by intros ->%Forall2_nil_inv_l].
  - destruct (f x) as [y|e] eqn:Hx; simpl.
    + destruct (traverse f xs) as [ys'|e] eqn:Hxs; simpl.
      * split.
        -- intros [= <-]. constructor; [done|]. by apply IH.
        -- intros (y' & ys'' & Hy & Hys & ->)%Forall2_cons_inv_l.
           apply IH in Hys. congruence.
      * split; [done|].
        intros (y' & ys'' & Hy & Hys & ->)%Forall2_cons_inv_l.
        apply IH in Hys. done.
    + split; [done|]. intros (y' & ys'' & Hy & Hys & ->)%Forall2_cons_inv_l. congruence.
Qed.

Lemma encode_Ok s bs :
  Utf8.encode s = Ok bs ↔
  ∃ bss, Forall2 (fun c b => Utf8.encode_char c = Ok b) s bss ∧ bs = concat bss.
Proof.
  unfold Utf8.encode.
  destruct (traverse Utf8.encode_char s) as [bss|e] eqn:Ht; simpl.
  - apply traverse_Ok in Ht. split.
    + intros [= <-]. by exists bss.
    + intros (bss' & Hb & ->). f_equal. f_equal.
      clear -Ht Hb. revert bss' Hb. induction Ht; intros bss' Hb.
      * by apply Forall2_nil_inv_l in Hb as ->.
      * apply Forall2_cons_inv_l in Hb as (? & ? & ? & ? & ->). f_equal; [congruence|auto].
  - split; [done|]. intros (bss & Hb%traverse_Ok & _). congruence.
Qed.

Lemma decode_encode s bs : Utf8.encode s = Ok bs → Utf8.decode bs = s.
Proof.
  intros (bss & Hb & ->)%encode_Ok. induction Hb as [|c b s bss Hc _ IH]; [done|].
  simpl. rewrite (decode_encode_char _ _ _ Hc). by f_equal.
Qed.

Lemma encode_bytes s bs : Utf8.encode s = Ok bs → Forall (fun b => b < 256) bs.
Proof.
  intros (bss & Hb & ->)%encode_Ok. induction Hb as [|c b s bss Hc _ IH]; [constructor|].
  simpl. apply Forall_app. split; [by eapply encode_char_bytes|done].
Qed.

(** A string has ASCII bytes only when it is ASCII, and is then its own
    encoding. *)
Lemma encode_ascii s bs :
  Utf8.encode s = Ok bs → Forall (fun b => b < 128) bs → bs = s.
Proof.
  intros (bss & Hb & ->)%encode_Ok. induction Hb as [|c b s bss Hc _ IH]; [done|].
  simpl. intros [Hb1 Hb2]%Forall_app. rewrite IH by done.
  destruct b as [|b0 b].
  { unfold Utf8.encode_char in Hc. repeat case_match; simplify_eq. }
  apply Forall_cons in Hb1 as [Hb0 _].
  destruct (encode_char_ascii c (b0 :: b) b0 Hc) as [-> _]; [by left|done|done].
Qed.

(** A space byte comes from a space character only. *)
Lemma encode_space s bs :
  Utf8.encode s = Ok bs → (32 ∈ bs ↔ 32 ∈ s).
Proof.
  intros (bss & Hb & ->)%encode_Ok. induction Hb as [|c b s bss Hc _ IH]; [done|].
  simpl. rewrite elem_of_app, elem_of_cons, IH.
  assert (32 ∈ b ↔ 32 = c); [|tauto].
  split.
  - intros Hin. destruct (encode_char_ascii c b 32 Hc Hin) as [-> _]; [lia|].
    by apply list_elem_of_singleton in Hin.
  - intros <-. unfold Utf8.encode_char in Hc. simpl in Hc. simplify_eq. by left.
Qed.



(** *** Quoting *)

(** A byte as [%XX]. *)
Definition pct (b : N) : list N := [chr "%"; hexdigit (b / 16); hexdigit (b mod 16)].

(** What [quote_plus] makes of a byte, once the [+] that stands for a space
    is read as a space again. *)
Definition quoted (b : N) : list N :=
  if ALWAYS_SAFE b || bool_decide (b = 32) then [b] else pct b.

(** The characters that [quote_plus] can produce. *)
Definition quote_char (c : N) : Prop :=
  ALWAYS_SAFE c = true ∨ c = chr "%" ∨ c = chr "+".

Lemma ALWAYS_SAFE_spec b :
  ALWAYS_SAFE b = true ↔
  (65 ≤ b ≤ 90) ∨ (97 ≤ b ≤ 122) ∨ (48 ≤ b ≤ 57) ∨ b = 95 ∨ b = 46 ∨ b = 45 ∨ b = 126.
Proof.
  unfold ALWAYS_SAFE, is_upper, is_lower, is_digit.
  rewrite !orb_true_iff, !andb_true_iff, !N.leb_le, bool_decide_eq_true.
  change (lit "_.-~") with [95; 46; 45; 126]. set_unfold. lia.
Qed.

Lemma hexdigit_safe n : n < 16 → ALWAYS_SAFE (hexdigit n) = true.
Proof.
  intros Hn. apply ALWAYS_SAFE_spec. unfold hexdigit.
  destruct (N.ltb_spec n 10); lia.
Qed.

Lemma hexval_hexdigit n : n < 16 → hexval (hexdigit n) = Some n.
Proof.
  intros Hn. unfold hexdigit, hexval, is_digit.
  destruct (N.ltb_spec n 10); cmp; simpl; f_equal; lia.
Qed.

Lemma quoter_concat safe bs :
  forallb (fun b => ALWAYS_SAFE b || contains b safe) bs = true →
  concat (quoter safe <$> bs) = bs.
Proof.
  induction bs as [|b bs IH]; [done|]. cbn [forallb].
  intros [Hb Hbs]%andb_true_iff. rewrite fmap_cons, concat_cons.
  unfold quoter at 1. rewrite Hb. cbn [app]. f_equal. by apply IH.
Qed.

Lemma quote_from_bytes_eq bs safe :
  quote_from_bytes bs safe
  = concat (quoter (List.filter (fun c => c <? 128) safe) <$> bs).
Proof.
  unfold quote_from_bytes. destruct bs as [|b bs]; [done|]. simpl negb. cbv iota.
  destruct (forallb _ (b :: bs)) eqn:Hall; [|done].
  symmetry. by apply quoter_concat.
Qed.

Lemma replace_id a b s : a ∉ s → replace a b s = s.
Proof.
  unfold replace. induction s as [|x s IH]; [done|].
  intros Hn. rewrite fmap_cons, decide_False by set_solver. f_equal. apply IH. set_solver.
Qed.

Lemma replace_replace a b s : b ∉ s → replace b a (replace a b s) = s.
Proof.
  unfold replace. induction s as [|x s IH]; [done|].
  intros Hn. rewrite !fmap_cons, IH by set_solver. f_equal.
  destruct (decide (x = a)) as [->|Hne].
  - by rewrite decide_True.
  - rewrite decide_False; [done|]. set_solver.
Qed.

Lemma quoted_chars b c :
  b < 256 → c ∈ quoted b → ALWAYS_SAFE c = true ∨ c = 32 ∨ c = chr "%".
Proof.
  intros Hb. unfold quoted.
  destruct (ALWAYS_SAFE b) eqn:Hs; simpl.
  { intros ->%list_elem_of_singleton. by left. }
  case_bool_decide as H32; simpl.
  { intros ->%list_elem_of_singleton. right. by left. }
  unfold pct. rewrite !elem_of_cons. intros [->|[->|[->|Hn]]].
  - right. by right.
  - left. apply hexdigit_safe. lia.
  - left. apply hexdigit_safe. lia.
  - by apply elem_of_nil in Hn.
Qed.

Lemma quoter_quoted safe b :
  (contains b safe = bool_decide (b = 32)) → quoter safe b = quoted b.
Proof. unfold quoter, quoted, pct. by intros ->. Qed.

(** The outcome of [quote_plus]. *)
Lemma quote_plus_spec k Q :
  quote_plus k = Ok Q →
  ∃ bs, Utf8.encode k = Ok bs
        ∧ replace (chr "+") (chr " ") Q = concat (quoted <$> bs)
        ∧ Forall quote_char Q.
Proof.
  unfold quote_plus, quote.
  assert (Hq : ∀ bs safe,
    Forall (fun b => b < 256) bs →
    (∀ b, b ∈ bs → contains b safe = bool_decide (b = 32)) →
    concat (quoter safe <$> bs) = concat (quoted <$> bs)
    ∧ Forall (fun c => ALWAYS_SAFE c = true ∨ c = 32 ∨ c = chr "%")
        (concat (quoted <$> bs))).
  { intros bs safe Hb Hs. induction Hb as [|b bs Hb _ IH]; [by split; [|constructor]|].
    destruct IH as [IH1 IH2]; [intros ??; apply Hs; by right|].
    rewrite !fmap_cons, !concat_cons.
    rewrite (quoter_quoted safe b) by (apply Hs; by left). rewrite IH1.
    split; [done|]. apply Forall_app. split; [|done].
    apply Forall_forall. intros c Hc. by eapply quoted_chars. }
  assert (Hplus : ∀ bs, Forall (fun b => b < 256) bs →
                        chr "+" ∉ concat (quoted <$> bs)).
  { intros bs Hb Hin. destruct (Hq bs [32] Hb) as [_ Hall].
    - intros b _. unfold contains. apply bool_decide_ext. set_solver.
    - rewrite Forall_forall in Hall. by destruct (Hall _ Hin) as [?|[?|?]]. }
  assert (Hspace : ∀ bs, 32 ∈ concat (quoted <$> bs) → 32 ∈ bs).
  { intros bs. induction bs as [|b bs IH]; [done|].
    rewrite fmap_cons, concat_cons, elem_of_app, elem_of_cons.
    intros [Hb|Hb]; [left|right; by apply IH].
    unfold quoted in Hb. destruct (ALWAYS_SAFE b || bool_decide (b = 32)).
    - by apply list_elem_of_singleton in Hb.
    - unfold pct, hexdigit in Hb. set_unfold.
      destruct Hb as [Hb|[Hb|[Hb|[]]]]; [done| |];
        revert Hb; case_match; lia. }
  destruct (contains (chr " ") k) eqn:Hsp; simpl negb; cbv iota.
  - (* a space in the string *)
    destruct k as [|c0 k0] eqn:Hk; [done|]. rewrite <-Hk in *. set (kk := k) in *.
    assert (truthy kk = true) as -> by (by subst kk k). simpl negb. cbv iota.
    destruct (Utf8.encode kk) as [bs|e] eqn:Hen; simpl; [|done].
    intros [= <-]. exists bs. split; [done|].
    pose proof (encode_bytes _ _ Hen) as Hb.
    rewrite quote_from_bytes_eq.
    change (List.filter (λ c, c <? 128) [chr " "]) with [32].
    destruct (Hq bs [32] Hb) as [-> Hall].
    { intros b _. unfold contains. apply bool_decide_ext. set_solver. }
    split.
    + apply replace_replace. by apply Hplus.
    + apply Forall_forall. intros c Hc. unfold replace in Hc.
      apply list_elem_of_fmap in Hc as (c' & -> & Hc').
      rewrite Forall_forall in Hall. destruct (Hall _ Hc') as [Hs | [-> | ->]].
      * rewrite decide_False; [by left|]. intros ->. done.
      * right. by right.
      * right. by left.
  - (* no space *)
    destruct k as [|c0 k0] eqn:Hk.
    { simpl. intros [= <-]. exists []. split_and!; [done|done|constructor]. }
    rewrite <-Hk in *. set (kk := k) in *.
    assert (truthy kk = true) as -> by (by subst kk k). simpl negb. cbv iota.
    destruct (Utf8.encode kk) as [bs|e] eqn:Hen; simpl; [|done].
    intros [= <-]. exists bs. split; [done|].
    pose proof (encode_bytes _ _ Hen) as Hb.
    assert (Hno : 32 ∉ bs).
    { rewrite (encode_space _ _ Hen). unfold contains in Hsp.
      by apply bool_decide_eq_false in Hsp. }
    rewrite quote_from_bytes_eq. change (List.filter (λ c, c <? 128) []) with (@nil N).
    destruct (Hq bs [] Hb) as [-> Hall].
    { intros b Hbin. unfold contains. rewrite bool_decide_eq_false_2 by set_solver.
      symmetry. apply bool_decide_eq_false. by intros ->. }
    split.
    + apply replace_id. by apply Hplus.
    + apply Forall_forall. intros c Hc.
      rewrite Forall_forall in Hall. destruct (Hall _ Hc) as [Hs | [-> | ->]].
      * by left.
      * by apply Hspace in Hc.
      * right. by left.
Qed.


(** *** Unquoting *)

Lemma split_nonempty c s : split c s ≠ [].
Proof. destruct s as [|x s]; simpl; [done|]. repeat case_match; done. Qed.

(** A string without the separator is the only segment. *)
Lemma split_absent c s : c ∉ s → split c s = [s].
Proof.
  induction s as [|x s IH]; [done|]. intros Hn. simpl.
  rewrite decide_False by set_solver. rewrite IH by set_solver. done.
Qed.

(** The segments after a prefix without the separator. *)
Lemma split_app c p s :
  c ∉ p →
  split c (p ++ c :: s) = p :: split c s.
Proof.
  induction p as [|x p IH]; intros Hn; simpl.
  - by rewrite decide_True.
  - rewrite decide_False by set_solver. rewrite IH by set_solver. done.
Qed.

(** The result of [unquote_to_bytes] in terms of the segments. *)
Definition unquoted (s : list N) : list N :=
  match split (chr "%") s with
  | first :: items => first ++ concat (unquote_item <$> items)
  | [] => s
  end.

Lemma unquote_to_bytes_eq s : unquote_to_bytes s = unquoted s.
Proof.
  unfold unquote_to_bytes, unquoted.
  destruct (split (chr "%") s) as [|first [|item items]] eqn:Hs; [done| |done].
  rewrite app_nil_r.
  destruct (decide (chr "%" ∈ s)) as [Hin|Hn].
  - apply list_elem_of_split in Hin as (p & t & ->).
    exfalso. revert Hs. clear. revert first.
    induction p as [|x p IH]; intros first; simpl.
    + pose proof (split_nonempty (chr "%") t).
      by destruct (split _ t).
    + destruct (decide (x = chr "%")).
      * pose proof (split_nonempty (chr "%") (p ++ chr "%" :: t)).
        by destruct (split _ (p ++ _)).
      * pose proof (split_nonempty (chr "%") (p ++ chr "%" :: t)).
        destruct (split _ (p ++ _)) as [|seg [|??]] eqn:Hsp; [done| |done].
        intros _. by destruct (IH seg).
  - rewrite split_absent in Hs by done. by simplify_eq.
Qed.

Lemma unquoted_cons c s : c ≠ chr "%" → unquoted (c :: s) = c :: unquoted s.
Proof.
  intros Hne. unfold unquoted. simpl. rewrite decide_False by done.
  pose proof (split_nonempty (chr "%") s).
  by destruct (split (chr "%") s).
Qed.

Lemma hexval_not_percent h a : hexval h = Some a → h ≠ chr "%".
Proof. intros Hh ->. by vm_compute in Hh. Qed.

Lemma unquoted_pct h1 h2 a b s :
  hexval h1 = Some a → hexval h2 = Some b →
  unquoted (chr "%" :: h1 :: h2 :: s) = (16 * a + b) :: unquoted s.
Proof.
  intros H1 H2. unfold unquoted. simpl.
  rewrite decide_False by (by eapply hexval_not_percent).
  rewrite decide_False by (by eapply hexval_not_percent).
  pose proof (split_nonempty (chr "%") s).
  destruct (split (chr "%") s) as [|seg segs]; [done|].
  simpl. by rewrite H1, H2.
Qed.

Lemma unquoted_quoted bs :
  Forall (fun b => b < 256) bs → unquoted (concat (quoted <$> bs)) = bs.
Proof.
  induction 1 as [|b bs Hb _ IH]; [done|].
  rewrite fmap_cons, concat_cons. unfold quoted at 1.
  destruct (ALWAYS_SAFE b || bool_decide (b = 32)) eqn:Hs.
  - cbn [app]. rewrite unquoted_cons, IH; [done|].
    intros ->. by vm_compute in Hs.
  - unfold pct. cbn [app].
    rewrite (unquoted_pct _ _ (b / 16) (b mod 16)), IH.
    + f_equal. lia.
    + apply hexval_hexdigit. lia.
    + apply hexval_hexdigit. lia.
Qed.

(** On an ASCII string, the runs of [unquote] are the whole string. *)
Lemma unquote_runs_ascii run s :
  Forall (fun c => c < 128) s →
  unquote_runs run s = Utf8.decode (unquote_to_bytes (run ++ s)).
Proof.
  intros Hs. revert run. induction Hs as [|c s Hc _ IH]; intros run; simpl.
  - by rewrite app_nil_r.
  - apply N.ltb_lt in Hc. rewrite Hc, IH, <-(assoc (++)). done.
Qed.

Lemma decode_ascii bs : Forall (fun b => b < 128) bs → Utf8.decode bs = bs.
Proof.
  induction 1 as [|b bs Hb _ IH]; [done|]. simpl.
  apply N.ltb_lt in Hb. by rewrite Hb, IH.
Qed.

Lemma quote_char_ascii c : quote_char c → c < 128.
Proof.
  intros [Hs%ALWAYS_SAFE_spec|[->| ->]]; [lia|by vm_compute..].
Qed.

(** [unquote_plus] undoes [quote_plus]. *)
Lemma unquote_quote_plus k Q :
  quote_plus k = Ok Q → unquote (replace (chr "+") (chr " ") Q) = k.
Proof.
  intros (bs & Hen & Hrep & Hall)%quote_plus_spec.
  pose proof (encode_bytes _ _ Hen) as Hb.
  assert (Hascii : Forall (fun c => c < 128) (replace (chr "+") (chr " ") Q)).
  { apply Forall_forall. intros c (c' & -> & Hc')%list_elem_of_fmap.
    rewrite Forall_forall in Hall. apply Hall in Hc'.
    case_decide; [by vm_compute|by apply quote_char_ascii]. }
  unfold unquote. destruct (contains (chr "%") _) eqn:Hp; simpl.
  - rewrite unquote_runs_ascii by done. simpl.
    rewrite unquote_to_bytes_eq, Hrep, unquoted_quoted by done.
    by apply decode_encode.
  - (* no escape: the string is its own bytes *)
    assert (Hun : unquoted (replace (chr "+") (chr " ") Q) = replace (chr "+") (chr " ") Q).
    { unfold unquoted. rewrite split_absent, app_nil_r; [done|].
      unfold contains in Hp. by apply bool_decide_eq_false in Hp. }
    rewrite Hrep, unquoted_quoted in Hun by done.
    rewrite Hrep, <-Hun. apply encode_ascii; [done|].
    rewrite Hun, <-Hrep. done.
Qed.


(** *** The query string: [parse_qsl] after [urlencode] *)

Lemma find_absent c s : c ∉ s → find c s = None.
Proof.
  induction s as [|x s IH]; [done|]. intros Hn. simpl.
  rewrite decide_False by set_solver. rewrite IH by set_solver. done.
Qed.

Lemma find_app c p s : c ∉ p → find c (p ++ c :: s) = Some (length p).
Proof.
  induction p as [|x p IH]; intros Hn; simpl.
  - by rewrite decide_True.
  - rewrite decide_False by set_solver. rewrite IH by set_solver. done.
Qed.

Lemma find_Some c s i :
  find c s = Some i → s = take i s ++ c :: drop (S i) s ∧ c ∉ take i s.
Proof.
  revert i. induction s as [|x s IH]; intros i; simpl; [done|].
  destruct (decide (x = c)) as [->|Hne].
  - intros [= <-]. split; [done|]. simpl. set_solver.
  - destruct (find c s) as [j|] eqn:Hj; intros [= <-].
    destruct (IH j eq_refl) as [Heq Hn]. simpl. split; [by f_equal|].
    set_solver.
Qed.

Lemma find_None c s : find c s = None → c ∉ s.
Proof.
  induction s as [|x s IH]; simpl; [set_solver|].
  destruct (decide (x = c)); [done|].
  destruct (find c s); [done|]. set_solver.
Qed.

Lemma split1_app c p s : c ∉ p → split1 c (p ++ c :: s) = (p, s).
Proof.
  intros Hn. unfold split1. rewrite find_app by done.
  rewrite take_app_length. f_equal.
  rewrite (cons_middle c p s), (assoc (++)).
  apply drop_app_length'. rewrite length_app. simpl. lia.
Qed.

Lemma split1_absent c s : c ∉ s → split1 c s = (s, []).
Proof. intros Hn. unfold split1. by rewrite find_absent. Qed.

(** Joining segments without the separator and splitting again. *)
Lemma split_join c ps :
  ps ≠ [] → Forall (fun p => c ∉ p) ps → split c (join c ps) = ps.
Proof.
  intros Hne Hall. induction Hall as [|p ps Hp Hps IH]; [done|].
  destruct ps as [|p' ps].
  - simpl. by apply split_absent.
  - change (join c (p :: p' :: ps)) with (p ++ c :: join c (p' :: ps)).
    rewrite split_app by done. f_equal. by apply IH.
Qed.

(** The characters of a query string made by [urlencode]. *)
Definition query_char (c : N) : Prop :=
  quote_char c ∨ c = chr "=" ∨ c = chr "&".

Lemma quote_char_not c d :
  quote_char c → ALWAYS_SAFE d = false → d ≠ chr "%" → d ≠ chr "+" → c ≠ d.
Proof. intros Hc Hd ? ? <-. destruct Hc as [?|[?|?]]; congruence. Qed.

Lemma quote_plus_absent k Q d :
  quote_plus k = Ok Q →
  ALWAYS_SAFE d = false → d ≠ chr "%" → d ≠ chr "+" → d ∉ Q.
Proof.
  intros (_ & _ & _ & Hall)%quote_plus_spec Hd H1 H2 Hin.
  rewrite Forall_forall in Hall.
  by eapply (quote_char_not d d); [apply Hall|..].
Qed.

(** One [key=value] piece of [urlencode]. *)
Definition piece (kv : str * str) : result str :=
  k ← quote_plus kv.1; v ← quote_plus kv.2; Ok (k ++ chr "=" :: v).

Lemma piece_spec kv pc :
  piece kv = Ok pc →
  ∃ k v, quote_plus kv.1 = Ok k ∧ quote_plus kv.2 = Ok v ∧ pc = k ++ chr "=" :: v.
Proof.
  unfold piece. destruct (quote_plus kv.1) as [k|] eqn:Hk; [|done].
  destruct (quote_plus kv.2) as [v|] eqn:Hv; [|done].
  intros [= <-]. by exists k, v.
Qed.

Lemma piece_chars kv pc : piece kv = Ok pc → Forall query_char pc.
Proof.
  intros (k & v & Hk & Hv & ->)%piece_spec.
  apply quote_plus_spec in Hk as (_ & _ & _ & Hk).
  apply quote_plus_spec in Hv as (_ & _ & _ & Hv).
  apply Forall_app. split; [|constructor].
  - eapply Forall_impl; [exact Hk|]. by left.
  - right. by left.
  - eapply Forall_impl; [exact Hv|]. by left.
Qed.

Lemma piece_parse kv pc :
  piece kv = Ok pc →
  (chr "&" ∉ pc) ∧ truthy pc = true
  ∧ unquote (replace (chr "+") (chr " ") (split1 (chr "=") pc).1) = kv.1
  ∧ unquote (replace (chr "+") (chr " ") (split1 (chr "=") pc).2) = kv.2.
Proof.
  intros (k & v & Hk & Hv & ->)%piece_spec.
  assert (chr "=" ∉ k) by by eapply quote_plus_absent.
  assert (chr "&" ∉ k) by by eapply quote_plus_absent.
  assert (chr "&" ∉ v) by by eapply quote_plus_absent.
  rewrite split1_app by done. simpl. split_and!.
  - rewrite elem_of_app, elem_of_cons. intros [?|[?|?]]; done.
  - by destruct k.
  - by apply unquote_quote_plus.
  - by apply unquote_quote_plus.
Qed.

Lemma urlencode_spec l q :
  urlencode l = Ok q ↔
  ∃ pcs, Forall2 (fun kv pc => piece kv = Ok pc) l pcs ∧ q = join (chr "&") pcs.
Proof.
  unfold urlencode. fold piece.
  destruct (traverse piece l) as [pcs|e] eqn:Ht; simpl.
  - apply traverse_Ok in Ht. split.
    + intros [= <-]. by exists pcs.
    + intros (pcs' & Hp & ->). apply traverse_Ok in Hp, Ht. congruence.
  - split; [done|]. intros (pcs' & Hp%traverse_Ok & _). congruence.
Qed.

Lemma join_chars c ps (P : N → Prop) :
  P c → Forall (Forall P) ps → Forall P (join c ps).
Proof.
  intros Hc. induction 1 as [|p ps Hp Hps IH]; [constructor|].
  destruct ps as [|p' ps]; [done|].
  change (join c (p :: p' :: ps)) with (p ++ c :: join c (p' :: ps)).
  apply Forall_app. split; [done|]. by constructor.
Qed.

Lemma urlencode_chars l q : urlencode l = Ok q → Forall query_char q.
Proof.
  intros (pcs & Hp & ->)%urlencode_spec. apply join_chars.
  - right. by right.
  - induction Hp as [|kv pc l pcs Hpc _ IH]; constructor; [|done].
    by eapply piece_chars.
Qed.

(** [parse_qsl] reads back the pairs that [urlencode] wrote. *)
Lemma parse_qsl_urlencode l q : urlencode l = Ok q → parse_qsl q = l.
Proof.
  intros (pcs & Hp & ->)%urlencode_spec. unfold parse_qsl.
  destruct Hp as [|kv pc l pcs Hpc Hp]; [done|].
  assert (Hall : Forall2 (fun kv pc => piece kv = Ok pc) (kv :: l) (pc :: pcs))
    by by constructor.
  assert (Ht : truthy (join (chr "&") (pc :: pcs)) = true).
  { apply piece_parse in Hpc as (_ & Ht & _). destruct pc; [done|].
    by destruct pcs. }
  rewrite Ht, split_join; [|done|].
  - clear Ht Hpc Hp. induction Hall as [|kv' pc' l' pcs' Hpc' _ IH]; [done|].
    simpl. apply piece_parse in Hpc' as (_ & -> & -> & ->). simpl.
    rewrite IH. by destruct kv'.
  - clear Ht. induction Hall as [|kv' pc' l' pcs' Hpc' _ IH]; constructor; [|done].
    by apply piece_parse in Hpc' as (? & _).
Qed.

End CodecFacts.

Module UrlFacts.
Import CodecFacts.

(** ** [urlsplit] and [urlunsplit] *)

(** *** The steps of [urlsplit], named *)

Definition clean (url : str) : str :=
  foldl (fun u b => remove b u) (lstrip C0_CONTROL_OR_SPACE url)
    UNSAFE_URL_BYTES_TO_REMOVE.

Definition split_scheme (url : str) : str * str :=
  match find (chr ":") url with
  | Some (S i') =>
      let i := S i' in
      if isascii_alpha (default 0 (head url))
         && forallb scheme_char (take i url)
      then (lower (take i url), drop (S i) url)
      else ([], url)
  | _ => ([], url)
  end.

Definition split_fragment (url : str) : str * str :=
  if contains (chr "#") url then split1 (chr "#") url else (url, []).

Definition split_query (url : str) : str * str :=
  if contains (chr "?") url then split1 (chr "?") url else (url, []).

Section with_hostlib.
Context `{!HostLib}.

(** The tests on the brackets of a network location. *)
Definition check_brackets (netloc : str) : result unit :=
  if (contains (chr "[") netloc && negb (contains (chr "]") netloc))
     || (contains (chr "]") netloc && negb (contains (chr "[") netloc))
  then Raise ValueError
  else if contains (chr "[") netloc && contains (chr "]") netloc
  then _check_bracketed_netloc netloc
  else Ok ().

Definition split_netloc (url : str) : result (str * str) :=
  if bool_decide (take 2 url = lit "//") then
    let '(netloc, url) := _splitnetloc url 2 in
    check_brackets netloc;; Ok (netloc, url)
  else Ok ([], url).

Lemma urlsplit_eq url :
  urlsplit url =
  let '(scheme, url) := split_scheme (clean url) in
  '(netloc, url) ← split_netloc url;
  let '(url, fragment) := split_fragment url in
  let '(url, query) := split_query url in
  _checknetloc netloc;;
  Ok (scheme, netloc, url, query, fragment).
Proof.
  unfold urlsplit. fold (clean url). fold (split_scheme (clean url)).
  destruct (split_scheme (clean url)) as [s r0].
  unfold split_netloc, check_brackets.
  destruct (bool_decide (take 2 r0 = lit "//")); [|done].
  destruct (_splitnetloc r0 2) as [n r1].
  destruct (_ || _); [done|].
  destruct (_ && _); [|done].
  by destruct (_check_bracketed_netloc n) as [[]|].
Qed.

End with_hostlib.

(** *** Cleaning *)

Definition unsafe (c : N) : Prop := c ∈ UNSAFE_URL_BYTES_TO_REMOVE.

Lemma elem_of_remove c d s : c ∈ remove d s ↔ c ∈ s ∧ c ≠ d.
Proof.
  unfold remove. rewrite !list_elem_of_In, filter_In.
  rewrite negb_true_iff, bool_decide_eq_false. tauto.
Qed.

Lemma remove_id d s : d ∉ s → remove d s = s.
Proof.
  unfold remove. induction s as [|x s IH]; [done|]. intros Hn.
  simpl. rewrite bool_decide_eq_false_2 by set_solver. simpl.
  f_equal. apply IH. set_solver.
Qed.

Lemma remove_cons d x s : x ≠ d → remove d (x :: s) = x :: remove d s.
Proof. intros Hne. unfold remove. simpl. by rewrite bool_decide_eq_false_2. Qed.

Lemma lstrip_head chars s c : head (lstrip chars s) = Some c → chars c = false.
Proof.
  induction s as [|x s IH]; [done|]. simpl.
  destruct (chars x) eqn:Hx; [done|]. by intros [= <-].
Qed.

Lemma lstrip_id chars s : (∀ c, head s = Some c → chars c = false) → lstrip chars s = s.
Proof. destruct s as [|x s]; [done|]. intros Hc. simpl. by rewrite (Hc x). Qed.

Lemma lstrip_suffix chars s : lstrip chars s `suffix_of` s.
Proof.
  induction s as [|x s IH]; [done|]. simpl.
  destruct (chars x); [by apply suffix_cons_r|done].
Qed.

Lemma clean_safe url : Forall (fun c => ¬ unsafe c) (clean url).
Proof.
  apply Forall_forall. intros c. unfold clean, unsafe. simpl.
  rewrite !elem_of_remove. set_solver.
Qed.

Lemma clean_head url c : head (clean url) = Some c → 32 < c.
Proof.
  unfold clean. simpl.
  pose proof (lstrip_head C0_CONTROL_OR_SPACE url) as Hh.
  destruct (lstrip C0_CONTROL_OR_SPACE url) as [|x s]; [done|].
  specialize (Hh x eq_refl). unfold C0_CONTROL_OR_SPACE in Hh.
  apply N.leb_gt in Hh.
  rewrite !(remove_cons _ x) by lia. by intros [= <-].
Qed.

Lemma clean_id url :
  Forall (fun c => ¬ unsafe c) url → (∀ c, head url = Some c → 32 < c) →
  clean url = url.
Proof.
  intros Hs Hh. unfold clean. rewrite lstrip_id.
  - simpl. rewrite Forall_forall in Hs. unfold unsafe in Hs.
    rewrite !remove_id; [done|..].
    + intros Hin. apply (Hs 9); [done|set_solver].
    + rewrite remove_id; [|intros Hin; apply (Hs 9); [done|set_solver]].
      intros Hin. apply (Hs 13); [done|set_solver].
    + rewrite !remove_id.
      * intros Hin. apply (Hs 10); [done|set_solver].
      * intros Hin. apply (Hs 9); [done|set_solver].
      * rewrite remove_id; [|intros Hin; apply (Hs 9); [done|set_solver]].
        intros Hin. apply (Hs 13); [done|set_solver].
  - intros c Hc. apply Hh in Hc. unfold C0_CONTROL_OR_SPACE. by apply N.leb_gt.
Qed.


(** *** The scheme *)

(** A prefix that [urlsplit] takes for a scheme. *)
Definition is_scheme (pre : str) : Prop :=
  pre ≠ [] ∧ isascii_alpha (default 0 (head pre)) = true
  ∧ forallb scheme_char pre = true.

Lemma scheme_char_not c d :
  scheme_char d = false → forallb scheme_char c = true → d ∉ c.
Proof.
  intros Hd Hc Hin. rewrite forallb_forall in Hc.
  apply list_elem_of_In, Hc in Hin. congruence.
Qed.

Lemma head_app_ne {A} (l k : list A) : l ≠ [] → head (l ++ k) = head l.
Proof. by destruct l. Qed.

Lemma split_scheme_intro pre r :
  is_scheme pre → split_scheme (pre ++ chr ":" :: r) = (lower pre, r).
Proof.
  intros (Hne & Ha & Hc). unfold split_scheme.
  rewrite find_app by by apply scheme_char_not.
  destruct (length pre) as [|n] eqn:Hl; [by destruct pre|].
  cbv zeta. rewrite <-Hl, head_app_ne, take_app_length, Ha, Hc by done. simpl.
  f_equal. rewrite (cons_middle _ pre r), (assoc (++)).
  apply drop_app_length'. rewrite length_app. simpl. lia.
Qed.

Lemma split_scheme_spec url s r :
  split_scheme url = (s, r) →
  (s = [] ∧ r = url ∧ ∀ pre rest, url = pre ++ chr ":" :: rest → ¬ is_scheme pre)
  ∨ (∃ pre, url = pre ++ chr ":" :: r ∧ is_scheme pre ∧ s = lower pre).
Proof.
  unfold split_scheme.
  destruct (find (chr ":") url) as [i|] eqn:Hf.
  - pose proof (find_Some _ _ _ Hf) as [Heq Hn].
    destruct i as [|i'].
    + intros [= <- <-]. left. split_and!; [done..|].
      intros pre rest -> (Hne & _ & Hc).
      destruct pre as [|x pre]; [done|]. simpl in Heq.
      injection Heq as ->. by vm_compute in Hc.
    + destruct (_ && _) eqn:Hc.
      * intros [= <- <-]. right. exists (take (S i') url).
        apply andb_true_iff in Hc as [Ha Hc]. split_and!; [done| | |done..].
        -- destruct url; [done|]. done.
        -- by destruct url.
      * intros [= <- <-]. left. split_and!; [done..|].
        intros pre rest Hu (Hne & Ha & Hs).
        pose proof (find_app (chr ":") pre rest
                      (scheme_char_not pre (chr ":") eq_refl Hs)) as Hf'.
        rewrite <-Hu, Hf in Hf'. injection Hf' as Hl.
        rewrite Hu, Hl, take_app_length, head_app_ne, Ha, Hs in Hc by done.
        done.
  - intros [= <- <-]. left. split_and!; [done..|].
    intros pre rest -> _. apply find_None in Hf. set_solver.
Qed.

Lemma split_scheme_none url :
  (∀ pre rest, url = pre ++ chr ":" :: rest → ¬ is_scheme pre) →
  split_scheme url = ([], url).
Proof.
  intros Hno. destruct (split_scheme url) as [s r] eqn:Hs.
  apply split_scheme_spec in Hs as [(-> & -> & _)|(pre & Hu & Hp & _)]; [done|].
  by destruct (Hno _ _ Hu).
Qed.

Lemma lower_scheme_char c :
  scheme_char c = true → scheme_char (if is_upper c then c + 32 else c) = true.
Proof.
  intros Hc. destruct (is_upper c) eqn:Hu; [|done].
  unfold is_upper in Hu. apply andb_true_iff in Hu as [?%N.leb_le ?%N.leb_le].
  unfold scheme_char, is_lower.
  rewrite (proj2 (N.leb_le 97 (c + 32))), (proj2 (N.leb_le (c + 32) 122)) by lia.
  done.
Qed.

Lemma lower_not_upper c : is_upper (if is_upper c then c + 32 else c) = false.
Proof.
  destruct (is_upper c) eqn:Hu; [|done].
  unfold is_upper in *. apply andb_true_iff in Hu as [?%N.leb_le ?%N.leb_le].
  apply andb_false_iff. right. apply N.leb_gt. lia.
Qed.

Lemma lower_lower s : lower (lower s) = lower s.
Proof.
  unfold lower. rewrite <-list_fmap_compose. apply list_fmap_ext.
  intros _ c _. simpl. by rewrite lower_not_upper.
Qed.

Lemma is_scheme_lower pre : is_scheme pre → is_scheme (lower pre).
Proof.
  intros (Hne & Ha & Hc). destruct pre as [|x pre]; [done|].
  split_and!; [done| |].
  - simpl in *. unfold isascii_alpha in *.
    destruct (is_upper x) eqn:Hu; [|by rewrite ?Hu].
    unfold is_upper in Hu. apply andb_true_iff in Hu as [?%N.leb_le ?%N.leb_le].
    apply orb_true_iff. right. unfold is_lower.
    rewrite (proj2 (N.leb_le 97 (x + 32))), (proj2 (N.leb_le (x + 32) 122)) by lia.
    done.
  - unfold lower. rewrite forallb_forall in Hc. apply forallb_forall.
    intros c (c' & -> & Hc')%list_elem_of_In%list_elem_of_fmap.
    apply lower_scheme_char, Hc. by apply list_elem_of_In.
Qed.

(** The scheme of a parse is empty or a lower-case scheme. *)
Definition scheme_ok (s : str) : Prop := s = [] ∨ (is_scheme s ∧ lower s = s).

Lemma split_scheme_ok url s r : split_scheme url = (s, r) → scheme_ok s.
Proof.
  intros [(-> & _)|(pre & _ & Hp & ->)]%split_scheme_spec; [by left|].
  right. split; [by apply is_scheme_lower|apply lower_lower].
Qed.

Lemma scheme_char_spec c :
  scheme_char c = true →
  (97 ≤ c ≤ 122) ∨ (65 ≤ c ≤ 90) ∨ (48 ≤ c ≤ 57) ∨ c = 43 ∨ c = 45 ∨ c = 46.
Proof.
  unfold scheme_char, is_lower, is_upper, is_digit.
  rewrite !orb_true_iff, !andb_true_iff, !N.leb_le, bool_decide_eq_true.
  intros [[[?|?]|?]|Hin]; [lia..|].
  vm_compute in Hin. set_unfold. lia.
Qed.

Lemma is_scheme_safe s c : is_scheme s → c ∈ s → ¬ unsafe c ∧ 32 < c.
Proof.
  intros (_ & _ & Hc) Hin. rewrite forallb_forall in Hc.
  assert (Hsc : scheme_char c = true) by (apply Hc; by apply list_elem_of_In).
  apply scheme_char_spec in Hsc.
  split; [|lia]. unfold unsafe. vm_compute. set_unfold. lia.
Qed.

(** *** The network location *)

Definition delim (c : N) : Prop := c ∈ lit "/?#".

#[local] Instance delim_dec c : Decision (delim c).
Proof. unfold delim. apply _. Defined.

(** Index of the first of [/?#], the length when there is none. *)
Fixpoint first_delim (s : str) : nat :=
  match s with
  | [] => 0%nat
  | x :: s' => if decide (delim x) then 0%nat else S (first_delim s')
  end.

Definition omin (d : nat) (o : option nat) : nat :=
  match o with Some w => Nat.min d w | None => d end.

Lemma omin_add k d o : omin (k + d) ((fun i => (k + i)%nat) <$> o) = (k + omin d o)%nat.
Proof. destruct o; simpl; lia. Qed.

Lemma omin_0 o : omin 0 o = 0%nat.
Proof. by destruct o. Qed.

Lemma delim_spec c : delim c ↔ c = chr "/" ∨ c = chr "?" ∨ c = chr "#".
Proof.
  unfold delim. change (lit "/?#") with [chr "/"; chr "?"; chr "#"].
  set_solver.
Qed.

Lemma first_delim_eq s :
  omin (omin (omin (length s) (find (chr "/") s)) (find (chr "?") s))
    (find (chr "#") s)
  = first_delim s.
Proof.
  induction s as [|x s IH]; [done|]. simpl find. simpl first_delim.
  destruct (decide (delim x)) as [Hd|Hd].
  - apply delim_spec in Hd as [->|[->| ->]].
    + rewrite decide_True by done. simpl. by rewrite !omin_0.
    + rewrite (decide_True (P := chr "?" = chr "?")) by done.
      replace (omin _ (Some 0%nat)) with 0%nat by (simpl; lia).
      by rewrite omin_0.
    + rewrite (decide_True (P := chr "#" = chr "#")) by done. simpl. lia.
  - rewrite delim_spec in Hd.
    rewrite !decide_False by tauto.
    simpl length. rewrite <-IH.
    change (S (length s)) with (1 + length s)%nat.
    change S with (fun i => (1 + i)%nat). by rewrite !omin_add.
Qed.

Lemma find_from_app c p s :
  find_from c (length p) (p ++ s) = (fun i => (length p + i)%nat) <$> find c s.
Proof. unfold find_from. by rewrite drop_app_length. Qed.

Lemma splitnetloc_delim url start :
  _splitnetloc url start
  = let d := omin (omin (omin (length url) (find_from (chr "/") start url))
                     (find_from (chr "?") start url))
               (find_from (chr "#") start url) in
    (drop start (take d url), drop d url).
Proof. reflexivity. Qed.

Lemma splitnetloc_eq rest :
  _splitnetloc (lit "//" ++ rest) 2
  = (take (first_delim rest) rest, drop (first_delim rest) rest).
Proof.
  rewrite splitnetloc_delim. cbv zeta.
  rewrite !(find_from_app _ (lit "//") rest), length_app, !omin_add, first_delim_eq.
  change (length (lit "//")) with 2%nat.
  rewrite (take_app_add' (lit "//")), (drop_app_add' (lit "//")) by done.
  done.
Qed.

Lemma first_delim_spec s :
  Forall (fun c => ¬ delim c) (take (first_delim s) s)
  ∧ (drop (first_delim s) s = []
     ∨ ∃ c, head (drop (first_delim s) s) = Some c ∧ delim c).
Proof.
  induction s as [|x s [IH1 IH2]]; simpl.
  - split; [constructor|by left].
  - destruct (decide (delim x)); simpl.
    + split; [constructor|]. right. by exists x.
    + split; [by constructor|done].
Qed.

Lemma first_delim_app n r :
  Forall (fun c => ¬ delim c) n →
  (r = [] ∨ ∃ c, head r = Some c ∧ delim c) →
  first_delim (n ++ r) = length n.
Proof.
  intros Hn Hr. induction Hn as [|x n Hx _ IH]; simpl.
  - destruct Hr as [->|(c & Hc & Hd)]; [done|].
    destruct r as [|y r]; [done|]. simpl in *. simplify_eq.
    by rewrite decide_True.
  - by rewrite decide_False, IH.
Qed.

(** A string that comes after a network location. *)
Definition after_netloc (r : str) : Prop :=
  r = [] ∨ ∃ c, head r = Some c ∧ delim c.

Section with_hostlib.
Context `{!HostLib}.

Lemma split_netloc_spec r0 n r1 :
  split_netloc r0 = Ok (n, r1) →
  (take 2 r0 ≠ lit "//" ∧ n = [] ∧ r1 = r0)
  ∨ (r0 = lit "//" ++ n ++ r1 ∧ Forall (fun c => ¬ delim c) n
     ∧ after_netloc r1 ∧ check_brackets n = Ok ()).
Proof.
  unfold split_netloc. case_bool_decide as Ht.
  - assert (Hr : r0 = lit "//" ++ drop 2 r0) by by rewrite <-Ht, take_drop.
    rewrite Hr at 1. rewrite splitnetloc_eq.
    destruct (check_brackets _) as [[]|] eqn:Hc; [|done].
    intros [= <- <-]. right.
    destruct (first_delim_spec (drop 2 r0)) as [H1 H2].
    split_and!; [|done..]. by rewrite take_drop.
  - intros [= <- <-]. by left.
Qed.

Lemma split_netloc_intro n r1 :
  Forall (fun c => ¬ delim c) n → after_netloc r1 → check_brackets n = Ok () →
  split_netloc (lit "//" ++ n ++ r1) = Ok (n, r1).
Proof.
  intros Hn Hr Hc. unfold split_netloc.
  rewrite bool_decide_eq_true_2 by done.
  rewrite splitnetloc_eq, first_delim_app, take_app_length, drop_app_length by done.
  by rewrite Hc.
Qed.

Lemma split_netloc_none r0 :
  take 2 r0 ≠ lit "//" → split_netloc r0 = Ok ([], r0).
Proof. intros Hn. unfold split_netloc. by rewrite bool_decide_eq_false_2. Qed.

End with_hostlib.

(** *** Fragment and query *)

(** [c] and what follows it, when there is something. *)
Definition opt (c : N) (s : str) : str := if truthy s then c :: s else [].

Lemma split_by_spec c r1 r2 f :
  (if contains c r1 then split1 c r1 else (r1, [])) = (r2, f) →
  (c ∉ r2) ∧ (r1 = r2 ++ c :: f ∨ (r1 = r2 ∧ f = [])).
Proof.
  unfold contains. case_bool_decide as Hc.
  - unfold split1. destruct (find c r1) as [i|] eqn:Hf.
    + apply find_Some in Hf as [Heq Hn]. intros [= <- <-]. split; [done|by left].
    + apply find_None in Hf. done.
  - intros [= <- <-]. split; [done|by right].
Qed.

Lemma split_by_intro c r2 f :
  c ∉ r2 →
  (if contains c (r2 ++ opt c f) then split1 c (r2 ++ opt c f) else (r2 ++ opt c f, []))
  = (r2, f).
Proof.
  intros Hn. unfold opt. destruct f as [|x f]; simpl.
  - rewrite app_nil_r. unfold contains. by rewrite bool_decide_eq_false_2.
  - unfold contains. rewrite bool_decide_eq_true_2 by set_solver.
    by apply split1_app.
Qed.

Lemma split_fragment_spec r1 r2 f :
  split_fragment r1 = (r2, f) →
  (chr "#" ∉ r2) ∧ (r1 = r2 ++ chr "#" :: f ∨ (r1 = r2 ∧ f = [])).
Proof. apply split_by_spec. Qed.

Lemma split_query_spec r2 u q :
  split_query r2 = (u, q) →
  (chr "?" ∉ u) ∧ (r2 = u ++ chr "?" :: q ∨ (r2 = u ∧ q = [])).
Proof. apply split_by_spec. Qed.

Lemma split_fragment_intro r2 f :
  chr "#" ∉ r2 → split_fragment (r2 ++ opt (chr "#") f) = (r2, f).
Proof. apply split_by_intro. Qed.

Lemma split_query_intro u q :
  chr "?" ∉ u → split_query (u ++ opt (chr "?") q) = (u, q).
Proof. apply split_by_intro. Qed.

(** *** Parameters of the last path segment *)

(** [urlunparse] puts the parameters back. *)
Definition with_params (path params : str) : str :=
  if truthy params then path ++ chr ";" :: params else path.

Lemma urlunparse_eq p :
  urlunparse p
  = urlunsplit (scheme p) (netloc p) (with_params (path p) (params p))
      (query p) (fragment p).
Proof. reflexivity. Qed.

Lemma rfind_absent c s : c ∉ s → rfind c s = None.
Proof.
  induction s as [|x s IH]; [done|]. intros Hn. simpl.
  rewrite IH by set_solver. by rewrite decide_False by set_solver.
Qed.

Lemma rfind_app c h t : c ∉ t → rfind c (h ++ c :: t) = Some (length h).
Proof.
  intros Hn. induction h as [|x h IH]; simpl.
  - by rewrite rfind_absent, decide_True.
  - by rewrite IH.
Qed.

(** The last occurrence of a character. *)
Lemma last_occurrence (c : N) s : c ∈ s → ∃ h t, s = h ++ c :: t ∧ c ∉ t.
Proof.
  induction s as [|x s IH]; [by intros ?%elem_of_nil|].
  destruct (decide (c ∈ s)) as [Hin|Hn].
  - intros _. destruct (IH Hin) as (h & t & -> & Ht). by exists (x :: h), t.
  - intros [->|?]%elem_of_cons; [|done]. by exists [], s.
Qed.

(** With a [/] in the path, the parameters are cut from the last segment. *)
Lemma splitparams_rooted h t :
  chr "/" ∉ t →
  _splitparams (h ++ chr "/" :: t)
  = match find (chr ";") t with
    | Some i => (h ++ chr "/" :: take i t, drop (S i) t)
    | None => (h ++ chr "/" :: t, [])
    end.
Proof.
  intros Ht. unfold _splitparams, contains.
  rewrite bool_decide_eq_true_2 by set_solver.
  rewrite rfind_app by done. simpl default.
  rewrite find_from_app. simpl find.
  destruct (find (chr ";") t) as [i|]; [|done]. simpl.
  replace (S (length h + S i)) with (length h + S (S i))%nat by lia.
  rewrite take_app_add', drop_app_add' by done. done.
Qed.

Lemma splitparams_flat t i :
  chr "/" ∉ t → find (chr ";") t = Some i →
  _splitparams t = (take i t, drop (S i) t).
Proof.
  intros Ht Hf. unfold _splitparams, contains.
  by rewrite bool_decide_eq_false_2, Hf.
Qed.

Lemma not_elem_of_take {A} (c : A) i t : c ∉ t → c ∉ take i t.
Proof. intros Hn Hin. apply Hn. rewrite <-(take_drop i t). set_solver. Qed.

(** The path of a parse, with its parameters, is left alone by
    [_splitparams] and [urlunparse]; so is the path with a [/] before it. *)
Definition stable (u : str) : Prop :=
  chr ";" ∈ u → with_params (_splitparams u).1 (_splitparams u).2 = u.

Lemma with_params_split t i :
  find (chr ";") t = Some i →
  drop (S i) t ≠ [] →
  take i t ++ chr ";" :: drop (S i) t = t.
Proof. intros [Heq _]%find_Some _. by rewrite <-Heq. Qed.

Lemma stable_no_params u : chr ";" ∉ u → stable u ∧ stable (chr "/" :: u).
Proof. intros Hn. split; intros Hin; set_solver. Qed.

Lemma stable_rooted h t :
  chr "/" ∉ t →
  (∀ i, find (chr ";") t = Some i → drop (S i) t ≠ []) →
  stable (h ++ chr "/" :: t).
Proof.
  intros Ht Hi _. rewrite splitparams_rooted by done.
  destruct (find (chr ";") t) as [i|] eqn:Hf; simpl; [|done].
  unfold with_params. specialize (Hi i eq_refl).
  destruct (drop (S i) t) eqn:Hd; [done|]. simpl. rewrite <-Hd.
  rewrite <-(with_params_split t i) at 3 by (done || by rewrite Hd).
  by rewrite <-(assoc (++)).
Qed.

Lemma splitparams_stable u :
  chr ";" ∈ u →
  let B := with_params (_splitparams u).1 (_splitparams u).2 in
  stable B ∧ stable (chr "/" :: B) ∧ (B = u ∨ u = B ++ [chr ";"]).
Proof.
  intros Hu. destruct (decide (chr "/" ∈ u)) as [Hs|Hs].
  - apply last_occurrence in Hs as (h & t & -> & Ht).
    rewrite splitparams_rooted by done.
    destruct (find (chr ";") t) as [i|] eqn:Hf; simpl.
    + unfold with_params. destruct (drop (S i) t) as [|d ds] eqn:Hd; simpl.
      * pose proof (find_Some _ _ _ Hf) as [Heq Hn]. rewrite Hd in Heq.
        split_and!.
        -- apply stable_rooted; [by apply not_elem_of_take|].
           intros j Hj. by rewrite find_absent in Hj.
        -- apply (stable_rooted (chr "/" :: h)); [by apply not_elem_of_take|].
           intros j Hj. by rewrite find_absent in Hj.
        -- right. rewrite Heq at 1. by rewrite <-(assoc (++)).
      * assert (Heq : (h ++ chr "/" :: take i t) ++ chr ";" :: d :: ds
                      = h ++ chr "/" :: t).
        { rewrite <-Hd, <-(assoc (++)). simpl. do 2 f_equal.
          apply with_params_split; [done|by rewrite Hd]. }
        rewrite Heq. split_and!; [| |by left].
        -- apply stable_rooted; [done|]. intros j Hj. simplify_eq. congruence.
        -- apply (stable_rooted (chr "/" :: h)); [done|].
           intros j Hj. simplify_eq. congruence.
    + split_and!; [| |by left].
      * apply stable_rooted; [done|]. intros j Hj. by simplify_eq.
      * apply (stable_rooted (chr "/" :: h)); [done|]. intros j Hj. by simplify_eq.
  - destruct (find (chr ";") u) as [i|] eqn:Hf;
      [|by apply find_None in Hf].
    rewrite (splitparams_flat u i) by done. simpl.
    pose proof (find_Some _ _ _ Hf) as [Heq Hn].
    unfold with_params. destruct (drop (S i) u) as [|d ds] eqn:Hd; simpl.
    + split_and!; [by apply stable_no_params..|].
      right. by rewrite Heq at 1.
    + rewrite <-Heq. split_and!; [| |by left].
      * intros _. rewrite (splitparams_flat u i) by done. simpl.
        unfold with_params. rewrite Hd. simpl. by rewrite <-Heq.
      * apply (stable_rooted [] u); [done|]. intros j Hj. simplify_eq. congruence.
Qed.

(** *** What [urlsplit] returns *)

Section with_hostlib.
Context `{!HostLib}.

(** The components of a successful [urlsplit]: [s] the scheme, [n] the
    network location, [u] the path, [f] the fragment. *)
Record split_ok (s n u f : str) : Prop := {
  ok_scheme : scheme_ok s;
  ok_netloc : Forall (fun c => ¬ delim c) n;
  ok_brackets : check_brackets n = Ok ();
  ok_checknetloc : _checknetloc n = Ok ();
  ok_hash : chr "#" ∉ u;
  ok_question : chr "?" ∉ u;
  ok_noscheme :
    s = [] → n = [] →
    (∀ pre rest, u = pre ++ chr ":" :: rest → ¬ is_scheme pre)
    ∧ ∀ c, head u = Some c → 32 < c;
  ok_safe : Forall (fun c => ¬ unsafe c) (n ++ u ++ f);
}.

Lemma urlsplit_steps x s n u q f :
  urlsplit x = Ok (s, n, u, q, f) →
  ∃ r0 r1 r2,
    split_scheme (clean x) = (s, r0)
    ∧ split_netloc r0 = Ok (n, r1)
    ∧ split_fragment r1 = (r2, f)
    ∧ split_query r2 = (u, q)
    ∧ _checknetloc n = Ok ().
Proof.
  rewrite urlsplit_eq.
  destruct (split_scheme (clean x)) as [s0 r0] eqn:Hs.
  destruct (split_netloc r0) as [[n0 r1]|] eqn:Hn; simpl; [|done].
  destruct (split_fragment r1) as [r2 f0] eqn:Hf.
  destruct (split_query r2) as [u0 q0] eqn:Hq.
  destruct (_checknetloc n0) as [[]|] eqn:Hc; simpl; [|done].
  intros [= <- <- <- <- <-]. by exists r0, r1, r2.
Qed.

Lemma urlsplit_ok x s n u q f :
  urlsplit x = Ok (s, n, u, q, f) → split_ok s n u f.
Proof.
  intros (r0 & r1 & r2 & Hs & Hn & Hf & Hq & Hc)%urlsplit_steps.
  pose proof (clean_safe x) as Hsafe. pose proof (clean_head x) as Hhead.
  pose proof (split_scheme_ok _ _ _ Hs) as Hsok.
  apply split_scheme_spec in Hs. apply split_netloc_spec in Hn.
  apply split_fragment_spec in Hf as [Hf1 Hf]. apply split_query_spec in Hq as [Hq1 Hq].
  assert (Hr0 : Forall (fun c => ¬ unsafe c) r0).
  { destruct Hs as [(_ & -> & _)|(pre & Hu & _)]; [done|].
    rewrite Hu in Hsafe. apply Forall_app in Hsafe as [_ Hsafe].
    by apply Forall_cons in Hsafe as [_ ?]. }
  assert (Hnr : Forall (fun c => ¬ unsafe c) n ∧ Forall (fun c => ¬ unsafe c) r1).
  { destruct Hn as [(_ & -> & ->)|(Hr & _)]; [done|].
    rewrite Hr in Hr0. apply Forall_app in Hr0 as [_ Hr0].
    by apply Forall_app in Hr0. }
  destruct Hnr as [Hsn Hr1].
  assert (Hrf : Forall (fun c => ¬ unsafe c) r2 ∧ Forall (fun c => ¬ unsafe c) f).
  { destruct Hf as [Hr|[-> ->]]; [|done].
    rewrite Hr in Hr1. apply Forall_app in Hr1 as [? Hr1].
    by apply Forall_cons in Hr1 as [_ ?]. }
  destruct Hrf as [Hr2 Hsf].
  assert (Hsu : Forall (fun c => ¬ unsafe c) u).
  { destruct Hq as [Hr|[-> ->]]; [|done].
    rewrite Hr in Hr2. by apply Forall_app in Hr2 as [? _]. }
  assert (Hpre : ∃ k, r1 = u ++ k).
  { destruct Hq as [->|[-> _]], Hf as [->|[-> _]].
    - eexists. by rewrite <-(assoc (++)).
    - by eexists.
    - by eexists.
    - exists []. by rewrite app_nil_r. }
  destruct Hpre as [k Hk].
  assert (Hu2 : chr "#" ∉ u).
  { destruct Hq as [->|[-> _]]; [|done]. set_solver. }
  split; [done| | |done|done|done| |].
  - by destruct Hn as [(_ & -> & _)|(_ & ? & _)].
  - by destruct Hn as [(_ & -> & _)|(_ & _ & _ & ?)].
  - intros -> ->.
    destruct Hs as [(_ & -> & Hno)|(pre & _ & (Hne & _) & Hl)];
      [|by destruct pre].
    destruct Hn as [(_ & _ & ->)|(_ & _ & Ha & _)].
    + split.
      * intros pre rest Hu. eapply (Hno pre). by rewrite Hk, Hu, <-(assoc (++)).
      * intros c Hhc. apply Hhead. rewrite Hk. by destruct u.
    + destruct u as [|c u]; [split; [intros pre rest Hu; by destruct pre|done]|].
      assert (c = chr "/") as ->.
      { destruct Ha as [Ha|(c' & Hc' & Hd)]; [by rewrite Hk in Ha|].
        rewrite Hk in Hc'. simpl in Hc'. simplify_eq.
        apply delim_spec in Hd as [?|[?|?]]; set_solver. }
      split.
      * intros [|z pre] rest Hu (Hne & Ha' & _); [done|].
        simpl in Hu. by simplify_eq.
      * by intros ? [= <-].
  - by rewrite !Forall_app.
Qed.

(** A prefix of the path is a path as well. *)
Lemma split_ok_prefix s n u f B :
  B `prefix_of` u → split_ok s n u f → split_ok s n B f.
Proof.
  intros [k ->] [H1 H2 H3 H4 H5 H6 H7 H8]. split; [done..| | | |].
  - set_solver.
  - set_solver.
  - intros Hs0 Hn0. destruct (H7 Hs0 Hn0) as [Ha Hb]. split.
    + intros pre rest ->. eapply (Ha pre). by rewrite <-(assoc (++)).
    + intros c Hc. apply Hb. by destruct B.
  - rewrite !Forall_app in *. tauto.
Qed.

(** [urlparse] is [urlsplit] and a cut of the parameters. *)
Lemma urlparse_spec x p :
  urlparse x = Ok p →
  ∃ u : list N, urlsplit x = Ok (scheme p, netloc p, u, query p, fragment p)
       ∧ (path p, params p)
         = if bool_decide (scheme p ∈ uses_params) && contains (chr ";") u
           then _splitparams u else (u, []).
Proof.
  unfold urlparse.
  destruct (urlsplit x) as [[[[[s n] u] q] f]|]; simpl; [|done].
  match goal with |- context [if ?c then ?a else ?b] =>
    destruct (if c then a else b) as [u' pa] eqn:Hp end.
  intros [= <-]. by exists u.
Qed.

Lemma urlparse_intro x s n u q f :
  urlsplit x = Ok (s, n, u, q, f) →
  urlparse x
  = Ok (let '(path, params) :=
          if bool_decide (s ∈ uses_params) && contains (chr ";") u
          then _splitparams u else (u, []) in
        mkParseResult s n path params q f).
Proof.
  intros Hs. unfold urlparse. rewrite Hs. simpl.
  match goal with |- context [if ?c then ?a else ?b] =>
    by destruct (if c then a else b) end.
Qed.

(** The components of a successful [urlparse]. *)
Lemma urlparse_ok x p :
  urlparse x = Ok p →
  let B := with_params (path p) (params p) in
  split_ok (scheme p) (netloc p) B (fragment p)
  ∧ (scheme p ∈ uses_params → stable B ∧ stable (chr "/" :: B)).
Proof.
  intros (u & Hs%urlsplit_ok & Hp)%urlparse_spec.
  destruct (bool_decide _ && contains _ u) eqn:Hc.
  - apply andb_true_iff in Hc as [_ Hc]. apply bool_decide_eq_true in Hc.
    destruct (splitparams_stable u Hc) as (H1 & H2 & H3).
    rewrite <-Hp in H1, H2, H3. simpl in *. split; [|done].
    eapply split_ok_prefix; [|done].
    destruct H3 as [-> | ->]; [done|by eexists].
  - injection Hp as -> ->. simpl. unfold with_params. simpl.
    split; [done|]. intros Hin. apply stable_no_params.
    apply andb_false_iff in Hc as [Hc|Hc].
    + by apply bool_decide_eq_false in Hc.
    + by apply bool_decide_eq_false in Hc.
Qed.

End with_hostlib.

(** *** What [urlunsplit] writes *)

(** The test of [urlunsplit] for writing [//] and the network location. *)
Definition prefixed (s n B : str) : bool :=
  truthy n
  || (truthy s && bool_decide (s ∈ uses_netloc)
      && negb (bool_decide (take 2 B = lit "//"))).

(** The path after a network location: it starts with [/] or is empty. *)
Definition rooted (B : str) : str :=
  if truthy B && negb (bool_decide (take 1 B = lit "/")) then chr "/" :: B else B.

(** The path that is read back. *)
Definition reread (s n B : str) : str := if prefixed s n B then rooted B else B.

(** Query and fragment, as written. *)
Definition tail (q f : str) : str := opt (chr "?") q ++ opt (chr "#") f.

Lemma urlunsplit_eq s n B q f :
  urlunsplit s n B q f
  = let W := (if prefixed s n B then lit "//" ++ n ++ rooted B else B) ++ tail q f in
    if truthy s then s ++ chr ":" :: W else W.
Proof.
  unfold urlunsplit, tail, opt. fold (prefixed s n B). fold (rooted B).
  destruct (truthy s), (truthy q), (truthy f); cbv zeta; simpl;
    rewrite ?app_nil_r, <-?(assoc (++)); try done.
Qed.

Lemma rooted_head B : rooted B = [] ∨ head (rooted B) = Some (chr "/").
Proof.
  unfold rooted. destruct B as [|c B]; [by left|]. simpl.
  case_bool_decide as Hc; simpl; [|by right].
  right. vm_compute in Hc. by simplify_eq.
Qed.

Lemma rooted_elem c B : c ∈ rooted B → c = chr "/" ∨ c ∈ B.
Proof. unfold rooted. destruct (_ && _); set_solver. Qed.

Lemma rooted_rooted B : rooted (rooted B) = rooted B.
Proof.
  destruct (rooted_head B) as [->|Hh]; [done|].
  unfold rooted at 1. destruct (rooted B) as [|c B']; [done|].
  simpl in Hh. simplify_eq. done.
Qed.

Lemma rooted_not_double B : take 2 B ≠ lit "//" → take 2 (rooted B) ≠ lit "//".
Proof.
  unfold rooted. destruct B as [|c B]; [done|]. simpl.
  case_bool_decide as Hc; simpl; [done|].
  intros _ [= ->]. by apply Hc.
Qed.

Lemma tail_head q f c : head (tail q f) = Some c → c = chr "?" ∨ c = chr "#".
Proof.
  unfold tail, opt. destruct q, f; simpl; intros; simplify_eq; auto.
Qed.

Lemma query_char_spec c :
  query_char c → 32 < c ∧ c ≠ chr "#" ∧ c ≠ chr "?" ∧ ¬ unsafe c.
Proof.
  assert (Hu : ∀ d, 32 < d → ¬ unsafe d).
  { intros d Hd. unfold unsafe. vm_compute. set_unfold. lia. }
  intros [[Hs%ALWAYS_SAFE_spec|[->| ->]]|[->| ->]].
  - change (chr "#") with 35. change (chr "?") with 63.
    split_and!; [lia..|apply Hu; lia].
  - split_and!; [done..|by apply Hu].
  - split_and!; [done..|by apply Hu].
  - split_and!; [done..|by apply Hu].
  - split_and!; [done..|by apply Hu].
Qed.

Lemma opt_elem c d s : c ∈ opt d s → c = d ∨ c ∈ s.
Proof. unfold opt. destruct s; set_solver. Qed.

Lemma take2_app B T :
  take 2 B ≠ lit "//" → (∀ c, head T = Some c → c ≠ chr "/") →
  take 2 (B ++ T) ≠ lit "//".
Proof.
  intros HB HT. destruct B as [|a [|b B]]; simpl in *; [| |done].
  - destruct T as [|c [|d T]]; simpl; [done| |].
    + by intros [= ->].
    + intros [= -> _]. by eapply HT.
  - destruct T as [|c T]; simpl; [done|].
    intros [= -> ->]. by eapply HT.
Qed.

(** *** Reading back what [urlunsplit] wrote *)

(** What is written after the scheme. *)
Definition written (s n B q f : str) : str :=
  (if prefixed s n B then lit "//" ++ n ++ rooted B else B) ++ tail q f.

Lemma is_scheme_truthy s : is_scheme s → truthy s = true.
Proof. intros [Hne _]. by destruct s. Qed.

Section with_hostlib.
Context `{!HostLib}.

Section reparse.
Variables s n B q f : str.
Hypothesis Hok : split_ok s n B f.
Hypothesis Hq : Forall query_char q.

#[local] Abbreviation W := (written s n B q f).

Lemma not_prefixed_netloc : prefixed s n B = false → n = [].
Proof. unfold prefixed. by destruct n. Qed.

Lemma prefixed_no_scheme : s = [] → prefixed s n B = true → n ≠ [].
Proof. intros -> Hp ->. done. Qed.

Lemma written_safe : Forall (fun c => ¬ unsafe c) W.
Proof.
  assert (Hd : ∀ c, 32 < c → ¬ unsafe c).
  { intros c Hc. unfold unsafe. vm_compute. set_unfold. lia. }
  destruct Hok as [_ _ _ _ _ _ _ Hs]. rewrite !Forall_app in Hs.
  destruct Hs as (Hn & HB & Hf). rewrite Forall_forall in Hn, HB, Hf.
  assert (HR : ∀ c, c ∈ rooted B → ¬ unsafe c).
  { intros c [->|?]%rooted_elem; [by apply Hd|by apply HB]. }
  apply Forall_forall. intros c. unfold written, tail. rewrite !elem_of_app.
  intros [Hc|[Hc|Hc]].
  - revert Hc. destruct (prefixed s n B); intros Hc; [|by apply HB].
    rewrite !elem_of_app in Hc. destruct Hc as [Hc|[Hc|Hc]]; [|by apply Hn|by apply HR].
    apply Hd. change (lit "//") with [47; 47] in Hc. set_unfold. lia.
  - apply opt_elem in Hc as [->|Hc]; [by apply Hd|].
    rewrite Forall_forall in Hq. by apply query_char_spec, Hq.
  - apply opt_elem in Hc as [->|Hc]; [by apply Hd|by apply Hf].
Qed.

Lemma written_head c : s = [] → head W = Some c → 32 < c.
Proof.
  intros Hs. unfold written. destruct (prefixed s n B) eqn:Hp.
  - by intros [= <-].
  - apply not_prefixed_netloc in Hp.
    destruct (ok_noscheme _ _ _ _ Hok Hs Hp) as [_ Hh].
    destruct B as [|b B']; [|by apply Hh].
    by intros [->| ->]%tail_head.
Qed.

Lemma written_no_scheme pre rest :
  s = [] → W = pre ++ chr ":" :: rest → ¬ is_scheme pre.
Proof.
  intros Hs HW (Hne & Ha & Hc). unfold written in HW.
  destruct (prefixed s n B) eqn:Hp.
  - destruct pre as [|x pre]; [done|]. simpl in HW.
    injection HW as <- _. by vm_compute in Ha.
  - apply not_prefixed_netloc in Hp.
    destruct (ok_noscheme _ _ _ _ Hok Hs Hp) as [Hno _].
    assert (Ht : ∀ c t, tail q f = c :: t → (c ∉ pre) ∧ c ≠ chr ":").
    { intros c t Ht.
      assert (Hc' : head (tail q f) = Some c) by by rewrite Ht.
      apply tail_head in Hc' as [-> | ->];
        (split; [by apply scheme_char_not|done]). }
    apply app_eq_inv in HW as [(k & HB & Hk)|(k & Hpre & Hk)].
    + destruct k as [|c k].
      * simpl in Hk. symmetry in Hk. by destruct (Ht _ _ Hk).
      * injection Hk as <- _. apply (Hno pre k); [done|]. by split_and!.
    + destruct k as [|c k].
      * simpl in Hk. by destruct (Ht _ _ Hk).
      * destruct (Ht _ _ Hk) as [Hn _]. apply Hn. rewrite Hpre. set_solver.
Qed.

Lemma reparse_clean : clean (urlunsplit s n B q f) = urlunsplit s n B q f.
Proof.
  rewrite urlunsplit_eq. fold (written s n B q f). cbv zeta.
  pose proof written_safe as HW.
  destruct (ok_scheme _ _ _ _ Hok) as [Hs|[Hs _]].
  - replace (truthy s) with false by by rewrite Hs.
    apply clean_id; [done|]. intros c. by apply written_head.
  - rewrite (is_scheme_truthy _ Hs). apply clean_id.
    + apply Forall_app. split; [|constructor; [|done]].
      * apply Forall_forall. intros c Hc. by eapply is_scheme_safe.
      * unfold unsafe. vm_compute. set_unfold. lia.
    + intros c Hc. eapply (is_scheme_safe s); [done|].
      destruct Hs as [Hne _]. revert Hc Hne. clear. destruct s; [done|].
      intros [= <-] _. set_solver.
Qed.

Lemma reparse_scheme : split_scheme (urlunsplit s n B q f) = (s, W).
Proof.
  rewrite urlunsplit_eq. fold (written s n B q f). cbv zeta.
  destruct (ok_scheme _ _ _ _ Hok) as [Hs|[Hs Hl]].
  - replace (truthy s) with false by by rewrite Hs.
    transitivity ([] : list N, W); [|by rewrite Hs].
    apply split_scheme_none. intros pre rest. by apply written_no_scheme.
  - by rewrite (is_scheme_truthy _ Hs), split_scheme_intro, Hl.
Qed.

Lemma reread_elem c : c ∈ reread s n B → c = chr "/" ∨ c ∈ B.
Proof.
  unfold reread. destruct (prefixed s n B); [apply rooted_elem|by right].
Qed.

Hypothesis Hcond : n ≠ [] ∨ take 2 B ≠ lit "//".

Lemma reparse_netloc : split_netloc W = Ok (n, reread s n B ++ tail q f).
Proof.
  unfold written, reread. destruct (prefixed s n B) eqn:Hp.
  - rewrite <-!(assoc (++)). apply split_netloc_intro.
    + apply Hok.
    + destruct (rooted_head B) as [->|Hh].
      * simpl. destruct (tail q f) as [|c t] eqn:Ht; [by left|].
        right. exists c. split; [done|]. apply delim_spec.
        assert (Hc : head (tail q f) = Some c) by by rewrite Ht.
        apply tail_head in Hc. tauto.
      * right. exists (chr "/"). split; [by destruct (rooted B)|].
        apply delim_spec. by left.
    + apply Hok.
  - pose proof (not_prefixed_netloc Hp) as ->.
    apply split_netloc_none, take2_app.
    + by destruct Hcond.
    + by intros c [-> | ->]%tail_head.
Qed.

Lemma reparse_fragment :
  split_fragment (reread s n B ++ tail q f)
  = (reread s n B ++ opt (chr "?") q, f).
Proof.
  unfold tail. rewrite (assoc (++)). apply split_fragment_intro.
  rewrite elem_of_app. intros [[?|Hc]%reread_elem|[?|Hc]%opt_elem]; [done| |done|].
  - by apply (ok_hash _ _ _ _ Hok).
  - rewrite Forall_forall in Hq. apply Hq, query_char_spec in Hc. naive_solver.
Qed.

Lemma reparse_query :
  split_query (reread s n B ++ opt (chr "?") q) = (reread s n B, q).
Proof.
  apply split_query_intro. intros [?|Hc]%reread_elem; [done|].
  by apply (ok_question _ _ _ _ Hok).
Qed.

(** [urlsplit] reads back the five components, the path possibly with a
    [/] before it. *)
Lemma reparse :
  urlsplit (urlunsplit s n B q f) = Ok (s, n, reread s n B, q, f).
Proof.
  rewrite urlsplit_eq, reparse_clean, reparse_scheme.
  rewrite reparse_netloc. simpl.
  rewrite reparse_fragment, reparse_query.
  by rewrite (ok_checknetloc _ _ _ _ Hok).
Qed.

(** Writing the components read back gives the same address. *)
Lemma rewrite_reread :
  urlunsplit s n (reread s n B) q f = urlunsplit s n B q f.
Proof.
  rewrite !urlunsplit_eq. cbv zeta. unfold reread.
  destruct (prefixed s n B) eqn:Hp; [|by rewrite Hp].
  assert (Hp' : prefixed s n (rooted B) = true).
  { unfold prefixed in *. destruct (truthy n); [done|]. simpl in *.
    apply andb_true_iff in Hp as [-> Hp]. simpl.
    apply negb_true_iff, bool_decide_eq_false in Hp.
    apply negb_true_iff, bool_decide_eq_false. by apply rooted_not_double. }
  by rewrite Hp', rooted_rooted.
Qed.

End reparse.
End with_hostlib.

(** ** [normalize_url] *)

(** The test of the list comprehension: the key is not a noise key. *)
Definition keep (kv : str * str) : bool := negb (bool_decide (kv.1 ∈ NOISE)).

Lemma filter_filter_same {A} (f : A → bool) l :
  List.filter f (List.filter f l) = List.filter f l.
Proof.
  induction l as [|x l IH]; [done|]. simpl.
  destruct (f x) eqn:Hx; [|done]. simpl. by rewrite Hx, IH.
Qed.

Lemma with_params_take2 P pa :
  take 2 P ≠ lit "//" → take 2 (with_params P pa) ≠ lit "//".
Proof.
  unfold with_params. destruct (truthy pa); [|done].
  intros HP. apply take2_app; [done|]. by intros c [= <-].
Qed.

Lemma rooted_cases B : rooted B = B ∨ rooted B = chr "/" :: B.
Proof. unfold rooted. destruct (_ && _); auto. Qed.

Section with_hostlib.
Context `{!HostLib}.

Lemma normalize_url_spec x y :
  normalize_url x = Ok y ↔
  ∃ p q', urlparse x = Ok p
          ∧ urlencode (List.filter keep (parse_qsl (query p))) = Ok q'
          ∧ y = urlunparse (replace_query p q').
Proof.
  unfold normalize_url. fold keep.
  destruct (urlparse x) as [p|e]; simpl.
  - destruct (urlencode _) as [q'|e] eqn:Hq; simpl.
    + split; [intros [= <-]; by exists p, q'|].
      intros (p' & q'' & [= <-] & Hq' & ->). congruence.
    + split; [done|]. intros (p' & q'' & [= <-] & Hq' & _). congruence.
  - split; [done|]. by intros (p' & q'' & ? & _).
Qed.

(** Parsing an address that [urlunsplit] wrote. *)
Lemma urlparse_written s n B q f :
  split_ok s n B f → Forall query_char q →
  (n ≠ [] ∨ take 2 B ≠ lit "//") →
  (s ∈ uses_params → stable B ∧ stable (chr "/" :: B)) →
  ∃ p, urlparse (urlunsplit s n B q f) = Ok p
       ∧ query p = q
       ∧ urlunparse p = urlunsplit s n B q f.
Proof.
  intros Hok Hq Hcond Hst.
  pose proof (reparse s n B q f Hok Hq Hcond) as Hre.
  rewrite (urlparse_intro _ _ _ _ _ _ Hre).
  eexists. split; [done|].
  match goal with |- context [if ?c then ?a else ?b] =>
    destruct (if c then a else b) as [P' pa'] eqn:Hp end.
  simpl. split; [done|].
  rewrite urlunparse_eq. simpl.
  rewrite <-(rewrite_reread s n B q f). f_equal.
  destruct (bool_decide _ && _) eqn:Hc in Hp.
  - apply andb_true_iff in Hc as [Hs%bool_decide_eq_true Hc%bool_decide_eq_true].
    destruct (Hst Hs) as [H1 H2].
    assert (Hstable : stable (reread s n B)).
    { unfold reread. destruct (prefixed s n B); [|done].
      by destruct (rooted_cases B) as [-> | ->]. }
    specialize (Hstable Hc). by rewrite Hp in Hstable.
  - by injection Hp as <- <-.
Qed.

(** Normalizing a normalized address gives the same address, when the
    address parsed has a network location or a path that does not start
    with two slashes. *)
Lemma normalize_stable x y p :
  normalize_url x = Ok y → urlparse x = Ok p →
  netloc p ≠ [] ∨ take 2 (path p) ≠ lit "//" →
  normalize_url y = Ok y.
Proof.
  intros (p' & q' & Hp' & Hq' & ->)%normalize_url_spec Hp Hcond.
  assert (p' = p) as -> by congruence.
  destruct (urlparse_ok _ _ Hp) as [Hok Hst].
  rewrite urlunparse_eq. simpl.
  destruct (urlparse_written (scheme p) (netloc p)
              (with_params (path p) (params p)) q' (fragment p))
    as (p2 & Hp2 & Hq2 & Hu2); [done|by eapply urlencode_chars| |done|].
  { destruct Hcond as [?|?]; [by left|right; by apply with_params_take2]. }
  apply normalize_url_spec. exists p2, q'. split_and!; [done| |].
  - rewrite Hq2, (parse_qsl_urlencode _ _ Hq'), filter_filter_same. done.
  - rewrite <-Hu2. f_equal. destruct p2. simpl in *. by subst.
Qed.

End with_hostlib.

(** *** The exceptions of [normalize_url] *)

Lemma traverse_Raise {A B} (f : A → result B) xs e :
  traverse f xs = Raise e → ∃ x, x ∈ xs ∧ f x = Raise e.
Proof.
  induction xs as [|x xs IH]; simpl; [done|].
  destruct (f x) as [y|e'] eqn:Hx; simpl.
  - destruct (traverse f xs) as [ys|e'] eqn:Hxs; simpl; [done|].
    intros [= ->]. destruct (IH eq_refl) as (x' & Hin & Hx').
    exists x'. split; [by right|done].
  - intros [= ->]. exists x. split; [by left|done].
Qed.

Lemma encode_char_Raise c e : Utf8.encode_char c = Raise e → e = UnicodeEncodeError.
Proof. unfold Utf8.encode_char. repeat case_match; congruence. Qed.

Lemma encode_Raise s e : Utf8.encode s = Raise e → e = UnicodeEncodeError.
Proof.
  unfold Utf8.encode.
  destruct (traverse Utf8.encode_char s) as [bs|e'] eqn:Ht; simpl; [done|].
  intros [= ->]. apply traverse_Raise in Ht as (c & _ & Hc).
  by eapply encode_char_Raise.
Qed.

Lemma quote_Raise s safe e : quote s safe = Raise e → e = UnicodeEncodeError.
Proof.
  unfold quote. destruct (negb (truthy s)); [done|].
  destruct (Utf8.encode s) as [bs|e'] eqn:He; simpl; [done|].
  intros [= ->]. by eapply encode_Raise.
Qed.

Lemma quote_plus_Raise s e : quote_plus s = Raise e → e = UnicodeEncodeError.
Proof.
  unfold quote_plus. destruct (negb _); [apply quote_Raise|].
  destruct (quote s _) as [r|e'] eqn:Hq; simpl; [done|].
  intros [= ->]. by eapply quote_Raise.
Qed.

Lemma urlencode_Raise l e : urlencode l = Raise e → e = UnicodeEncodeError.
Proof.
  unfold urlencode. fold piece.
  destruct (traverse piece l) as [pcs|e'] eqn:Ht; simpl; [done|].
  intros [= ->]. apply traverse_Raise in Ht as (kv & _ & Hkv).
  unfold piece in Hkv.
  destruct (quote_plus kv.1) as [k|e'] eqn:Hk; simpl in Hkv.
  - destruct (quote_plus kv.2) as [v|e'] eqn:Hv; simpl in Hkv; [done|].
    injection Hkv as ->. by eapply quote_plus_Raise.
  - injection Hkv as ->. by eapply quote_plus_Raise.
Qed.

Section with_hostlib.
Context `{!HostLib}.

Lemma check_bracketed_host_Raise h e :
  _check_bracketed_host h = Raise e → e = ValueError.
Proof. unfold _check_bracketed_host. repeat case_match; congruence. Qed.

Lemma check_bracketed_netloc_Raise n e :
  _check_bracketed_netloc n = Raise e → e = ValueError.
Proof.
  unfold _check_bracketed_netloc.
  repeat case_match; try congruence; apply check_bracketed_host_Raise.
Qed.

Lemma check_brackets_Raise n e : check_brackets n = Raise e → e = ValueError.
Proof.
  unfold check_brackets.
  repeat case_match; try congruence; apply check_bracketed_netloc_Raise.
Qed.

Lemma checknetloc_Raise n e : _checknetloc n = Raise e → e = ValueError.
Proof. unfold _checknetloc. repeat case_match; congruence. Qed.

Lemma split_netloc_Raise r0 e : split_netloc r0 = Raise e → e = ValueError.
Proof.
  unfold split_netloc. case_bool_decide; [|done].
  destruct (_splitnetloc r0 2) as [n r1].
  destruct (check_brackets n) as [[]|e'] eqn:Hc; [done|].
  intros [= ->]. by eapply check_brackets_Raise.
Qed.

Lemma urlsplit_Raise x e : urlsplit x = Raise e → e = ValueError.
Proof.
  rewrite urlsplit_eq.
  destruct (split_scheme (clean x)) as [s r0].
  destruct (split_netloc r0) as [[n r1]|e'] eqn:Hn; simpl.
  - destruct (split_fragment r1) as [r2 f], (split_query r2) as [u q].
    destruct (_checknetloc n) as [[]|e'] eqn:Hc; simpl; [done|].
    intros [= ->]. by eapply checknetloc_Raise.
  - intros [= ->]. by eapply split_netloc_Raise.
Qed.

Lemma urlparse_Raise x e : urlparse x = Raise e → e = ValueError.
Proof.
  unfold urlparse.
  destruct (urlsplit x) as [[[[[s n] u] q] f]|e'] eqn:Hs; simpl.
  - match goal with |- context [if ?c then ?a else ?b] =>
      by destruct (if c then a else b) end.
  - intros [= ->]. by eapply urlsplit_Raise.
Qed.

(** [normalize_url] raises when [urlparse] does, or when a key or a value
    that is kept cannot be encoded. *)
Lemma normalize_url_Raise x e :
  normalize_url x = Raise e →
  (e = ValueError ∧ urlparse x = Raise ValueError)
  ∨ (e = UnicodeEncodeError
     ∧ ∃ p, urlparse x = Ok p
            ∧ urlencode (List.filter keep (parse_qsl (query p)))
              = Raise UnicodeEncodeError).
Proof.
  unfold normalize_url. fold keep.
  destruct (urlparse x) as [p|e'] eqn:Hp; simpl.
  - destruct (urlencode _) as [q'|e'] eqn:Hq; simpl; [done|].
    intros [= ->]. pose proof (urlencode_Raise _ _ Hq) as ->.
    right. split; [done|]. by exists p.
  - intros [= ->]. pose proof (urlparse_Raise _ _ Hp) as ->. by left.
Qed.

(** Addresses with the same components apart from the query, and the same
    pairs under keys that are not noise, have the same normal form. *)
Lemma normalize_url_same x1 x2 p1 p2 :
  urlparse x1 = Ok p1 → urlparse x2 = Ok p2 →
  replace_query p1 [] = replace_query p2 [] →
  List.filter keep (parse_qsl (query p1)) = List.filter keep (parse_qsl (query p2)) →
  normalize_url x1 = normalize_url x2.
Proof.
  intros H1 H2 Hc Hq. unfold normalize_url. fold keep.
  rewrite H1, H2. simpl. rewrite Hq.
  destruct (urlencode _) as [q'|e]; simpl; [|done].
  do 2 f_equal. destruct p1, p2. unfold replace_query in *. simpl in *.
  by simplify_eq.
Qed.

(** The pairs of the query that [normalize_url] writes are the pairs of the
    query read whose key is not noise, in their order. *)
Lemma normalize_url_query x y :
  normalize_url x = Ok y →
  ∃ p q', urlparse x = Ok p
          ∧ y = urlunparse (replace_query p q')
          ∧ parse_qsl q' = List.filter keep (parse_qsl (query p))
          ∧ Forall (fun kv : str * str => kv.1 ∉ NOISE) (parse_qsl q').
Proof.
  intros (p & q' & Hp & Hq & ->)%normalize_url_spec.
  exists p, q'. split_and!; [done..|by apply parse_qsl_urlencode|].
  rewrite (parse_qsl_urlencode _ _ Hq). apply Forall_forall.
  intros kv [_ Hk]%list_elem_of_In%filter_In.
  unfold keep in Hk. by apply negb_true_iff, bool_decide_eq_false in Hk.
Qed.

End with_hostlib.

(** *** Addresses that differ in a noise parameter *)

Lemma split_app_sep c a b : split c (a ++ c :: b) = split c a ++ split c b.
Proof.
  induction a as [|x a IH]; simpl.
  - by rewrite decide_True.
  - destruct (decide (x = c)); [by rewrite IH|].
    rewrite IH. pose proof (split_nonempty c a).
    by destruct (split c a).
Qed.

(** The body of the loop of [parse_qsl]. *)
Definition parse_pair (name_value : str) : list (str * str) :=
  if negb (truthy name_value) then []
  else
    let nv := split1 (chr "=") name_value in
    [(unquote (replace (chr "+") (chr " ") nv.1),
      unquote (replace (chr "+") (chr " ") nv.2))].

Lemma parse_qsl_eq qs : parse_qsl qs = flat_map parse_pair (split (chr "&") qs).
Proof. unfold parse_qsl. by destruct qs. Qed.

Lemma parse_qsl_app q r :
  parse_qsl (q ++ chr "&" :: r) = parse_qsl q ++ parse_qsl r.
Proof. by rewrite !parse_qsl_eq, split_app_sep, flat_map_app. Qed.

(** A parameter under a noise key, as it is written in a query. *)
Lemma parse_qsl_noise k v :
  k ∈ NOISE → chr "&" ∉ v →
  List.filter keep (parse_qsl (k ++ chr "=" :: v)) = [].
Proof.
  intros Hk Hv. rewrite parse_qsl_eq.
  assert (Hk' : (chr "&" ∉ k) ∧ (chr "=" ∉ k) ∧ truthy k = true
                ∧ unquote (replace (chr "+") (chr " ") k) = k).
  { unfold NOISE in Hk. apply elem_of_cons in Hk as [->|Hk].
    - split_and!; [vm_compute; set_solver..|done|done].
    - apply list_elem_of_singleton in Hk as ->.
      split_and!; [vm_compute; set_solver..|done|done]. }
  destruct Hk' as (H1 & H2 & H3 & H4).
  rewrite split_absent by set_solver. simpl. rewrite app_nil_r.
  unfold parse_pair. replace (truthy (k ++ chr "=" :: v)) with true by by destruct k.
  simpl. rewrite split1_app by done. simpl. rewrite H4.
  unfold keep. simpl. by rewrite bool_decide_eq_true_2.
Qed.

Lemma filter_keep_noise q k v :
  k ∈ NOISE → chr "&" ∉ v →
  List.filter keep (parse_qsl (q ++ chr "&" :: k ++ chr "=" :: v))
  = List.filter keep (parse_qsl q).
Proof.
  intros Hk Hv.
  by rewrite parse_qsl_app, List.filter_app, parse_qsl_noise, app_nil_r.
Qed.

Lemma noise_chars k : k ∈ NOISE → Forall query_char k.
Proof.
  unfold NOISE. intros [->|Hk]%elem_of_cons.
  - repeat constructor; left; by left.
  - apply list_elem_of_singleton in Hk as ->.
    repeat constructor; left; by left.
Qed.

Section with_hostlib.
Context `{!HostLib}.

(** The parse of an address that [urlunsplit] wrote. *)
Definition parsed_written (s n B q f : str) : ParseResult :=
  let '(path, params) :=
    if bool_decide (s ∈ uses_params) && contains (chr ";") (reread s n B)
    then _splitparams (reread s n B) else (reread s n B, []) in
  mkParseResult s n path params q f.

Lemma urlparse_written_eq s n B q f :
  split_ok s n B f → Forall query_char q →
  (n ≠ [] ∨ take 2 B ≠ lit "//") →
  urlparse (urlunsplit s n B q f) = Ok (parsed_written s n B q f).
Proof.
  intros Hok Hq Hcond.
  by rewrite (urlparse_intro _ _ _ _ _ _ (reparse s n B q f Hok Hq Hcond)).
Qed.

(** Two queries with the same pairs under the keys that are kept, in the
    same address. *)
Lemma normalize_written_same x p q1 q2 :
  urlparse x = Ok p →
  netloc p ≠ [] ∨ take 2 (path p) ≠ lit "//" →
  Forall query_char q1 → Forall query_char q2 →
  List.filter keep (parse_qsl q1) = List.filter keep (parse_qsl q2) →
  normalize_url (urlunparse (replace_query p q1))
  = normalize_url (urlunparse (replace_query p q2)).
Proof.
  intros Hp Hcond H1 H2 Hq.
  destruct (urlparse_ok _ _ Hp) as [Hok _].
  assert (Hc : netloc p ≠ [] ∨ take 2 (with_params (path p) (params p)) ≠ lit "//").
  { destruct Hcond as [?|?]; [by left|right; by apply with_params_take2]. }
  rewrite !urlunparse_eq. simpl.
  eapply normalize_url_same.
  - by apply urlparse_written_eq.
  - by apply urlparse_written_eq.
  - unfold parsed_written.
    by match goal with |- context [if ?c then ?a else ?b] =>
      destruct (if c then a else b) end.
  - unfold parsed_written.
    by match goal with |- context [if ?c then ?a else ?b] =>
      destruct (if c then a else b) end.
Qed.

End with_hostlib.
End UrlFacts.

(** ** Two facts about updating a list in place *)

#[local] Open Scope nat_scope.

Lemma alter_lookup_Some {A} (f : A → A) (l : list A) i x :
  l !! i = Some x → alter f i l = <[i:=f x]> l.
Proof.
  revert i. induction l as [|y l IH]; intros [|i] Hi; simplify_eq/=; [done|].
  f_equal. by apply IH.
Qed.

Lemma lookup_grown {A} (h : list A) node x (new : list A) j :
  node < length h →
  (<[node := x]> h ++ new) !! j
  = if decide (j = node) then Some x
    else if decide (j < length h) then h !! j
    else new !! (j - length h).
Proof.
  intros Hn. destruct (decide (j = node)) as [->|Hne].
  - rewrite lookup_app_l by (by rewrite length_insert). by apply list_lookup_insert_eq.
  - destruct (decide (j < length h)).
    + rewrite lookup_app_l by (by rewrite length_insert). by apply list_lookup_insert_ne.
    + rewrite lookup_app_r by (rewrite length_insert; lia). by rewrite length_insert.
Qed.

#[local] Close Scope nat_scope.
(** ** Facts about the scheduler loop *)

Module SchedFacts.
#[local] Open Scope nat_scope.

Section facts.
Context {Node : Type}.
Variable node_url : Node → str.
Variable expand : nat → list Entry → Store Node → result (Store Node).
Variable w : World.
Variable max_workers : Z.

Local Abbreviation step := (Sched.step node_url expand w max_workers).
Local Abbreviation exec := (Sched.exec node_url expand w max_workers).

(** The nodes with a fetch in flight. *)
Definition pending (st : State Node) : list nat := (futures st).*2.

(** The transitions of [step], one constructor per branch. *)
Inductive trans : State Node → State Node → Prop :=
  | trans_submit s fs nf wt lg node queue' :
      queue s = node :: queue' →
      (Z.of_nat (length fs) < max_workers)%Z →
      trans (mkState s fs nf wt None lg)
            (mkState (mkStore (heap s) (seen s) queue') (fs ++ [(nf, node)]) (S nf) wt None lg)
  | trans_spin s nf wt lg :
      queue s ≠ [] →
      ¬ (0 < max_workers)%Z →
      trans (mkState s [] nf wt None lg) (mkState s [] nf wt None lg)
  | trans_wait s fs nf wt lg :
      fs ≠ [] →
      (queue s = [] ∨ ¬ (Z.of_nat (length fs) < max_workers)%Z) →
      trans (mkState s fs nf wt None lg)
            (mkState s fs nf (S wt) (Some (wait w wt fs.*1)) lg)
  | trans_leave s fs nf wt lg :
      trans (mkState s fs nf wt (Some []) lg) (mkState s fs nf wt None lg)
  | trans_failed s fs nf wt lg future rest node fs' exc :
      pop_future future fs = Some (node, fs') →
      fetch w future (url_at node_url (heap s) node) = Failed exc →
      print w (length lg) (url_at node_url (heap s) node) exc = Ok () →
      trans (mkState s fs nf wt (Some (future :: rest)) lg)
            (mkState s fs' nf wt (Some rest) (lg ++ [(url_at node_url (heap s) node, exc)]))
  | trans_fetched s fs nf wt lg future rest node fs' entries s' :
      pop_future future fs = Some (node, fs') →
      fetch w future (url_at node_url (heap s) node) = Fetched entries →
      expand node entries s = Ok s' →
      trans (mkState s fs nf wt (Some (future :: rest)) lg)
            (mkState s' fs' nf wt (Some rest) lg).

Lemma step_trans st st' : step st = Running st' → trans st st'.
Proof.
  destruct st as [s fs nf wt dn lg]. unfold Sched.step; simpl.
  destruct dn as [[|future rest]|].
  - intros [= <-]. constructor.
  - destruct (pop_future future fs) as [[node fs']|] eqn:Hpop; [|done].
    destruct (fetch w future _) as [entries|exc|i] eqn:Hf; [| |done].
    + destruct (expand node entries s) as [s'|e] eqn:He; [|done].
      intros [= <-]. by eapply trans_fetched.
    + destruct (print w _ _ _) as [[]|e] eqn:Hpr; [|done].
      intros [= <-]. by eapply trans_failed.
  - destruct (queue s) as [|node queue'] eqn:Hq.
    + destruct fs as [|kv fs]; [done|].
      intros [= <-]. apply trans_wait; [done|by left].
    + case_bool_decide as Hlt.
      * intros [= <-]. by apply trans_submit.
      * destruct fs as [|kv fs].
        -- intros [= <-]. apply trans_spin; [by rewrite Hq|simpl in Hlt; lia].
        -- intros [= <-]. apply trans_wait; [done|by right].
Qed.

Lemma exec_add n m st :
  exec (n + m) st
  = match exec n st with Running st' => exec m st' | other => other end.
Proof.
  revert st. induction n as [|n IH]; intros st; simpl; [done|].
  destruct (step st); auto.
Qed.

Lemma exec_S_Running n st st' :
  exec n st = Running st' → exec (S n) st = step st'.
Proof.
  intros H. replace (S n) with (n + 1)%nat by lia. rewrite exec_add, H. simpl.
  by destruct (step st').
Qed.

(** A property kept by every transition holds all along a run. *)
Lemma exec_invariant (P : State Node → Prop) n st st' :
  (∀ a b, P a → trans a b → P b) →
  P st → exec n st = Running st' → P st'.
Proof.
  intros Hstep. revert st. induction n as [|n IH]; intros st HP; simpl.
  - by intros [= <-].
  - destruct (step st) as [st1| |] eqn:Hs; try done.
    apply IH. eapply Hstep; [done|]. by apply step_trans.
Qed.

Lemma step_Returned st st' : step st = Returned st' → st' = st.
Proof.
  destruct st as [s fs nf wt dn lg]. unfold Sched.step; simpl.
  destruct dn as [[|??]|]; try done.
  - destruct (pop_future _ _) as [[??]|]; [|done].
    destruct (fetch _ _ _); [by destruct (expand _ _ _)|by destruct (print _ _ _ _)|done].
  - destruct (queue s) eqn:?; [destruct fs; [|done]|].
    + by intros [= <-].
    + case_bool_decide; [done|]. by destruct fs.
Qed.

(** The state that is returned was reached by running. *)
Lemma exec_Returned n st st' :
  exec n st = Returned st' →
  ∃ k, (k < n)%nat ∧ exec k st = Running st' ∧ step st' = Returned st'.
Proof.
  revert st. induction n as [|n IH]; intros st; simpl; [done|].
  destruct (step st) as [st1|st1|] eqn:Hs; try done.
  - intros H. destruct (IH _ H) as (k & Hk & Hr & Hret).
    exists (S k). split; [lia|]. simpl. by rewrite Hs.
  - intros [= <-]. pose proof (step_Returned _ _ Hs) as ->.
    exists 0%nat. split; [lia|]. done.
Qed.

(** *** [futures.pop] *)

Lemma pop_future_Some future fs node fs' :
  pop_future future fs = Some (node, fs') →
  ∃ i, fs !! i = Some (future, node) ∧ fs' = delete i fs.
Proof.
  unfold pop_future. destruct (list_find _ fs) as [[i [f nd]]|] eqn:Hfind; [|done].
  intros [= <- <-]. apply list_find_Some in Hfind as (Hi & Hf & _).
  simpl in Hf. subst f. by exists i.
Qed.

Lemma pop_future_Permutation future fs node fs' :
  pop_future future fs = Some (node, fs') → fs ≡ₚ (future, node) :: fs'.
Proof.
  intros (i & Hi & ->)%pop_future_Some. by apply delete_Permutation.
Qed.

Lemma pop_future_length future fs node fs' :
  pop_future future fs = Some (node, fs') → length fs = S (length fs').
Proof. intros Hp%pop_future_Permutation. by rewrite Hp. Qed.

Lemma pop_future_is_Some future fs :
  future ∈ fs.*1 → is_Some (pop_future future fs).
Proof.
  intros [[f nd] [-> Hin]]%list_elem_of_fmap. unfold pop_future.
  destruct (list_find _ fs) as [[i kv]|] eqn:Hfind; [simpl; by eexists|].
  apply list_find_None in Hfind. rewrite Forall_forall in Hfind.
  by destruct (Hfind _ Hin).
Qed.

(** *** Bounded concurrency *)

Definition bounded (st : State Node) : Prop :=
  (Z.of_nat (length (futures st)) ≤ max_workers)%Z.

Lemma trans_bounded a b : bounded a → trans a b → bounded b.
Proof.
  unfold bounded. intros Ha Ht. destruct Ht; simpl in *; try done.
  - rewrite length_app. simpl. lia.
  - match goal with H : pop_future _ _ = _ |- _ => apply pop_future_length in H end. lia.
  - match goal with H : pop_future _ _ = _ |- _ => apply pop_future_length in H end. lia.
Qed.

Lemma exec_bounded n st st' :
  bounded st → exec n st = Running st' → bounded st'.
Proof. intros Hb. by apply exec_invariant; [apply trans_bounded|]. Qed.

(** *** Well-formed states *)

Definition wf (st : State Node) : Prop :=
  NoDup (futures st).*1
  ∧ (∀ f, f ∈ (futures st).*1 → (f < next_future st)%nat)
  ∧ NoDup (queue (store st) ++ pending st)
  ∧ (∀ i, i ∈ queue (store st) ++ pending st → (i < length (heap (store st)))%nat)
  ∧ (∀ l, done st = Some l → NoDup l ∧ l ⊆ (futures st).*1).

(** What the scheduler relies on in the processing of a page: it appends
    fresh nodes to the queue and changes, among the existing nodes, the
    processed one only. *)
Definition expand_frame : Prop :=
  ∀ i es s s', expand i es s = Ok s' → (i < length (heap s))%nat →
    ∃ new,
      queue s' = queue s ++ new
      ∧ NoDup new
      ∧ (length (heap s) ≤ length (heap s'))%nat
      ∧ (∀ j, j ∈ new → (length (heap s) ≤ j < length (heap s'))%nat)
      ∧ (∀ j, (j < length (heap s))%nat → j ≠ i → heap s' !! j = heap s !! j).

Hypothesis Hframe : expand_frame.
Hypothesis Hwait : wait_ok w.

Lemma trans_wf a b : wf a → trans a b → wf b.
Proof.
  intros (Hk & Hlt & Hnd & Href & Hdone) Ht.
  destruct Ht as [s fs nf wt lg node queue' Hq Hmw|s nf wt lg|s fs nf wt lg Hne Hor
                 |s fs nf wt lg|s fs nf wt lg future rest node fs' exc Hpop Hfe Hpr
                 |s fs nf wt lg future rest node fs' entries s' Hpop Hfe He];
    unfold wf, pending in *; simpl in *.
  - rewrite Hq in *. rewrite !fmap_app in *. simpl.
    split_and!.
    + apply NoDup_app. split_and!; [done| |apply NoDup_singleton].
      intros f Hf ->%list_elem_of_singleton. apply Hlt in Hf. lia.
    + intros f [Hf| ->%list_elem_of_singleton]%elem_of_app; [apply Hlt in Hf|]; lia.
    + assert (queue' ++ fs.*2 ++ [node] ≡ₚ node :: queue' ++ fs.*2) as ->; [|done].
      by rewrite (assoc (++)), <-Permutation_cons_append.
    + intros i Hi. apply Href.
      rewrite !elem_of_app, list_elem_of_singleton in Hi.
      simpl. rewrite elem_of_cons, elem_of_app. tauto.
    + done.
  - done.
  - split_and!; try done. intros l [= <-].
    destruct (Hwait wt fs.*1) as (_ & ? & ?); [by destruct fs|done].
  - split_and!; try done.
  - pose proof (pop_future_Permutation _ _ _ _ Hpop) as Hperm.
    destruct (Hdone _ eq_refl) as [Hndl Hsub].
    assert (Hp1 : fs.*1 ≡ₚ future :: fs'.*1) by (by rewrite Hperm).
    assert (Hp2 : fs.*2 ≡ₚ node :: fs'.*2) by (by rewrite Hperm).
    rewrite Hp1 in Hk. apply NoDup_cons in Hk as [Hfn Hk'].
    apply NoDup_cons in Hndl as [Hfr Hndr].
    split_and!; try done.
    + intros f Hf. apply Hlt. rewrite Hp1. by right.
    + rewrite Hp2 in Hnd. rewrite <-Permutation_middle in Hnd. by apply NoDup_cons in Hnd as [_ ?].
    + intros i Hi. apply Href. rewrite Hp2, <-Permutation_middle. by right.
    + intros l [= <-]. split; [done|]. intros f Hf.
      assert (f ∈ fs.*1) as Hffs by (apply Hsub; by right).
      rewrite Hp1 in Hffs. apply elem_of_cons in Hffs as [->|]; done.
  - pose proof (pop_future_Permutation _ _ _ _ Hpop) as Hperm.
    destruct (Hdone _ eq_refl) as [Hndl Hsub].
    assert (Hp1 : fs.*1 ≡ₚ future :: fs'.*1) by (by rewrite Hperm).
    assert (Hp2 : fs.*2 ≡ₚ node :: fs'.*2) by (by rewrite Hperm).
    rewrite Hp1 in Hk. apply NoDup_cons in Hk as [Hfn Hk'].
    apply NoDup_cons in Hndl as [Hfr Hndr].
    assert (Hnode : (node < length (heap s))%nat).
    { apply Href. rewrite Hp2, <-Permutation_middle. by left. }
    destruct (Hframe _ _ _ _ He Hnode) as (new & Hq & Hnew & Hlen & Hfresh & _).
    rewrite Hp2, <-Permutation_middle in Hnd. apply NoDup_cons in Hnd as [_ Hnd].
    split_and!; try done.
    + intros f Hf. apply Hlt. rewrite Hp1. by right.
    + rewrite Hq, <-(assoc (++)), (Permutation_app_comm new), (assoc (++)).
      apply NoDup_app. split_and!; [done| |done].
      intros i Hi Hin. apply Hfresh in Hin.
      assert (i < length (heap s))%nat; [|lia].
      apply Href. rewrite Hp2, <-Permutation_middle. by right.
    + intros i. rewrite Hq, <-(assoc (++)), !elem_of_app.
      intros [Hi|[Hi|Hi]].
      * assert (i < length (heap s))%nat; [|lia].
        apply Href. rewrite elem_of_app. by left.
      * apply Hfresh in Hi. lia.
      * assert (i < length (heap s))%nat; [|lia].
        apply Href. rewrite Hp2, elem_of_app, elem_of_cons. auto.
    + intros l [= <-]. split; [done|]. intros f Hf.
      assert (f ∈ fs.*1) as Hffs by (apply Hsub; by right).
      rewrite Hp1 in Hffs. apply elem_of_cons in Hffs as [->|]; done.
Qed.

(** *** Nodes that are no longer queued nor in flight *)

Definition settled (st : State Node) (i : nat) : Prop :=
  i < length (heap (store st)) ∧ i ∉ queue (store st) ++ pending st.

(** Such a node is never touched again. *)
Lemma trans_settled a b i :
  wf a → trans a b → settled a i →
  settled b i ∧ heap (store b) !! i = heap (store a) !! i.
Proof.
  intros (_ & _ & _ & Href & _) Ht [Hlt Hnot].
  destruct Ht as [s fs nf wt lg node queue' Hq Hmw|s nf wt lg|s fs nf wt lg Hne Hor
                 |s fs nf wt lg|s fs nf wt lg future rest node fs' exc Hpop Hfe Hpr
                 |s fs nf wt lg future rest node fs' entries s' Hpop Hfe He];
    unfold settled, pending in *; simpl in *; try done.
  - split; [|done]. split; [done|]. intros Hi. apply Hnot. rewrite Hq. simpl.
    rewrite fmap_app in Hi. simpl in Hi.
    rewrite !elem_of_app, list_elem_of_singleton in Hi.
    rewrite elem_of_cons, elem_of_app. tauto.
  - split; [|done]. split; [done|]. intros Hi. apply Hnot.
    apply pop_future_Permutation in Hpop.
    assert (Hp2 : fs.*2 ≡ₚ node :: fs'.*2) by (by rewrite Hpop).
    rewrite Hp2, <-Permutation_middle. by right.
  - apply pop_future_Permutation in Hpop.
    assert (Hp2 : fs.*2 ≡ₚ node :: fs'.*2) by (by rewrite Hpop).
    assert (Hnode : node < length (heap s)).
    { apply Href. rewrite Hp2, <-Permutation_middle. by left. }
    destruct (Hframe _ _ _ _ He Hnode) as (new & Hq & Hnew & Hlen & Hfresh & Hsame).
    assert (i ≠ node).
    { intros ->. apply Hnot. rewrite Hp2, <-Permutation_middle. by left. }
    split; [|by apply Hsame]. split; [lia|].
    rewrite Hq, <-(assoc (++)), !elem_of_app. intros [Hi|[Hi|Hi]].
    + apply Hnot. rewrite elem_of_app. by left.
    + apply Hfresh in Hi. lia.
    + apply Hnot. rewrite Hp2, elem_of_app, elem_of_cons. auto.
Qed.

Lemma exec_wf n st st' : wf st → exec n st = Running st' → wf st'.
Proof. intros Hwf. by apply exec_invariant; [apply trans_wf|]. Qed.

Lemma exec_settled n a b i :
  wf a → exec n a = Running b → settled a i →
  settled b i ∧ heap (store b) !! i = heap (store a) !! i.
Proof.
  revert a. induction n as [|n IH]; intros a Hwf; simpl.
  - by intros [= <-].
  - destruct (step a) as [a1| |] eqn:Hs; try done.
    intros Hex Hset. apply step_trans in Hs.
    destruct (trans_settled _ _ _ Hwf Hs Hset) as [Hset1 Heq1].
    destruct (IH a1) as [Hset2 Heq2]; [by eapply trans_wf|done|done|].
    split; [done|]. by rewrite Heq2.
Qed.

(** The loop returns only when nothing is queued or in flight. *)
Lemma step_Returned_idle st :
  step st = Returned st → queue (store st) = [] ∧ futures st = [] ∧ done st = None.
Proof.
  destruct st as [s fs nf wt dn lg]. unfold Sched.step; simpl.
  destruct dn as [[|??]|]; try done.
  - destruct (pop_future _ _) as [[??]|]; [|done].
    destruct (fetch _ _ _); [by destruct (expand _ _ _)|by destruct (print _ _ _ _)|done].
  - destruct (queue s) eqn:?; [destruct fs; [|done]|]; [done|].
    case_bool_decide; [done|]. by destruct fs.
Qed.

(** The state in which the loop returns comes after every other state of
    the run. *)
Lemma exec_later n n' st0 st st1 st' :
  exec n st0 = Running st → step st = Running st1 →
  exec n' st0 = Running st' → step st' = Returned st' →
  ∃ m, exec m st1 = Running st'.
Proof.
  intros Hn Hs Hn' Hs'. destruct (decide (n < n')) as [Hlt|Hge].
  - exists (n' - S n). replace n' with (n + S (n' - S n)) in Hn' by lia.
    rewrite exec_add, Hn in Hn'. simpl in Hn'. by rewrite Hs in Hn'.
  - exfalso. replace n with (n' + (n - n')) in Hn by lia.
    rewrite exec_add, Hn' in Hn. destruct (n - n') as [|d]; simpl in Hn.
    + simplify_eq. congruence.
    + by rewrite Hs' in Hn.
Qed.

(** In a run that returns, no transition raises: every state inside the
    [for] loop has a next state. *)
Lemma exec_before_return n n' st0 st st' :
  exec n st0 = Running st → exec n' st0 = Running st' → step st' = Returned st' →
  done st ≠ None → ∃ st1, step st = Running st1.
Proof.
  intros Hn Hn' Hs' Hd. destruct (decide (n < n')) as [Hlt|Hge].
  - replace n' with (n + S (n' - S n)) in Hn' by lia.
    rewrite exec_add, Hn in Hn'. simpl in Hn'.
    destruct (step st) as [st1| |]; [by exists st1|done..].
  - exfalso. replace n with (n' + (n - n')) in Hn by lia.
    rewrite exec_add, Hn' in Hn. destruct (n - n') as [|d]; simpl in Hn.
    + simplify_eq. by apply step_Returned_idle in Hs' as (_ & _ & ?).
    + by rewrite Hs' in Hn.
Qed.

(** The state in which the loop returns comes after every state of the run. *)
Lemma exec_reaches_return n n' st0 st st' :
  exec n st0 = Running st → exec n' st0 = Running st' → step st' = Returned st' →
  ∃ m, n + m = n' ∧ exec m st = Running st'.
Proof.
  intros Hn Hn' Hs'. destruct (decide (n ≤ n')) as [Hle|Hgt].
  - exists (n' - n). split; [lia|]. replace n' with (n + (n' - n)) in Hn' by lia.
    by rewrite exec_add, Hn in Hn'.
  - exfalso. replace n with (n' + S (n - S n')) in Hn by lia.
    rewrite exec_add, Hn' in Hn. simpl in Hn. by rewrite Hs' in Hn.
Qed.

(** When a transition raises, every longer run raises the same. *)
Lemma exec_raises n st st' e fuel :
  exec n st = Running st' → step st' = Raised e → n < fuel →
  exec fuel st = Raised e.
Proof.
  intros Hn Hs Hf. replace fuel with (n + S (fuel - S n)) by lia.
  rewrite exec_add, Hn. simpl. by rewrite Hs.
Qed.

(** *** The handling of one completed future *)

(** In state [st] the [for] loop is about to handle the future of [node],
    whose outcome is [r]. *)
Definition handles (st : State Node) (node : nat) (r : fetch_result) : Prop :=
  ∃ future rest fs',
    done st = Some (future :: rest)
    ∧ pop_future future (futures st) = Some (node, fs')
    ∧ fetch w future (url_at node_url (heap (store st)) node) = r.

Lemma handles_failed st node exc :
  handles st node (Failed exc) →
  match print w (length (log st)) (url_at node_url (heap (store st)) node) exc with
  | Ok _ => ∃ st1, step st = Running st1
                   ∧ store st1 = store st
                   ∧ log st1 = log st ++ [(url_at node_url (heap (store st)) node, exc)]
                   ∧ pending st ≡ₚ node :: pending st1
  | Raise e => step st = Raised e
  end.
Proof.
  intros (future & rest & fs' & Hd & Hpop & Hf).
  destruct st as [s fs nf wt dn lg]; simpl in *. subst dn.
  unfold Sched.step; simpl. rewrite Hpop, Hf.
  destruct (print w _ _ _) as [[]|e]; [|done].
  eexists. split; [done|].
  unfold pending; simpl. split_and!; [done..|].
  apply pop_future_Permutation in Hpop. by rewrite Hpop.
Qed.

(** The handler has run to its end exactly when the warning was written. *)
Lemma handles_failed_step st st1 node exc :
  handles st node (Failed exc) → step st = Running st1 →
  print w (length (log st)) (url_at node_url (heap (store st)) node) exc = Ok ()
  ∧ store st1 = store st
  ∧ log st1 = log st ++ [(url_at node_url (heap (store st)) node, exc)]
  ∧ pending st ≡ₚ node :: pending st1.
Proof.
  intros Hf%handles_failed Hs.
  destruct (print w _ _ _) as [[]|e]; [|congruence].
  destruct Hf as (st1' & Hs' & ?). by assert (st1' = st1) as -> by congruence.
Qed.

Lemma handles_aborted st node i :
  handles st node (Aborted i) → step st = Raised (Interrupt i).
Proof.
  intros (future & rest & fs' & Hd & Hpop & Hf).
  destruct st as [s fs nf wt dn lg]; simpl in *. subst dn.
  unfold Sched.step; simpl. by rewrite Hpop, Hf.
Qed.

Lemma handles_fetched st node es :
  handles st node (Fetched es) →
  match expand node es (store st) with
  | Ok s' => ∃ st1, step st = Running st1
                    ∧ store st1 = s'
                    ∧ log st1 = log st
                    ∧ pending st ≡ₚ node :: pending st1
  | Raise e => step st = Raised e
  end.
Proof.
  intros (future & rest & fs' & Hd & Hpop & Hf).
  destruct st as [s fs nf wt dn lg]; simpl in *. subst dn.
  unfold Sched.step; simpl. rewrite Hpop, Hf.
  destruct (expand node es s) as [s'|e]; [|done].
  eexists. split; [done|]. unfold pending; simpl. split_and!; [done..|].
  apply pop_future_Permutation in Hpop. by rewrite Hpop.
Qed.

(** Once handled, a node is settled. *)
Lemma handles_settled st st1 node r :
  wf st → handles st node r → step st = Running st1 → settled st1 node.
Proof.
  intros (_ & _ & Hnd & Href & _) Hh Hs.
  assert (Hp : ∃ rest, pending st ≡ₚ node :: rest ∧ pending st1 = rest
                       ∧ (store st1 = store st
                          ∨ ∃ es, expand node es (store st) = Ok (store st1))).
  { destruct r as [es|exc|i].
    - pose proof (handles_fetched _ _ _ Hh) as Hf.
      destruct (expand node es (store st)) as [s'|e] eqn:He; [|congruence].
      destruct Hf as (st1' & Hs' & Hst & _ & Hp).
      assert (st1' = st1) as -> by congruence. subst s'.
      exists (pending st1). split_and!; [done..|]. right. by exists es.
    - destruct (handles_failed_step _ _ _ _ Hh Hs) as (_ & Hst & _ & Hp).
      exists (pending st1). split_and!; [done..|]. by left.
    - apply handles_aborted in Hh. congruence. }
  destruct Hp as (rest & Hp & <- & Hstore).
  rewrite Hp, <-Permutation_middle in Hnd. apply NoDup_cons in Hnd as [Hout _].
  assert (Hlt : node < length (heap (store st))).
  { apply Href. rewrite Hp, <-Permutation_middle. by left. }
  destruct Hstore as [Heq|[es He]].
  - unfold settled. by rewrite Heq.
  - destruct (Hframe _ _ _ _ He Hlt) as (new & Hq & _ & Hlen & Hfresh & _).
    split; [lia|]. rewrite Hq, <-(assoc (++)), elem_of_app, (elem_of_app new).
    intros [Hi|[Hi|Hi]].
    + apply Hout. rewrite elem_of_app. by left.
    + apply Hfresh in Hi. lia.
    + apply Hout. rewrite elem_of_app. by right.
Qed.

(** A transition takes a node out of the queue and the futures only by
    handling its future. *)
Lemma trans_handles a b j :
  wf a → trans a b → j ∈ queue (store a) ++ pending a →
  j ∈ queue (store b) ++ pending b ∨ ∃ r, handles a j r.
Proof.
  intros (_ & _ & _ & Href & _) Ht.
  destruct Ht as [s fs nf wt lg node queue' Hq Hmw|s nf wt lg|s fs nf wt lg Hne Hor
                 |s fs nf wt lg|s fs nf wt lg future rest node fs' exc Hpop Hfe Hpr
                 |s fs nf wt lg future rest node fs' entries s' Hpop Hfe He];
    unfold pending in *; simpl in *; auto.
  - intros Hj. left. rewrite Hq in Hj. rewrite fmap_app. simpl.
    rewrite !elem_of_app, list_elem_of_singleton.
    simpl in Hj. rewrite elem_of_cons, elem_of_app in Hj. tauto.
  - pose proof (pop_future_Permutation _ _ _ _ Hpop) as Hperm.
    assert (Hp2 : fs.*2 ≡ₚ node :: fs'.*2) by (by rewrite Hperm).
    rewrite Hp2, <-Permutation_middle. intros [->|Hj]%elem_of_cons; [right|by left].
    exists (Failed exc), future, rest, fs'. by simpl.
  - pose proof (pop_future_Permutation _ _ _ _ Hpop) as Hperm.
    assert (Hp2 : fs.*2 ≡ₚ node :: fs'.*2) by (by rewrite Hperm).
    assert (Hnode : node < length (heap s)).
    { apply Href. rewrite Hp2, <-Permutation_middle. by left. }
    destruct (Hframe _ _ _ _ He Hnode) as (new & Hq & _).
    rewrite Hp2, <-Permutation_middle. intros [->|Hj]%elem_of_cons; [right|left].
    + exists (Fetched entries), future, rest, fs'. by simpl.
    + rewrite Hq, <-(assoc (++)), !elem_of_app. rewrite elem_of_app in Hj. tauto.
Qed.

(** In a run that returns, the future of every queued or in-flight node is
    handled. *)
Lemma exec_handles n st st' j :
  wf st → exec n st = Running st' → step st' = Returned st' →
  j ∈ queue (store st) ++ pending st →
  ∃ k sk sk1 r,
    k < n ∧ exec k st = Running sk ∧ handles sk j r
    ∧ step sk = Running sk1 ∧ exec (n - S k) sk1 = Running st'.
Proof.
  revert st. induction n as [|n IH]; intros st Hwf; simpl.
  - intros [= <-] (Hq & Hf & _)%step_Returned_idle.
    unfold pending. rewrite Hq, Hf. by intros ?%elem_of_nil.
  - destruct (step st) as [st1| |] eqn:Hs; try done.
    intros Hex Hret Hj. pose proof (step_trans _ _ Hs) as Ht.
    destruct (trans_handles _ _ _ Hwf Ht Hj) as [Hj1|[r Hr]].
    + destruct (IH st1) as (k & sk & sk1 & r & Hk & Hexk & Hh & Hsk & Hrest);
        [by eapply trans_wf|done..|].
      exists (S k), sk, sk1, r. simpl. rewrite Hs. split_and!; [lia|done..].
    + exists 0, st, st1, r. rewrite Nat.sub_0_r. split_and!; [lia|done..].
Qed.

(** *** Termination *)

Context `{!HostLib}.
Variable root_url : str.

(** The addresses that a crawl from [root_url] can come to fetch: the root,
    and the address of every [FOLDER] entry of a page fetched from a
    reachable address. *)
Inductive reachable : str → Prop :=
  | reachable_root : reachable root_url
  | reachable_entry u f es e :
      reachable u → fetch w f u = Fetched es → e ∈ es →
      entry_kind e = FOLDER → reachable (entry_url e).

(** What termination relies on in the processing of a page: an identity
    enters [seen] together with one node entering the queue, and both come
    from a [FOLDER] entry of the page. *)
Definition expand_grow : Prop :=
  ∀ i es s s', expand i es s = Ok s' → i < length (heap s) →
    (∀ j, j < length (heap s) → url_at node_url (heap s') j = url_at node_url (heap s) j)
    ∧ seen s ⊆ seen s'
    ∧ size (seen s') + length (queue s) = size (seen s) + length (queue s')
    ∧ (∀ x, x ∈ seen s' → x ∈ seen s ∨
         ∃ e, e ∈ es ∧ entry_kind e = FOLDER ∧ normalize_url (entry_url e) = Ok x)
    ∧ (∀ j, j ∈ queue s' → j ∈ queue s ∨
         ∃ e, e ∈ es ∧ entry_kind e = FOLDER ∧ url_at node_url (heap s') j = entry_url e).

Hypothesis Hgrow : expand_grow.

(** The finite set of the identities of the reachable addresses. *)
Variable U : gset (list N).
Hypothesis Hfinite : ∀ u x, reachable u → normalize_url u = Ok x → x ∈ U.
Hypothesis Hworkers : (0 < max_workers)%Z.

Definition closed (st : State Node) : Prop :=
  wf st
  ∧ seen (store st) ⊆ U
  ∧ ∀ i, i ∈ queue (store st) ++ pending st →
         reachable (url_at node_url (heap (store st)) i).

(** The number of transitions left is at most [measure st]: four for a
    node still to discover or to submit, three for a future in flight. *)
Definition measure (st : State Node) : nat :=
  4 * (size (U ∖ seen (store st)) + length (queue (store st)))
  + match done st with
    | None => 3 * length (futures st)
    | Some l => 3 * (length (futures st) - length l) + length l + 1
    end.

Lemma trans_closed a b : closed a → trans a b → closed b.
Proof.
  intros (Hwf & HU & Hreach) Ht. split; [by eapply trans_wf|].
  destruct Hwf as (_ & _ & _ & Href & _).
  destruct Ht as [s fs nf wt lg node queue' Hq Hmw|s nf wt lg|s fs nf wt lg Hne Hor
                 |s fs nf wt lg|s fs nf wt lg future rest node fs' exc Hpop Hfe Hpr
                 |s fs nf wt lg future rest node fs' entries s' Hpop Hfe He];
    unfold pending in *; simpl in *; try done.
  - split; [done|]. intros i Hi. apply Hreach. rewrite Hq. simpl.
    rewrite fmap_app in Hi. simpl in Hi.
    rewrite !elem_of_app, list_elem_of_singleton in Hi.
    rewrite elem_of_cons, elem_of_app. tauto.
  - split; [done|]. intros i Hi. apply Hreach.
    apply pop_future_Permutation in Hpop.
    assert (Hp2 : fs.*2 ≡ₚ node :: fs'.*2) by (by rewrite Hpop).
    rewrite Hp2, <-Permutation_middle. by right.
  - apply pop_future_Permutation in Hpop.
    assert (Hp2 : fs.*2 ≡ₚ node :: fs'.*2) by (by rewrite Hpop).
    assert (Hnode : node < length (heap s)).
    { apply Href. rewrite Hp2, <-Permutation_middle. by left. }
    assert (Hrn : reachable (url_at node_url (heap s) node)).
    { apply Hreach. rewrite Hp2, <-Permutation_middle. by left. }
    destruct (Hgrow _ _ _ _ He Hnode) as (Hurl & Hsub & _ & Hseen & Hqueue).
    split.
    + intros x [Hx|(e & He1 & He2 & He3)]%Hseen; [by apply HU|].
      eapply Hfinite; [|done]. by eapply reachable_entry.
    + intros i [Hi|Hi]%elem_of_app.
      * apply Hqueue in Hi as [Hi|(e & He1 & He2 & ->)].
        -- rewrite Hurl; [|apply Href; rewrite elem_of_app; by left].
           apply Hreach. rewrite elem_of_app. by left.
        -- by eapply reachable_entry.
      * assert (i ∈ queue s ++ fs.*2) as Hi'.
        { rewrite Hp2, <-Permutation_middle, elem_of_cons, elem_of_app. auto. }
        rewrite Hurl; [by apply Hreach|by apply Href].
Qed.

Lemma size_unseen (X X' : gset (list N)) q q' :
  X ⊆ X' → X' ⊆ U → size X' + q = size X + q' →
  size (U ∖ X') + q' = size (U ∖ X) + q.
Proof.
  intros H1 H2 H3. rewrite !size_difference by set_solver.
  apply subseteq_size in H1, H2. lia.
Qed.

Lemma trans_measure a b : closed a → trans a b → measure b < measure a.
Proof.
  intros Hc Ht. pose proof (trans_closed _ _ Hc Ht) as (_ & HU' & _).
  destruct Hc as ((_ & _ & _ & Href & Hdone) & HU & _).
  assert (Hle : ∀ l, done a = Some l → length l ≤ length (futures a)).
  { intros l [Hnd Hsub]%Hdone. rewrite <-(length_fmap fst (futures a)).
    apply submseteq_length, NoDup_submseteq; [done|]. intros x Hx. by apply Hsub. }
  destruct Ht as [s fs nf wt lg node queue' Hq Hmw|s nf wt lg|s fs nf wt lg Hne Hor
                 |s fs nf wt lg|s fs nf wt lg future rest node fs' exc Hpop Hfe Hpr
                 |s fs nf wt lg future rest node fs' entries s' Hpop Hfe He];
    unfold measure, pending in *; simpl in *.
  - rewrite Hq, length_app. simpl. lia.
  - lia.
  - destruct (Hwait wt fs.*1) as (Hne' & Hnd & Hsub); [by destruct fs|].
    assert (length (wait w wt fs.*1) ≤ length fs).
    { rewrite <-(length_fmap fst fs). apply submseteq_length, NoDup_submseteq; [done|].
      intros x Hx. by apply Hsub. }
    destruct (wait w wt fs.*1); [done|]. simpl in *. lia.
  - lia.
  - specialize (Hle _ eq_refl). apply pop_future_length in Hpop. simpl in Hle. lia.
  - specialize (Hle _ eq_refl).
    assert (Hnode : node < length (heap s)).
    { apply Href. apply pop_future_Permutation in Hpop.
      assert (Hp2 : fs.*2 ≡ₚ node :: fs'.*2) by (by rewrite Hpop).
      rewrite Hp2, <-Permutation_middle. by left. }
    destruct (Hgrow _ _ _ _ He Hnode) as (_ & Hsub & Hsz & _).
    pose proof (size_unseen _ _ _ _ Hsub HU' Hsz).
    apply pop_future_length in Hpop. simpl in Hle. lia.
Qed.

(** A run from a closed state ends within [measure] transitions. *)
Lemma exec_terminates n st :
  closed st → measure st < n →
  ∃ k, k ≤ measure st
       ∧ ((∃ st', exec k st = Running st' ∧ step st' = Returned st' ∧ exec n st = Returned st')
          ∨ ∃ e, exec n st = Raised e).
Proof.
  revert st. induction n as [|n IH]; intros st Hc Hn; [lia|].
  simpl. destruct (step st) as [st1|st1|e] eqn:Hs.
  - pose proof (step_trans _ _ Hs) as Ht.
    pose proof (trans_measure _ _ Hc Ht) as Hm.
    destruct (IH st1) as (k & Hk & Hres); [by eapply trans_closed|lia|].
    exists (S k). split; [lia|]. simpl. rewrite Hs.
    destruct Hres as [(st' & ? & ? & ?)|[e ?]]; [left|right]; eauto.
  - pose proof (step_Returned _ _ Hs) as ->. exists 0. split; [lia|]. left. eauto.
  - exists 0. split; [lia|]. right. eauto.
Qed.

(** *** No exception when every reachable address can be normalized,
    every warning is written and no future is aborted *)

(** What this relies on in the processing of a page: it raises only when
    [normalize_url] raises on the address of a [FOLDER] entry. *)
Definition expand_total : Prop :=
  ∀ i es s,
    (∀ e, e ∈ es → entry_kind e = FOLDER → ∃ x, normalize_url (entry_url e) = Ok x) →
    ∃ s', expand i es s = Ok s'.

Hypothesis Htotal : expand_total.
Hypothesis Hnormal : ∀ u, reachable u → ∃ x, normalize_url u = Ok x.
Hypothesis Hbenign : benign w.

Lemma step_no_raise st e : closed st → step st ≠ Raised e.
Proof.
  intros ((_ & _ & _ & _ & Hdone) & _ & Hreach).
  destruct st as [s fs nf wt dn lg]. unfold Sched.step, pending in *; simpl in *.
  destruct dn as [[|future rest]|]; try done.
  - destruct (Hdone _ eq_refl) as [_ Hsub].
    destruct (pop_future_is_Some future fs) as [[node fs'] Hpop]; [apply Hsub; by left|].
    rewrite Hpop.
    destruct Hbenign as [Hprint Hfetch].
    destruct (fetch w future _) as [es|exc|i] eqn:Hf;
      [|by rewrite Hprint|by apply Hfetch in Hf].
    destruct (Htotal node es s) as [s' ->]; [|done].
    intros e' He' Hk. apply Hnormal. eapply reachable_entry; [|done..].
    apply Hreach. rewrite elem_of_app. right.
    apply pop_future_Permutation in Hpop.
    assert (Hp2 : fs.*2 ≡ₚ node :: fs'.*2) by (by rewrite Hpop).
    rewrite Hp2. by left.
  - destruct (queue s); [by destruct fs|].
    case_bool_decide; [done|]. by destruct fs.
Qed.

Lemma exec_Raised n st e :
  exec n st = Raised e → ∃ k st', exec k st = Running st' ∧ step st' = Raised e.
Proof.
  revert st. induction n as [|n IH]; intros st; simpl; [done|].
  destruct (step st) as [st1|st1|e1] eqn:Hs; try done.
  - intros (k & st' & Hk & Hr)%IH. exists (S k), st'. simpl. by rewrite Hs.
  - intros [= <-]. by exists 0, st.
Qed.

(** A run from a closed state returns within [measure] transitions. *)
Lemma exec_returns n st :
  closed st → measure st < n →
  ∃ k st', k ≤ measure st ∧ exec k st = Running st'
           ∧ step st' = Returned st' ∧ exec n st = Returned st'.
Proof.
  intros Hc Hn.
  destruct (exec_terminates _ _ Hc Hn) as (k & Hk & [(st' & ? & ? & ?)|[e He]]).
  - by exists k, st'.
  - apply exec_Raised in He as (k' & st' & Hr & Hs).
    exfalso. apply (step_no_raise st' e); [|done].
    by eapply (exec_invariant closed); [apply trans_closed|..].
Qed.
End facts.

Section seen.
Context {Node : Type} `{!HostLib}.
Variable node_url : Node → str.

(** *** How [seen] grows *)

(** In the transition from [a] to [b], the identities that enter [seen]
    are new and pairwise distinct, and there is one for each node that
    enters the queue: a node created in this transition, of which it is
    the identity. *)
Definition seen_step (a b : State Node) : Prop :=
  ∃ new : list (nat * list N),
    seen (store b) = list_to_set new.*2 ∪ seen (store a)
    ∧ NoDup new.*2
    ∧ (∀ x, x ∈ new.*2 → x ∉ seen (store a))
    ∧ (∃ q0, queue (store b) = q0 ++ new.*1
             ∧ (q0 = queue (store a) ∨ ∃ node, queue (store a) = node :: q0))
    ∧ (∀ j x, (j, x) ∈ new →
         length (heap (store a)) ≤ j
         ∧ normalize_url (url_at node_url (heap (store b)) j) = Ok x).

Lemma seen_step_idle (a b : State Node) :
  seen (store b) = seen (store a) →
  (queue (store b) = queue (store a)
   ∨ ∃ node, queue (store a) = node :: queue (store b)) →
  seen_step a b.
Proof.
  intros Hs Hq. exists []. simpl. split_and!.
  - rewrite Hs. set_solver.
  - constructor.
  - by intros ? ?%elem_of_nil.
  - exists (queue (store b)). rewrite app_nil_r. split; [done|].
    destruct Hq as [->|?]; auto.
  - by intros ?? ?%elem_of_nil.
Qed.

End seen.

End SchedFacts.

(** ** Facts about [CatalogCrawler] *)

Module MainFacts.
Import Main SchedFacts.
#[local] Open Scope nat_scope.

(** The child node made for an entry. *)
Definition child_of (d : Z) (e : Entry) : CatalogNode :=
  mkNode (entry_name e) (entry_url e) d [] false.

(** The node [nd] after the references [new] were appended to its children. *)
Definition with_children (nd : CatalogNode) (new : list nat) : CatalogNode :=
  mkNode (name nd) (url nd) (depth nd) (children nd ++ new) (has_file_children nd).

Section facts.
Context `{!HostLib}.

(** The entries of [folder_entries] for which [attach] makes a node: those
    whose identity is not yet in [seen], each with that identity. *)
Fixpoint fresh (seen : gset (list N)) (folder_entries : list Entry)
  : result (list (Entry * list N)) :=
  match folder_entries with
  | [] => Ok []
  | e :: rest =>
      x ← normalize_url (entry_url e);
      if bool_decide (x ∈ seen) then fresh seen rest
      else kept ← fresh ({[x]} ∪ seen) rest; Ok ((e, x) :: kept)
  end.

Lemma attach_spec node nd es s s' :
  heap s !! node = Some nd →
  attach node es s = Ok s' →
  ∃ kept,
    fresh (seen s) es = Ok kept
    ∧ heap s' = <[node := with_children nd (seq (length (heap s)) (length kept))]> (heap s)
                ++ (child_of (depth nd + 1) <$> kept.*1)
    ∧ seen s' = list_to_set kept.*2 ∪ seen s
    ∧ queue s' = queue s ++ seq (length (heap s)) (length kept).
Proof.
  revert nd s. induction es as [|e es IH]; intros nd s Hnd; simpl.
  - intros [= <-]. exists []. simpl. split_and!; [done| |set_solver|by rewrite app_nil_r].
    rewrite app_nil_r. unfold with_children. rewrite app_nil_r.
    symmetry. apply list_insert_id. by destruct nd.
  - destruct (normalize_url (entry_url e)) as [x|] eqn:Hx; simpl; [|done].
    case_bool_decide as Hin; [by apply IH|].
    intros Hat. pose proof (lookup_lt_Some _ _ _ Hnd) as Hlt.
    apply (IH (append_child (length (heap s)) nd)) in Hat as (kept & Hk & Hh & Hs & Hq);
      simpl in *.
    2:{ rewrite alter_app_l by done. rewrite lookup_app_l by (by rewrite length_alter).
        by rewrite list_lookup_alter_eq, Hnd. }
    rewrite length_alter, length_app in Hh, Hq. simpl in Hh, Hq.
    replace (length (heap s) + 1) with (S (length (heap s))) in Hh, Hq by lia.
    exists ((e, x) :: kept). rewrite Hk. simpl. split_and!; [done| | |].
    + rewrite Hh. rewrite alter_app_l by done.
      rewrite (alter_lookup_Some _ _ _ _ Hnd).
      rewrite insert_app_l by (by rewrite length_insert).
      rewrite list_insert_insert_eq, <-(assoc (++)). simpl.
      unfold with_children, append_child, depth_at. simpl.
      by rewrite Hnd, <-(assoc (++)).
    + rewrite Hs. set_solver.
    + by rewrite Hq, <-(assoc (++)).
Qed.

Lemma fresh_spec X es kept :
  fresh X es = Ok kept →
  NoDup kept.*2
  ∧ (∀ x, x ∈ kept.*2 → x ∉ X)
  ∧ (∀ e x, (e, x) ∈ kept → e ∈ es ∧ normalize_url (entry_url e) = Ok x)
  ∧ kept.*1 `sublist_of` es.
Proof.
  revert X kept. induction es as [|e es IH]; intros X kept; simpl.
  - intros [= <-]. split_and!; [constructor|set_solver|set_solver|done].
  - destruct (normalize_url (entry_url e)) as [x|] eqn:Hx; simpl; [|done].
    case_bool_decide as Hin.
    + intros (H1 & H2 & H3 & H4)%IH. split_and!; [done|done| |by apply sublist_cons].
      intros e' x' [??]%H3. split; [by right|done].
    + destruct (fresh _ es) as [kept'|] eqn:Hk; simpl; [|done].
      intros [= <-]. apply IH in Hk as (H1 & H2 & H3 & H4). simpl.
      split_and!.
      * apply NoDup_cons. split; [|done]. intros Hx'%H2. set_solver.
      * intros x' [->|Hx'%H2]%elem_of_cons; [done|set_solver].
      * intros e' x' [[= -> ->]|[??]%H3]%elem_of_cons; [split; [by left|done]|].
        split; [by right|done].
      * by apply sublist_skip.
Qed.

(** [folder_entries] and the value given to [has_file_children]. *)
Definition folders (entries : list Entry) : list Entry :=
  List.filter (fun entry => bool_decide (entry_kind entry = FOLDER)) entries.
Definition has_file (entries : list Entry) : bool :=
  existsb (fun entry => bool_decide (entry_kind entry = FILE)) entries.

(** The processed node after the page [entries]: the flag is set and the
    new nodes [new] are its children. *)
Definition expanded (nd : CatalogNode) (entries : list Entry) (new : list nat)
  : CatalogNode :=
  mkNode (name nd) (url nd) (depth nd) (children nd ++ new) (has_file entries).

Lemma main_expand_spec node nd entries s s' :
  heap s !! node = Some nd →
  expand node entries s = Ok s' →
  ∃ kept,
    fresh (seen s) (folders entries) = Ok kept
    ∧ heap s' = <[node := expanded nd entries (seq (length (heap s)) (length kept))]> (heap s)
                ++ (child_of (depth nd + 1) <$> kept.*1)
    ∧ seen s' = list_to_set kept.*2 ∪ seen s
    ∧ queue s' = queue s ++ seq (length (heap s)) (length kept).
Proof.
  intros Hnd. unfold expand. fold (folders entries). fold (has_file entries).
  intros Hat.
  apply (attach_spec _ (set_has_file_children (has_file entries) nd)) in Hat
    as (kept & Hk & Hh & Hs & Hq); simpl in *.
  2:{ by rewrite list_lookup_alter_eq, Hnd. }
  rewrite length_alter in Hh, Hq.
  exists kept. split_and!; try done.
  rewrite Hh, (alter_lookup_Some _ _ _ _ Hnd).
  by rewrite list_insert_insert_eq.
Qed.

Lemma folders_spec e entries :
  e ∈ folders entries ↔ e ∈ entries ∧ entry_kind e = FOLDER.
Proof.
  unfold folders. rewrite !list_elem_of_In, filter_In, bool_decide_eq_true. done.
Qed.

Lemma main_expand_frame : SchedFacts.expand_frame expand.
Proof.
  intros i es s s' He Hi.
  destruct (lookup_lt_is_Some_2 _ _ Hi) as [nd Hnd].
  destruct (main_expand_spec _ _ _ _ _ Hnd He) as (kept & Hk & Hh & Hs & Hq).
  exists (seq (length (heap s)) (length kept)).
  rewrite Hh, length_app, length_insert, length_fmap, length_fmap.
  split_and!; [done|apply NoDup_seq|lia| |].
  - intros j Hj%elem_of_seq. lia.
  - intros j Hj Hne. rewrite lookup_app_l by (by rewrite length_insert).
    by rewrite list_lookup_insert_ne.
Qed.

Lemma main_expand_grow : SchedFacts.expand_grow url expand.
Proof.
  intros i es s s' He Hi.
  destruct (lookup_lt_is_Some_2 _ _ Hi) as [nd Hnd].
  destruct (main_expand_spec _ _ _ _ _ Hnd He) as (kept & Hk & Hh & Hs & Hq).
  apply fresh_spec in Hk as (Hnd' & Hnot & Hin & Hsub).
  split_and!.
  - intros j Hj. unfold url_at. rewrite Hh, lookup_app_l by (by rewrite length_insert).
    destruct (decide (i = j)) as [<-|Hne].
    + by rewrite list_lookup_insert_eq, Hnd.
    + by rewrite list_lookup_insert_ne.
  - rewrite Hs. set_solver.
  - rewrite Hs, Hq, size_union.
    + rewrite size_list_to_set by done. rewrite length_app, length_seq, length_fmap. lia.
    + intros x Hx%elem_of_list_to_set Hx'. by apply (Hnot x).
  - intros x. rewrite Hs, elem_of_union, elem_of_list_to_set.
    intros [Hx|Hx]; [right|by left].
    apply list_elem_of_fmap in Hx as ([e x'] & -> & Hex). simpl.
    apply Hin in Hex as [He1%folders_spec He2]. exists e. tauto.
  - intros j. rewrite Hq, elem_of_app, elem_of_seq.
    intros [Hj|Hj]; [by left|right].
    destruct (kept !! (j - length (heap s))) as [[e x]|] eqn:Hlook.
    2:{ apply lookup_ge_None in Hlook. lia. }
    pose proof (list_elem_of_lookup_2 _ _ _ Hlook) as [He1%folders_spec He2]%Hin.
    exists e. split_and!; [tauto..|].
    unfold url_at. rewrite Hh, lookup_app_r by (rewrite length_insert; lia).
    rewrite length_insert, list_lookup_fmap, list_lookup_fmap, Hlook. done.
Qed.

(** *** The invariant of [CatalogCrawler.crawl] *)

Variable w : World.
Variable max_workers : Z.

Local Abbreviation step := (Sched.step url expand w max_workers).
Local Abbreviation exec := (Sched.exec url expand w max_workers).
Local Abbreviation trans := (SchedFacts.trans url expand w max_workers).

(** The identities of the nodes, in allocation order, are pairwise distinct
    and are the content of [seen]; a queued or in-flight node has no child
    and no flag yet; depths count the edges from the root; every node
    except the root is the child of an older node. *)
Definition inv (st : State CatalogNode) : Prop :=
  let h := heap (store st) in
  (∃ ids, Forall2 (fun nd x => normalize_url (url nd) = Ok x) h ids
          ∧ NoDup ids ∧ seen (store st) = list_to_set ids)
  ∧ (∀ i, i ∈ queue (store st) ++ pending st →
          ∃ nd, h !! i = Some nd ∧ children nd = [] ∧ has_file_children nd = false)
  ∧ (∃ nd, h !! 0 = Some nd ∧ depth nd = 0%Z)
  ∧ (∀ i nd c, h !! i = Some nd → c ∈ children nd →
          i < c ∧ ∃ cn, h !! c = Some cn ∧ depth cn = (depth nd + 1)%Z)
  ∧ (∀ c, 0 < c < length h → ∃ i nd, h !! i = Some nd ∧ c ∈ children nd).

Lemma main_inv_init root_name root_url normalized :
  normalize_url root_url = Ok normalized →
  inv (init root_name root_url normalized).
Proof.
  intros Hn. unfold inv, init, pending; simpl. split_and!.
  - exists [normalized]. split_and!; [by repeat constructor|apply NoDup_singleton|set_solver].
  - intros i ->%list_elem_of_singleton. eauto.
  - eauto.
  - intros [|i] nd c; simpl; [|done]. intros [= <-]. simpl. by intros ?%elem_of_nil.
  - intros c. lia.
Qed.

Lemma main_wf_init root_name root_url normalized :
  wf (init root_name root_url normalized).
Proof.
  unfold wf, init, pending; simpl. split_and!; try done.
  - constructor.
  - by intros ? ?%elem_of_nil.
  - apply NoDup_singleton.
  - intros i ->%list_elem_of_singleton. lia.
Qed.

Lemma main_trans_inv a b : wf a → inv a → trans a b → inv b.
Proof.
  intros (_ & _ & Hnd & Href & _) (Hids & Hnew & Hroot & Hdepth & Hparent) Ht.
  destruct Ht as [s fs nf wt lg node queue' Hq Hmw|s nf wt lg|s fs nf wt lg Hne Hor
                 |s fs nf wt lg|s fs nf wt lg future rest node fs' exc Hpop Hfe Hpr
                 |s fs nf wt lg future rest node fs' entries s' Hpop Hfe He];
    unfold inv, pending in *; simpl in *; try done.
  - split_and!; try done. intros i Hi. apply Hnew. rewrite Hq. simpl.
    rewrite fmap_app in Hi. simpl in Hi.
    rewrite !elem_of_app, list_elem_of_singleton in Hi.
    rewrite elem_of_cons, elem_of_app. tauto.
  - split_and!; try done. intros i Hi. apply Hnew.
    apply pop_future_Permutation in Hpop.
    assert (Hp2 : fs.*2 ≡ₚ node :: fs'.*2) by (by rewrite Hpop).
    rewrite Hp2, <-Permutation_middle. by right.
  - apply pop_future_Permutation in Hpop.
    assert (Hp2 : fs.*2 ≡ₚ node :: fs'.*2) by (by rewrite Hpop).
    assert (Hmem : ∀ i, i ∈ queue s ++ fs.*2 ↔ i = node ∨ i ∈ queue s ++ fs'.*2).
    { intros i. rewrite Hp2, <-Permutation_middle. apply elem_of_cons. }
    rewrite Hp2, <-Permutation_middle in Hnd.
    apply NoDup_cons in Hnd as [Hnode_out Hnd].
    setoid_rewrite Hmem in Href. setoid_rewrite Hmem in Hnew.
    destruct (Hnew node) as (nd & Hlook & Hch & Hfl); [by left|].
    pose proof (lookup_lt_Some _ _ _ Hlook) as Hlt.
    destruct (main_expand_spec _ _ _ _ _ Hlook He) as (kept & Hk & Hh & Hs & Hqq).
    apply fresh_spec in Hk as (Hkn & Hnot & Hin & Hsub).
    destruct Hids as (ids & Hall & Hidn & Hseen).
    rewrite Hh. split_and!.
    + exists (ids ++ kept.*2). split_and!.
      * apply Forall2_app.
        -- rewrite <-(list_insert_id ids node (default [] (ids !! node))).
           ++ apply Forall2_insert; [done|].
              destruct (Forall2_lookup_l _ _ _ _ _ Hall Hlook) as (x & Hx & Hxn).
              by rewrite Hx.
           ++ destruct (Forall2_lookup_l _ _ _ _ _ Hall Hlook) as (x & Hx & Hxn).
              by rewrite Hx.
        -- rewrite <-list_fmap_compose.
           apply Forall2_fmap, Forall_Forall2_diag, Forall_forall.
           intros [e x] Hex. simpl. by apply Hin.
      * apply NoDup_app. split_and!; [done| |done].
        intros x Hx Hx'. apply (Hnot x Hx'). rewrite Hseen. by apply elem_of_list_to_set.
      * rewrite Hs, Hseen, list_to_set_app_L. set_solver.
    + intros i. rewrite Hqq, <-(assoc (++)), elem_of_app, (elem_of_app (seq _ _)), elem_of_seq.
      rewrite lookup_grown by done. intros Hi.
      destruct (decide (i = node)) as [->|Hne].
      { exfalso. destruct Hi as [Hi|[Hi|Hi]]; [|lia|].
        - apply Hnode_out. rewrite elem_of_app. by left.
        - apply Hnode_out. rewrite elem_of_app. by right. }
      destruct (decide (i < length (heap s))) as [Hil|Hil].
      * apply Hnew. right. rewrite elem_of_app. destruct Hi as [Hi|[Hi|Hi]]; [by left|lia|by right].
      * assert (is_Some (kept !! (i - length (heap s)))) as [[e x] Hex].
        { apply lookup_lt_is_Some_2. destruct Hi as [Hi|[Hi|Hi]]; [|lia|].
          - exfalso. apply Hil, Href. right. rewrite elem_of_app. by left.
          - exfalso. apply Hil, Href. right. rewrite elem_of_app. by right. }
        rewrite !list_lookup_fmap, Hex. simpl. eauto.
    + rewrite lookup_grown by done. destruct Hroot as (rt & Hrt & Hd0).
      destruct (decide (0 = node)) as [<-|Hne]; [|case_decide; [eauto|lia]].
      rewrite Hrt in Hlook. simplify_eq. eauto.
    + intros i ndi c. rewrite !lookup_grown by done.
      destruct (decide (i = node)) as [->|Hne].
      * intros [= <-]. simpl. rewrite Hch. simpl. intros Hc%elem_of_seq.
        split; [lia|].
        destruct (decide (c = node)) as [->|_]; [lia|].
        destruct (decide (c < length (heap s))); [lia|].
        assert (is_Some (kept !! (c - length (heap s)))) as [[e x] Hex].
        { apply lookup_lt_is_Some_2. lia. }
        rewrite !list_lookup_fmap, Hex. simpl. eauto.
      * destruct (decide (i < length (heap s))) as [Hil|Hil].
        -- intros Hi Hc. destruct (Hdepth _ _ _ Hi Hc) as (Hic & cn & Hcn & Hcd).
           split; [done|]. pose proof (lookup_lt_Some _ _ _ Hcn).
           destruct (decide (c = node)) as [->|_]; [|case_decide; [eauto|lia]].
           rewrite Hlook in Hcn. simplify_eq. eauto.
        -- rewrite !list_lookup_fmap. intros Hi.
           destruct (kept !! (i - length (heap s))) as [[e x]|]; simplify_eq/=.
           by intros ?%elem_of_nil.
    + intros c. rewrite length_app, length_insert, !length_fmap. intros Hc.
      destruct (decide (c < length (heap s))) as [Hcl|Hcl].
      * destruct (Hparent c) as (i & ndi & Hi & Hci); [lia|].
        pose proof (lookup_lt_Some _ _ _ Hi).
        exists i. rewrite lookup_grown by done.
        destruct (decide (i = node)) as [->|_]; [|case_decide; [eauto|lia]].
        rewrite Hlook in Hi. simplify_eq. rewrite Hch in Hci. by apply elem_of_nil in Hci.
      * exists node. rewrite lookup_grown by done. rewrite decide_True by done.
        eexists. split; [done|]. simpl. rewrite elem_of_app, elem_of_seq. right. lia.
Qed.

Lemma main_exec_inv n st st' :
  wait_ok w → wf st → inv st → exec n st = Running st' → wf st' ∧ inv st'.
Proof.
  intros Hw Hwf Hinv.
  apply (exec_invariant _ _ _ _ (fun st => wf st ∧ inv st)); [|done].
  intros a b [Ha Hi] Ht. split.
  - by eapply trans_wf; [apply main_expand_frame|..].
  - by eapply main_trans_inv.
Qed.

(** *** Fields that never change *)

Lemma main_trans_fields a b i nd :
  wf a → trans a b → heap (store a) !! i = Some nd →
  ∃ nd', heap (store b) !! i = Some nd'
         ∧ name nd' = name nd ∧ url nd' = url nd ∧ depth nd' = depth nd.
Proof.
  intros (_ & _ & _ & Href & _) Ht.
  destruct Ht as [s fs nf wt lg node queue' Hq Hmw|s nf wt lg|s fs nf wt lg Hne Hor
                 |s fs nf wt lg|s fs nf wt lg future rest node fs' exc Hpop Hfe Hpr
                 |s fs nf wt lg future rest node fs' entries s' Hpop Hfe He];
    unfold pending in *; simpl in *; eauto.
  intros Hi. apply pop_future_Permutation in Hpop.
  assert (Hp2 : fs.*2 ≡ₚ node :: fs'.*2) by (by rewrite Hpop).
  assert (Hlt : node < length (heap s)).
  { apply Href. rewrite Hp2, <-Permutation_middle. by left. }
  destruct (lookup_lt_is_Some_2 _ _ Hlt) as [ndn Hn].
  destruct (main_expand_spec _ _ _ _ _ Hn He) as (kept & _ & Hh & _).
  rewrite Hh, lookup_grown by done. pose proof (lookup_lt_Some _ _ _ Hi).
  destruct (decide (i = node)) as [->|_]; [|case_decide; [eauto|lia]].
  rewrite Hn in Hi. simplify_eq. eauto.
Qed.

Lemma main_exec_fields n a b i nd :
  wait_ok w → wf a → exec n a = Running b → heap (store a) !! i = Some nd →
  ∃ nd', heap (store b) !! i = Some nd'
         ∧ name nd' = name nd ∧ url nd' = url nd ∧ depth nd' = depth nd.
Proof.
  intros Hw. revert a nd. induction n as [|n IH]; intros a nd Hwf; simpl.
  - intros [= <-]. eauto.
  - destruct (step a) as [a1| |] eqn:Hs; try done. intros Hex Hi.
    apply step_trans in Hs.
    destruct (main_trans_fields _ _ _ _ Hwf Hs Hi) as (nd1 & Hi1 & E1 & E2 & E3).
    destruct (IH a1 nd1) as (nd2 & Hi2 & F1 & F2 & F3);
      [by eapply trans_wf; [apply main_expand_frame|..]|done|done|].
    exists nd2. split; [done|]. split_and!; congruence.
Qed.

(** *** What the handling of a fetched page leaves behind *)

(** When the page of [node] is handled with entries [es], the node gets
    the flag of the page and one child for each kept entry; from then on
    [node] is never touched again. *)
Lemma main_handled_fetched st st1 m st2 node es :
  wait_ok w → wf st → inv st →
  handles url w st node (Fetched es) →
  step st = Running st1 → exec m st1 = Running st2 →
  ∃ nd kept,
    heap (store st) !! node = Some nd
    ∧ fresh (seen (store st)) (folders es) = Ok kept
    ∧ heap (store st2) !! node
      = Some (mkNode (name nd) (url nd) (depth nd)
                (seq (length (heap (store st))) (length kept)) (has_file es))
    ∧ ∀ k e, kept.*1 !! k = Some e →
        ∃ cn, heap (store st2) !! (length (heap (store st)) + k) = Some cn
              ∧ name cn = entry_name e ∧ url cn = entry_url e
              ∧ depth cn = (depth nd + 1)%Z.
Proof.
  intros Hw Hwf Hinv Hh Hs Hex.
  pose proof (handles_fetched url expand w max_workers st node es Hh) as Hf.
  destruct (expand node es (store st)) as [s'|e] eqn:He; [|congruence].
  destruct Hf as (st1' & Hs' & Hst & _ & Hp).
  assert (st1' = st1) as -> by congruence. subst s'.
  destruct Hinv as (_ & Hnew & _).
  destruct (Hnew node) as (nd & Hn & Hch & Hfl).
  { rewrite elem_of_app. right. rewrite Hp. by left. }
  pose proof (lookup_lt_Some _ _ _ Hn) as Hlt.
  destruct (main_expand_spec _ _ _ _ _ Hn He) as (kept & Hk & Hheap & _).
  assert (Hset : settled st1 node).
  { eapply handles_settled; [apply main_expand_frame|done..]. }
  assert (Hwf1 : wf st1).
  { eapply trans_wf; [apply main_expand_frame|done|done|]. by apply step_trans. }
  destruct (exec_settled url expand w max_workers main_expand_frame Hw
              m st1 st2 node Hwf1 Hex Hset) as [_ Hsame].
  exists nd, kept. split_and!; [done|done| |].
  - rewrite Hsame, Hheap, lookup_grown, decide_True by done.
    unfold expanded. by rewrite Hch.
  - intros k e Hke.
    assert (Hc : heap (store st1) !! (length (heap (store st)) + k)
                 = Some (child_of (depth nd + 1) e)).
    { rewrite Hheap, lookup_grown, decide_False, decide_False by lia.
      replace (length (heap (store st)) + k - length (heap (store st))) with k by lia.
      by rewrite list_lookup_fmap, Hke. }
    destruct (main_exec_fields _ _ _ _ _ Hw Hwf1 Hex Hc) as (cn & Hcn & E1 & E2 & E3).
    exists cn. by rewrite E1, E2, E3.
Qed.

(** When the fetch of [node] fails and the handler runs to its end, the
    warning was written, nothing but the futures and the log changes, and
    [node] keeps no child and no flag. *)
Lemma main_handled_failed st st1 node exc :
  wait_ok w → wf st → inv st →
  handles url w st node (Failed exc) → step st = Running st1 →
  ∃ nd,
    print w (length (log st)) (url_at url (heap (store st)) node) exc = Ok ()
    ∧ store st1 = store st
    ∧ log st1 = log st ++ [(url_at url (heap (store st)) node, exc)]
    ∧ pending st ≡ₚ node :: pending st1
    ∧ heap (store st) !! node = Some nd
    ∧ children nd = [] ∧ has_file_children nd = false
    ∧ ∀ m st2, exec m st1 = Running st2 →
               heap (store st2) !! node = Some nd.
Proof.
  intros Hw Hwf Hinv Hh Hs.
  destruct (handles_failed_step url expand w max_workers st st1 node exc Hh Hs)
    as (Hpr & Hst & Hlog & Hp).
  destruct Hinv as (_ & Hnew & _).
  destruct (Hnew node) as (nd & Hn & Hch & Hfl).
  { rewrite elem_of_app. right. rewrite Hp. by left. }
  exists nd. split_and!; try done.
  intros m st2 Hex.
  assert (Hset : settled st1 node).
  { eapply handles_settled; [apply main_expand_frame|done..]. }
  assert (Hwf1 : wf st1).
  { eapply trans_wf; [apply main_expand_frame|done|done|]. by apply step_trans. }
  destruct (exec_settled url expand w max_workers main_expand_frame Hw
              m st1 st2 node Hwf1 Hex Hset) as [_ Hsame].
  by rewrite Hsame, Hst.
Qed.

(** *** The heap is the tree under the root *)

Inductive in_tree (h : list CatalogNode) : nat → Prop :=
  | in_tree_root : in_tree h 0
  | in_tree_child i nd c :
      in_tree h i → h !! i = Some nd → c ∈ children nd → in_tree h c.

Lemma main_inv_in_tree st i :
  inv st → i < length (heap (store st)) → in_tree (heap (store st)) i.
Proof.
  intros (_ & _ & _ & Hdepth & Hparent).
  induction i as [i IH] using lt_wf_ind. intros Hi.
  destruct (decide (i = 0)) as [->|Hne]; [constructor|].
  destruct (Hparent i) as (p & nd & Hp & Hc); [lia|].
  destruct (Hdepth _ _ _ Hp Hc) as [Hlt _].
  eapply in_tree_child; [|done..]. apply IH; [done|].
  by eapply lookup_lt_Some.
Qed.

(** *** Runs of [crawl] *)

(** [st] is the state of [crawl(root_name, root_url)] after [n] transitions
    of its loop. *)
Definition visits (root_name root_url : str) (n : nat) (st : State CatalogNode) : Prop :=
  ∃ normalized,
    normalize_url root_url = Ok normalized
    ∧ exec n (init root_name root_url normalized) = Running st.

Lemma main_visits_inv root_name root_url n st :
  wait_ok w → visits root_name root_url n st → wf st ∧ inv st.
Proof.
  intros Hw (x & Hx & Hex).
  eapply main_exec_inv; [done|apply main_wf_init|by apply main_inv_init|done].
Qed.

Lemma main_crawl_returns root_name root_url fuel h :
  crawl w max_workers root_name root_url fuel = Some (Ok h) →
  (0 < max_workers)%Z
  ∧ ∃ n st, (n < fuel)%nat ∧ visits root_name root_url n st
            ∧ step st = Returned st ∧ heap (store st) = h.
Proof.
  unfold crawl, visits.
  destruct (normalize_url root_url) as [x|] eqn:Hx; [|done].
  unfold executor_ok. case_bool_decide as Hmw; simpl; [|done].
  destruct (Sched.exec _ _ _ _ fuel _) as [st|st|e] eqn:Hex; try done.
  intros [= <-]. apply exec_Returned in Hex as (n & Hn & Hr & Hs).
  split; [done|]. exists n, st. split_and!; [done| |done..]. by exists x.
Qed.

(** Two nodes of the heap never have the same identity. *)
Lemma main_distinct st i j ndi ndj :
  inv st →
  heap (store st) !! i = Some ndi → heap (store st) !! j = Some ndj →
  normalize_url (url ndi) = normalize_url (url ndj) → i = j.
Proof.
  intros ((ids & Hall & Hnd & _) & _) Hi Hj Heq.
  destruct (Forall2_lookup_l _ _ _ _ _ Hall Hi) as (x & Hx & Hxi).
  destruct (Forall2_lookup_l _ _ _ _ _ Hall Hj) as (y & Hy & Hyj).
  assert (x = y) as -> by congruence.
  by eapply NoDup_lookup.
Qed.

Lemma main_seen_step a b : wf a → inv a → trans a b → seen_step url a b.
Proof.
  intros (_ & _ & _ & Href & _) (_ & Hnew & _) Ht.
  destruct Ht as [s fs nf wt lg node queue' Hq Hmw|s nf wt lg|s fs nf wt lg Hne Hor
                 |s fs nf wt lg|s fs nf wt lg future rest node fs' exc Hpop Hfe Hpr
                 |s fs nf wt lg future rest node fs' entries s' Hpop Hfe He];
    [apply seen_step_idle; simpl; [done|right; by exists node]
    |apply seen_step_idle; simpl; [done|by left]..
    |].
  unfold pending in *; simpl in *.
  apply pop_future_Permutation in Hpop.
  assert (Hp2 : fs.*2 ≡ₚ node :: fs'.*2) by (by rewrite Hpop).
  destruct (Hnew node) as (nd & Hlook & _).
  { rewrite Hp2, <-Permutation_middle. by left. }
  pose proof (lookup_lt_Some _ _ _ Hlook) as Hlt.
  destruct (main_expand_spec _ _ _ _ _ Hlook He) as (kept & Hk & Hh & Hs & Hqq).
  apply fresh_spec in Hk as (Hkn & Hnot & Hin & _).
  exists (zip (seq (length (heap s)) (length kept)) kept.*2). simpl.
  assert (Hlen : length (seq (length (heap s)) (length kept)) = length kept.*2).
  { by rewrite length_seq, length_fmap. }
  rewrite snd_zip, fst_zip by lia.
  split_and!; [done..|by eauto|].
  intros j x Hjx. apply list_elem_of_lookup in Hjx as [k Hk].
  apply lookup_zip_with_Some in Hk as (j' & x' & [= <- <-] & Hj & Hx).
  apply lookup_seq in Hj as [-> Hkl]. split; [lia|].
  rewrite list_lookup_fmap in Hx.
  destruct (kept !! k) as [[e y]|] eqn:Hke; simplify_eq/=.
  pose proof (list_elem_of_lookup_2 _ _ _ Hke) as [_ Hxe]%Hin.
  unfold url_at. rewrite Hh, lookup_grown, decide_False, decide_False by lia.
  replace (length (heap s) + k - length (heap s)) with k by lia.
  by rewrite !list_lookup_fmap, Hke.
Qed.

(** The returned heap is the heap of a state that comes after every other
    state of the run. *)
Lemma main_final root_name root_url n st st1 fuel h :
  visits root_name root_url n st → step st = Running st1 →
  crawl w max_workers root_name root_url fuel = Some (Ok h) →
  ∃ m st2, exec m st1 = Running st2 ∧ step st2 = Returned st2 ∧ heap (store st2) = h.
Proof.
  intros (x & Hx & Hn) Hs (_ & n' & st' & _ & (x' & Hx' & Hn') & Hret & <-)%main_crawl_returns.
  assert (x' = x) as -> by congruence.
  destruct (exec_later _ _ _ _ _ _ _ _ _ _ Hn Hs Hn' Hret) as [m Hm].
  by exists m, st'.
Qed.

(** In a run that returns a tree, every state inside the [for] loop has a
    next state. *)
Lemma main_returns_step root_name root_url n st fuel h :
  visits root_name root_url n st → done st ≠ None →
  crawl w max_workers root_name root_url fuel = Some (Ok h) →
  ∃ st1, step st = Running st1.
Proof.
  intros (x & Hx & Hn) Hd (_ & n' & st' & _ & (x' & Hx' & Hn') & Hret & _)%main_crawl_returns.
  assert (x' = x) as -> by congruence.
  by eapply exec_before_return.
Qed.

(** *** Termination of [crawl] *)

Lemma main_expand_total : SchedFacts.expand_total expand.
Proof.
  intros i es s Hes. unfold expand. fold (folders es).
  generalize (mkStore (alter (set_has_file_children
                (existsb (λ entry, bool_decide (entry_kind entry = FILE)) es)) i (heap s))
                (seen s) (queue s)).
  assert (Hf : ∀ e, e ∈ folders es → ∃ x, normalize_url (entry_url e) = Ok x).
  { intros e [??]%folders_spec. by apply Hes. }
  induction (folders es) as [|e l IH]; intros s0; simpl; [by eexists|].
  destruct (Hf e) as [x ->]; [by left|]. simpl.
  case_bool_decide; apply IH; intros e' He'; apply Hf; by right.
Qed.

Lemma main_closed_init (root_name root_url normalized : list N) (U : gset (list N)) :
  normalize_url root_url = Ok normalized →
  (∀ u x, reachable w root_url u → normalize_url u = Ok x → x ∈ U) →
  closed url w root_url U (init root_name root_url normalized)
  ∧ measure U (init root_name root_url normalized) = 4 * size U.
Proof.
  intros Hn HU.
  assert (Hin : normalized ∈ U) by (eapply HU; [constructor|done]).
  split.
  - split; [apply main_wf_init|]. unfold init, pending; simpl. split; [set_solver|].
    intros i ->%list_elem_of_singleton. constructor.
  - unfold measure, init; simpl.
    rewrite size_difference by set_solver. rewrite size_singleton.
    assert (size ({[normalized]} : gset (list N)) ≤ size U).
    { apply subseteq_size. set_solver. }
    rewrite size_singleton in *. lia.
Qed.

Lemma main_crawl_terminates (root_name root_url : list N) (U : gset (list N)) fuel :
  wait_ok w → (1 ≤ max_workers)%Z →
  (∀ u x, reachable w root_url u → normalize_url u = Ok x → x ∈ U) →
  4 * size U < fuel →
  is_Some (crawl w max_workers root_name root_url fuel)
  ∧ ((∀ u, reachable w root_url u → ∃ x, normalize_url u = Ok x) →
     benign w →
     ∃ h, crawl w max_workers root_name root_url fuel = Some (Ok h)).
Proof.
  intros Hw Hmw HU Hfuel. unfold crawl.
  destruct (normalize_url root_url) as [x|e] eqn:Hx.
  2:{ split; [by eexists|]. intros Hn. destruct (Hn root_url) as [y Hy]; [constructor|].
      congruence. }
  unfold executor_ok. rewrite bool_decide_eq_true_2 by lia. simpl.
  destruct (main_closed_init root_name _ _ U Hx HU) as [Hc Hm].
  split.
  - destruct (exec_terminates url expand w max_workers main_expand_frame Hw root_url
                main_expand_grow U HU ltac:(lia) fuel _ Hc ltac:(lia))
      as (k & _ & [(st' & _ & _ & ->)|[e ->]]); by eexists.
  - intros Hn Hb.
    destruct (exec_returns url expand w max_workers main_expand_frame Hw root_url
                main_expand_grow U HU ltac:(lia) main_expand_total Hn Hb fuel _ Hc ltac:(lia))
      as (k & st' & _ & _ & _ & ->). by eexists.
Qed.

(** *** The children of a handled node *)

(** The children of [nd] are, in this order, nodes made for the entries
    [es]. *)
Definition lists (h : list CatalogNode) (nd : CatalogNode) (es : list Entry) : Prop :=
  length (children nd) = length es
  ∧ ∀ k e, es !! k = Some e →
      ∃ c cn, children nd !! k = Some c ∧ h !! c = Some cn
              ∧ name cn = entry_name e ∧ url cn = entry_url e.

Lemma folders_sublist es : folders es `sublist_of` es.
Proof.
  unfold folders. induction es as [|e es IH]; simpl; [done|].
  destruct (bool_decide _); by constructor.
Qed.

Lemma has_file_spec es :
  has_file es = true ↔ ∃ e, e ∈ es ∧ entry_kind e = FILE.
Proof.
  unfold has_file. rewrite existsb_exists. split.
  - intros (e & He & Hk%bool_decide_eq_true). exists e. by rewrite list_elem_of_In.
  - intros (e & He & Hk). exists e. by rewrite <-list_elem_of_In, bool_decide_eq_true.
Qed.

(** After the page of [node] was handled with entries [es]: the children
    of [node] are nodes for the [FOLDER] entries whose identity was not in
    [seen], in the order of the page, and the flag tells whether the page
    had a [FILE] entry. No other node of the heap has the identity of one
    of these children. *)
Lemma main_handled_lists st st1 m st2 node es :
  wait_ok w → wf st → inv st →
  handles url w st node (Fetched es) →
  step st = Running st1 → exec m st1 = Running st2 →
  ∃ kept nd2,
    fresh (seen (store st)) (folders es) = Ok kept
    ∧ kept.*1 `sublist_of` es
    ∧ heap (store st2) !! node = Some nd2
    ∧ lists (heap (store st2)) nd2 kept.*1
    ∧ has_file_children nd2 = has_file es
    ∧ (∀ c, c ∈ children nd2 →
         ∃ cn y, heap (store st2) !! c = Some cn
                 ∧ normalize_url (url cn) = Ok y ∧ y ∉ seen (store st)
                 ∧ ∀ c' cn', heap (store st2) !! c' = Some cn' →
                             normalize_url (url cn') = Ok y → c' = c).
Proof.
  intros Hw Hwf Hinv Hh Hs Hex.
  assert (Hinv2 : inv st2).
  { assert (Hwf1 : wf st1 ∧ inv st1).
    { split; [eapply trans_wf; [apply main_expand_frame|done|done|]
             |eapply main_trans_inv; [done|done|]]; by apply step_trans. }
    destruct Hwf1 as [Hwf1 Hinv1].
    by destruct (main_exec_inv _ _ _ Hw Hwf1 Hinv1 Hex). }
  destruct (main_handled_fetched _ _ _ _ _ _ Hw Hwf Hinv Hh Hs Hex)
    as (nd & kept & Hn & Hk & Hn2 & Hkids).
  pose proof (fresh_spec _ _ _ Hk) as (_ & Hnot & Hin & Hsub).
  eexists kept, _. split_and!; [done| |done| |done|].
  - etrans; [done|apply folders_sublist].
  - split; simpl; [by rewrite length_seq, length_fmap|].
    intros k e Hke. destruct (Hkids _ _ Hke) as (cn & Hcn & E1 & E2 & _).
    exists (length (heap (store st)) + k), cn. split_and!; [|done..].
    apply lookup_seq. split; [done|].
    apply lookup_lt_Some in Hke. by rewrite length_fmap in Hke.
  - simpl. intros c [k Hck]%list_elem_of_lookup_1.
    apply lookup_seq in Hck as [-> Hkl].
    destruct (kept !! k) as [[e y]|] eqn:Hke.
    2:{ apply lookup_ge_None in Hke. lia. }
    destruct (Hkids k e) as (cn & Hcn & _ & E2 & _); [by rewrite list_lookup_fmap, Hke|].
    pose proof (list_elem_of_lookup_2 _ _ _ Hke) as Hey.
    assert (Hy : normalize_url (url cn) = Ok y) by (rewrite E2; by apply Hin).
    exists cn, y. split_and!; [done|done| |].
    + apply Hnot. apply list_elem_of_fmap. by exists (e, y).
    + intros c' cn' Hc' Hy'. eapply main_distinct; [done..|congruence].
Qed.

(** What holds of the heap of every later state holds of the returned heap. *)
Lemma main_later_final (P : list CatalogNode → Prop) root_name root_url n st st1 :
  visits root_name root_url n st → step st = Running st1 →
  (∀ m st2, exec m st1 = Running st2 → P (heap (store st2))) →
  ∀ fuel h, crawl w max_workers root_name root_url fuel = Some (Ok h) → P h.
Proof.
  intros Hv Hs HP fuel h Hc.
  destruct (main_final _ _ _ _ _ _ _ Hv Hs Hc) as (m & st2 & Hm & _ & <-). by eapply HP.
Qed.

(** *** The other nodes of a run that returns *)

(** What the heap [h] of a later state shows of a node [nd] whose future
    was handled in state [st] with outcome [r]. After a fetched page the
    children of [nd] are nodes for the kept entries of the page, in its
    order, and the flag tells whether the page had a [FILE] entry; after a
    failed fetch [nd] has no child and no flag. *)
Definition handled (st : State CatalogNode) (r : fetch_result)
    (h : list CatalogNode) (nd : CatalogNode) : Prop :=
  match r with
  | Fetched es =>
      ∃ kept, fresh (seen (store st)) (folders es) = Ok kept
              ∧ lists h nd kept.*1
              ∧ has_file_children nd = has_file es
  | Failed _ => children nd = [] ∧ has_file_children nd = false
  | Aborted _ => False
  end.

(** In a run that returns a tree, the future of every queued or in-flight
    node is handled in a later state, and the tree shows the node as that
    handling left it. *)
Lemma main_handled_all root_name root_url n st fuel h j :
  wait_ok w → visits root_name root_url n st →
  crawl w max_workers root_name root_url fuel = Some (Ok h) →
  j ∈ queue (store st) ++ pending st →
  ∃ n' st' r nd,
    n ≤ n' ∧ visits root_name root_url n' st' ∧ handles url w st' j r
    ∧ h !! j = Some nd ∧ handled st' r h nd.
Proof.
  intros Hw Hv Hc Hj.
  pose proof Hv as (x & Hx & Hn).
  pose proof Hc as (_ & n' & st' & _ & (x' & Hx' & Hn') & Hret & <-)%main_crawl_returns.
  assert (x' = x) as -> by congruence.
  destruct (exec_reaches_return _ _ _ _ _ _ _ _ _ Hn Hn' Hret) as (m & Hm & Hex).
  destruct (main_visits_inv _ _ _ _ Hw Hv) as [Hwf Hinv].
  destruct (exec_handles url expand w max_workers main_expand_frame Hw
              _ _ _ _ Hwf Hex Hret Hj)
    as (k & sk & sk1 & r & Hk & Hexk & Hh & Hsk & Hrest).
  assert (Hvk : visits root_name root_url (n + k) sk).
  { exists x. split; [done|]. by rewrite exec_add, Hn. }
  destruct (main_visits_inv _ _ _ _ Hw Hvk) as [Hwfk Hinvk].
  destruct r as [es|exc|i].
  - destruct (main_handled_lists _ _ _ _ _ _ Hw Hwfk Hinvk Hh Hsk Hrest)
      as (kept & nd2 & Hkept & _ & Hn2 & Hl & Hfl & _).
    exists (n + k), sk, (Fetched es), nd2. split_and!; [lia|done..|]. by exists kept.
  - destruct (main_handled_failed _ _ _ _ Hw Hwfk Hinvk Hh Hsk)
      as (nd & _ & _ & _ & _ & _ & Hch & Hfl & Hlater).
    exists (n + k), sk, (Failed exc), nd.
    split_and!; [lia|done..|by apply (Hlater _ _ Hrest)|done].
  - apply (handles_aborted url expand w max_workers) in Hh. congruence.
Qed.
End facts.
End MainFacts.

(** ** Facts about [FullCatalogCrawler] *)

Module FullFacts.
Import Full SchedFacts.
#[local] Open Scope nat_scope.

(** The child node made for an entry. *)
Definition child_of (e : Entry) : CatalogNode :=
  mkNode (entry_name e) (entry_url e) (entry_kind e) [].

(** The node [nd] after the references [new] were appended to its children. *)
Definition with_children (nd : CatalogNode) (new : list nat) : CatalogNode :=
  mkNode (name nd) (url nd) (kind nd) (children nd ++ new).

Section facts.
Context `{!HostLib}.

(** The children that [expand] puts on the queue, as pairs of the
    reference and the identity: the entry at position [k] becomes the node
    [base + k], and it is queued when it is a [FOLDER] whose identity is
    not yet in [seen]. *)
Fixpoint enqueued (seen : gset (list N)) (base : nat) (entries : list Entry)
  : result (list (nat * list N)) :=
  match entries with
  | [] => Ok []
  | e :: rest =>
      if bool_decide (entry_kind e = FOLDER) then
        x ← normalize_url (entry_url e);
        if bool_decide (x ∈ seen) then enqueued seen (S base) rest
        else kept ← enqueued ({[x]} ∪ seen) (S base) rest; Ok ((base, x) :: kept)
      else enqueued seen (S base) rest
  end.

Lemma full_expand_spec node nd es s s' :
  heap s !! node = Some nd →
  expand node es s = Ok s' →
  ∃ kept,
    enqueued (seen s) (length (heap s)) es = Ok kept
    ∧ heap s' = <[node := with_children nd (seq (length (heap s)) (length es))]> (heap s)
                ++ (child_of <$> es)
    ∧ seen s' = list_to_set kept.*2 ∪ seen s
    ∧ queue s' = queue s ++ kept.*1.
Proof.
  revert nd s. induction es as [|e es IH]; intros nd s Hnd; simpl.
  - intros [= <-]. exists []. simpl. split_and!; [done| |set_solver|by rewrite app_nil_r].
    rewrite app_nil_r. unfold with_children. rewrite app_nil_r.
    symmetry. apply list_insert_id. by destruct nd.
  - pose proof (lookup_lt_Some _ _ _ Hnd) as Hlt.
    set (h1 := alter (append_child (length (heap s))) node
                 (heap s ++ [mkNode (entry_name e) (entry_url e) (entry_kind e) []])).
    assert (Hh1 : h1 = <[node := append_child (length (heap s)) nd]> (heap s)
                       ++ [child_of e]).
    { unfold h1. rewrite alter_app_l by done.
      by rewrite (alter_lookup_Some _ _ _ _ Hnd). }
    assert (Hn1 : h1 !! node = Some (append_child (length (heap s)) nd)).
    { rewrite Hh1, lookup_app_l by (by rewrite length_insert).
      by apply list_lookup_insert_eq. }
    assert (Hl1 : length h1 = S (length (heap s))).
    { rewrite Hh1, length_app, length_insert. simpl. lia. }
    assert (Hgoal :
      heap s' = <[node := with_children (append_child (length (heap s)) nd)
                            (seq (length h1) (length es))]> h1 ++ (child_of <$> es) →
      heap s' = <[node := with_children nd (seq (length (heap s)) (S (length es)))]> (heap s)
                ++ child_of e :: (child_of <$> es)).
    { intros ->. rewrite Hl1, Hh1.
      rewrite insert_app_l by (by rewrite length_insert).
      rewrite list_insert_insert_eq, <-(assoc (++)). simpl.
      unfold with_children, append_child. simpl. by rewrite <-(assoc (++)). }
    case_bool_decide as Hk.
    + destruct (normalize_url (entry_url e)) as [x|] eqn:Hx; simpl; [|done].
      case_bool_decide as Hin; intros Hex;
        (eapply IH in Hex as (kept & Hkept & Hh & Hs & Hq); [|exact Hn1]); simpl in *;
        rewrite Hl1 in Hkept; rewrite Hkept; simpl.
      * exists kept. split_and!; [done|by apply Hgoal|done|done].
      * exists ((length (heap s), x) :: kept).
        split_and!; [done|by apply Hgoal| |].
        -- rewrite Hs. set_solver.
        -- by rewrite Hq, <-(assoc (++)).
    + intros Hex.
      eapply IH in Hex as (kept & Hkept & Hh & Hs & Hq); [|exact Hn1]. simpl in *.
      rewrite Hl1 in Hkept. exists kept.
      split_and!; [done|by apply Hgoal|done|done].
Qed.

Lemma enqueued_spec X base es kept :
  enqueued X base es = Ok kept →
  NoDup kept.*2
  ∧ (∀ x, x ∈ kept.*2 → x ∉ X)
  ∧ (∀ j x, (j, x) ∈ kept →
       base ≤ j ∧ ∃ e, es !! (j - base) = Some e ∧ entry_kind e = FOLDER
                       ∧ normalize_url (entry_url e) = Ok x)
  ∧ (∀ k e, es !! k = Some e → entry_kind e = FOLDER →
       ∃ x, normalize_url (entry_url e) = Ok x
            ∧ (x ∈ X ∨ x ∈ kept.*2)
            ∧ (x ∈ X → base + k ∉ kept.*1)).
Proof.
  revert X base kept. induction es as [|e es IH]; intros X base kept; simpl.
  - intros [= <-]. split_and!; [constructor|set_solver|set_solver|done].
  - assert (Hshift : ∀ X' kept',
      enqueued X' (S base) es = Ok kept' →
      (∀ j x, (j, x) ∈ kept' →
         S base ≤ j ∧ base ≤ j ∧ ∃ e', (e :: es) !! (j - base) = Some e'
                         ∧ entry_kind e' = FOLDER ∧ normalize_url (entry_url e') = Ok x)).
    { intros X' kept' (_ & _ & H3 & _)%IH j x (Hj & e' & He' & ? & ?)%H3.
      split; [done|]. split; [lia|]. exists e'. split; [|done].
      replace (j - base) with (S (j - S base)) by lia. done. }
    case_bool_decide as Hk.
    + destruct (normalize_url (entry_url e)) as [x|] eqn:Hx; simpl; [|done].
      case_bool_decide as Hin.
      * intros Hen. pose proof (Hshift _ _ Hen) as Hsh.
        apply IH in Hen as (H1 & H2 & H3 & H4). split_and!; [done|done| |].
        -- intros j y Hj. destruct (Hsh _ _ Hj) as (_ & ? & ?). done.
        -- intros [|k] e' Hl Hf; simpl in Hl.
           ++ simplify_eq. exists x. split_and!; [done|by left|].
              intros _ [[j y] [Hjy Hj]]%list_elem_of_fmap. simpl in Hjy.
              destruct (Hsh _ _ Hj) as (? & _). lia.
           ++ destruct (H4 _ _ Hl Hf) as (y & ? & ? & Hn). exists y.
              split_and!; [done..|]. replace (base + S k) with (S base + k) by lia. done.
      * destruct (enqueued _ (S base) es) as [kept'|] eqn:Hen; simpl; [|done].
        intros [= <-]. pose proof (Hshift _ _ Hen) as Hsh.
        apply IH in Hen as (H1 & H2 & H3 & H4). simpl. split_and!.
        -- apply NoDup_cons. split; [|done]. intros Hx'%H2. set_solver.
        -- intros y [->|Hy%H2]%elem_of_cons; [done|set_solver].
        -- intros j y [[= -> ->]|Hj]%elem_of_cons.
           ++ split; [done|]. exists e. rewrite Nat.sub_diag. done.
           ++ destruct (Hsh _ _ Hj) as (_ & ? & ?). done.
        -- intros [|k] e' Hl Hf; simpl in Hl.
           ++ simplify_eq. exists x. split_and!; [done|right; by left|done].
           ++ destruct (H4 _ _ Hl Hf) as (y & ? & Hor & Hn). exists y.
              split_and!; [done| |].
              ** destruct Hor as [[->%elem_of_singleton|?]%elem_of_union|?];
                   [right; by left|by left|right; by right].
              ** intros Hy [Heq|Hj]%elem_of_cons; [lia|].
                 replace (base + S k) with (S base + k) in Hj by lia.
                 apply Hn in Hj; [done|set_solver].
    + intros Hen. pose proof (Hshift _ _ Hen) as Hsh.
      apply IH in Hen as (H1 & H2 & H3 & H4). split_and!; [done|done| |].
      * intros j y Hj. destruct (Hsh _ _ Hj) as (_ & ? & ?). done.
      * intros [|k] e' Hl Hf; simpl in Hl; [by simplify_eq|].
        destruct (H4 _ _ Hl Hf) as (y & ? & ? & Hn). exists y.
        split_and!; [done..|]. replace (base + S k) with (S base + k) by lia. done.
Qed.

(** A queued child is made for the first entry of the page with its
    identity. *)
Lemma enqueued_first X base es kept j x :
  enqueued X base es = Ok kept → (j, x) ∈ kept →
  ∀ i e, base + i < j → es !! i = Some e → entry_kind e = FOLDER →
         normalize_url (entry_url e) ≠ Ok x.
Proof.
  revert X base kept. induction es as [|e0 es IH]; intros X base kept; simpl.
  - intros [= <-] ?%elem_of_nil. done.
  - case_bool_decide as Hk.
    + destruct (normalize_url (entry_url e0)) as [x0|] eqn:Hx0; simpl; [|done].
      case_bool_decide as Hin.
      * intros Hen Hj [|i] e Hi He Hf; simpl in He.
        -- simplify_eq. rewrite Hx0. intros [= ->].
           apply enqueued_spec in Hen as (_ & H2 & _). apply (H2 x); [|done].
           apply list_elem_of_fmap. by exists (j, x).
        -- apply (IH _ _ _ Hen Hj i e); [lia|done..].
      * destruct (enqueued _ (S base) es) as [kept'|] eqn:Hen; simpl; [|done].
        intros [= <-] [[= -> ->]|Hj]%elem_of_cons [|i] e Hi He Hf; simpl in He;
          try lia.
        -- simplify_eq. rewrite Hx0. intros [= ->].
           apply enqueued_spec in Hen as (_ & H2 & _). apply (H2 x); [|set_solver].
           apply list_elem_of_fmap. by exists (j, x).
        -- apply (IH _ _ _ Hen Hj i e); [lia|done..].
    + intros Hen Hj [|i] e Hi He Hf; simpl in He; [by simplify_eq|].
      apply (IH _ _ _ Hen Hj i e); [lia|done..].
Qed.

Lemma enqueued_NoDup X base es kept :
  enqueued X base es = Ok kept → NoDup kept.*1.
Proof.
  revert X base kept. induction es as [|e es IH]; intros X base kept; simpl.
  - intros [= <-]. constructor.
  - case_bool_decide as Hk; [|by apply IH].
    destruct (normalize_url (entry_url e)) as [x|] eqn:Hx; simpl; [|done].
    case_bool_decide as Hin; [by apply IH|].
    destruct (enqueued _ (S base) es) as [kept'|] eqn:Hen; simpl; [|done].
    intros [= <-]. simpl. apply NoDup_cons. split; [|by eapply IH].
    intros [[j y] [Hjy Hj]]%list_elem_of_fmap. simpl in Hjy. subst j.
    apply enqueued_spec in Hen as (_ & _ & H3 & _). apply H3 in Hj as [? _]. lia.
Qed.

Lemma full_expand_frame : SchedFacts.expand_frame expand.
Proof.
  intros i es s s' He Hi.
  destruct (lookup_lt_is_Some_2 _ _ Hi) as [nd Hnd].
  destruct (full_expand_spec _ _ _ _ _ Hnd He) as (kept & Hk & Hh & Hs & Hq).
  exists kept.*1.
  rewrite Hh, length_app, length_insert, length_fmap.
  split_and!; [done|by eapply enqueued_NoDup|lia| |].
  - intros j [[j' x] [-> Hj]]%list_elem_of_fmap. simpl.
    apply enqueued_spec in Hk as (_ & _ & H3 & _).
    destruct (H3 _ _ Hj) as (Hle & e & He' & _).
    apply lookup_lt_Some in He'. lia.
  - intros j Hj Hne. rewrite lookup_app_l by (by rewrite length_insert).
    by rewrite list_lookup_insert_ne.
Qed.

Lemma full_expand_grow : SchedFacts.expand_grow url expand.
Proof.
  intros i es s s' He Hi.
  destruct (lookup_lt_is_Some_2 _ _ Hi) as [nd Hnd].
  destruct (full_expand_spec _ _ _ _ _ Hnd He) as (kept & Hk & Hh & Hs & Hq).
  apply enqueued_spec in Hk as (Hkn & Hnot & Hin & _).
  split_and!.
  - intros j Hj. unfold url_at. rewrite Hh, lookup_app_l by (by rewrite length_insert).
    destruct (decide (i = j)) as [<-|Hne].
    + by rewrite list_lookup_insert_eq, Hnd.
    + by rewrite list_lookup_insert_ne.
  - rewrite Hs. set_solver.
  - rewrite Hs, Hq, size_union.
    + rewrite size_list_to_set by done. rewrite length_app, !length_fmap. lia.
    + intros x Hx%elem_of_list_to_set Hx'. by apply (Hnot x).
  - intros x. rewrite Hs, elem_of_union, elem_of_list_to_set.
    intros [Hx|Hx]; [right|by left].
    apply list_elem_of_fmap in Hx as ([j x'] & -> & Hjx). simpl.
    destruct (Hin _ _ Hjx) as (_ & e & He1 & He2 & He3).
    exists e. split_and!; [|done..]. by eapply list_elem_of_lookup_2.
  - intros j. rewrite Hq, elem_of_app.
    intros [Hj|Hj]; [by left|right].
    apply list_elem_of_fmap in Hj as ([j' x] & -> & Hjx). simpl.
    destruct (Hin _ _ Hjx) as (Hle & e & He1 & He2 & He3).
    exists e. split_and!; [by eapply list_elem_of_lookup_2|done|].
    unfold url_at. rewrite Hh, lookup_app_r by (rewrite length_insert; lia).
    by rewrite length_insert, list_lookup_fmap, He1.
Qed.

Lemma NoDup_snd_inj {A B} (l : list (A * B)) a b x :
  NoDup l.*2 → (a, x) ∈ l → (b, x) ∈ l → a = b.
Proof.
  induction l as [|[c y] l IH]; simpl; [by intros _ ?%elem_of_nil|].
  intros [Hy Hnd]%NoDup_cons Ha Hb.
  apply elem_of_cons in Ha as [Ha|Ha]; apply elem_of_cons in Hb as [Hb|Hb].
  - congruence.
  - destruct Hy. apply list_elem_of_fmap. exists (b, x). split; [simpl; congruence|done].
  - destruct Hy. apply list_elem_of_fmap. exists (a, x). split; [simpl; congruence|done].
  - by apply IH.
Qed.

(** *** The invariant of [FullCatalogCrawler.crawl] *)

Variable w : World.
Variable max_workers : Z.

Local Abbreviation step := (Sched.step url expand w max_workers).
Local Abbreviation exec := (Sched.exec url expand w max_workers).
Local Abbreviation trans := (SchedFacts.trans url expand w max_workers).

(** A node is active when it is queued, in flight, or has children. *)
Definition active (st : State CatalogNode) (i : nat) (nd : CatalogNode) : Prop :=
  i ∈ queue (store st) ++ pending st ∨ children nd ≠ [].

(** The identity of every [FOLDER] node is in [seen]; a queued or in-flight
    node is a [FOLDER] without children yet; two active nodes never have
    the same identity; only [FOLDER] nodes have children; every node except
    the root is the child of an older node. *)
Definition inv (st : State CatalogNode) : Prop :=
  let h := heap (store st) in
  (∀ i nd, h !! i = Some nd → kind nd = FOLDER →
           ∃ x, normalize_url (url nd) = Ok x ∧ x ∈ seen (store st))
  ∧ (∀ i, i ∈ queue (store st) ++ pending st →
          ∃ nd, h !! i = Some nd ∧ kind nd = FOLDER ∧ children nd = [])
  ∧ (∀ i j ndi ndj, i ≠ j → h !! i = Some ndi → h !! j = Some ndj →
          active st i ndi → active st j ndj →
          normalize_url (url ndi) ≠ normalize_url (url ndj))
  ∧ (∀ i nd, h !! i = Some nd → children nd ≠ [] → kind nd = FOLDER)
  ∧ (∀ i nd c, h !! i = Some nd → c ∈ children nd → i < c < length h)
  ∧ (∀ c, 0 < c < length h → ∃ i nd, h !! i = Some nd ∧ c ∈ children nd).

Lemma full_inv_init root_name root_url normalized :
  normalize_url root_url = Ok normalized →
  inv (init root_name root_url normalized).
Proof.
  intros Hn. unfold inv, init, active, pending; simpl. split_and!.
  - intros [|i] nd; simpl; [|done]. intros [= <-] _. simpl. exists normalized.
    split; [done|set_solver].
  - intros i ->%list_elem_of_singleton. eauto.
  - intros [|i] [|j] ndi ndj; simpl; done.
  - intros [|i] nd; simpl; [|done]. by intros [= <-].
  - intros [|i] nd c; simpl; [|done]. intros [= <-]. simpl. by intros ?%elem_of_nil.
  - intros c. lia.
Qed.

Lemma full_wf_init root_name root_url normalized :
  wf (init root_name root_url normalized).
Proof.
  unfold wf, init, pending; simpl. split_and!; try done.
  - constructor.
  - by intros ? ?%elem_of_nil.
  - apply NoDup_singleton.
  - intros i ->%list_elem_of_singleton. lia.
Qed.

Lemma full_trans_inv a b : wf a → inv a → trans a b → inv b.
Proof.
  intros (_ & _ & Hnd & Href & _) (Hid & Hnew & Hdis & Hfold & Hkids & Hparent) Ht.
  destruct Ht as [s fs nf wt lg node queue' Hq Hmw|s nf wt lg|s fs nf wt lg Hne Hor
                 |s fs nf wt lg|s fs nf wt lg future rest node fs' exc Hpop Hfe Hpr
                 |s fs nf wt lg future rest node fs' entries s' Hpop Hfe He];
    unfold inv, active, pending in *; simpl in *; try done.
  - assert (Hsame : ∀ i, i ∈ queue' ++ (fs ++ [(nf, node)]).*2 ↔ i ∈ queue s ++ fs.*2).
    { intros i. rewrite Hq, fmap_app. simpl.
      rewrite !elem_of_app, list_elem_of_singleton, elem_of_cons, elem_of_app. tauto. }
    split_and!; try done.
    + intros i Hi. by apply Hnew, Hsame.
    + intros i j ndi ndj Hne Hi Hj Hai Haj. apply (Hdis i j); try done.
      * destruct Hai as [?%Hsame|?]; auto.
      * destruct Haj as [?%Hsame|?]; auto.
  - apply pop_future_Permutation in Hpop.
    assert (Hp2 : fs.*2 ≡ₚ node :: fs'.*2) by (by rewrite Hpop).
    assert (Hsub : ∀ i, i ∈ queue s ++ fs'.*2 → i ∈ queue s ++ fs.*2).
    { intros i. rewrite Hp2, <-Permutation_middle. by right. }
    split_and!; try done.
    + intros i Hi. by apply Hnew, Hsub.
    + intros i j ndi ndj Hne Hi Hj Hai Haj. apply (Hdis i j); try done.
      * destruct Hai as [?%Hsub|?]; auto.
      * destruct Haj as [?%Hsub|?]; auto.
  - apply pop_future_Permutation in Hpop.
    assert (Hp2 : fs.*2 ≡ₚ node :: fs'.*2) by (by rewrite Hpop).
    assert (Hmem : ∀ i, i ∈ queue s ++ fs.*2 ↔ i = node ∨ i ∈ queue s ++ fs'.*2).
    { intros i. rewrite Hp2, <-Permutation_middle. apply elem_of_cons. }
    rewrite Hp2, <-Permutation_middle in Hnd.
    apply NoDup_cons in Hnd as [Hnode_out Hnd].
    destruct (Hnew node) as (nd & Hlook & Hkind & Hch); [apply Hmem; by left|].
    pose proof (lookup_lt_Some _ _ _ Hlook) as Hlt.
    destruct (full_expand_spec _ _ _ _ _ Hlook He) as (kept & Hk & Hh & Hs & Hqq).
    apply enqueued_spec in Hk as (Hkn & Hnot & Hin & Hall).
    assert (Hqmem : ∀ i, i ∈ queue s' ++ fs'.*2 ↔
                         i ∈ queue s ++ fs'.*2 ∨ i ∈ kept.*1).
    { intros i. rewrite Hqq, !elem_of_app. tauto. }
    assert (Hkept : ∀ i, i ∈ kept.*1 →
              ∃ x e, (i, x) ∈ kept ∧ length (heap s) ≤ i
                     ∧ entries !! (i - length (heap s)) = Some e
                     ∧ entry_kind e = FOLDER ∧ normalize_url (entry_url e) = Ok x).
    { intros i [[i' x] [-> Hix]]%list_elem_of_fmap. simpl.
      destruct (Hin _ _ Hix) as (? & e & ? & ? & ?). eauto 8. }
    assert (Hold : ∀ i, i ∈ queue s ++ fs'.*2 → i ≠ node ∧ i < length (heap s)).
    { intros i Hi. split; [by intros ->|]. apply Href, Hmem. by right. }
    rewrite Hh. split_and!.
    + intros i ndi. rewrite lookup_grown by done.
      destruct (decide (i = node)) as [->|Hne]; [|case_decide].
      * intros [= <-]. simpl. intros _.
        destruct (Hid _ _ Hlook Hkind) as (x & ? & ?). exists x. split; [done|].
        rewrite Hs. set_solver.
      * intros Hi Hf. destruct (Hid _ _ Hi Hf) as (x & ? & ?). exists x.
        split; [done|]. rewrite Hs. set_solver.
      * rewrite list_lookup_fmap. intros Hi Hf.
        destruct (entries !! (i - length (heap s))) as [e|] eqn:Hei; simplify_eq/=.
        destruct (Hall _ _ Hei Hf) as (x & ? & Hor & _). exists x. split; [done|].
        rewrite Hs, elem_of_union, elem_of_list_to_set. tauto.
    + intros i [Hi|Hi]%Hqmem; rewrite lookup_grown by done.
      * destruct (Hold _ Hi) as [Hne Hil].
        rewrite decide_False, decide_True by done. apply Hnew, Hmem. by right.
      * destruct (Hkept _ Hi) as (x & e & Hix & Hle & Hei & Hf & Hx).
        rewrite decide_False, decide_False by lia.
        rewrite list_lookup_fmap, Hei. simpl. eauto.
    + assert (Hcase : ∀ i ndi,
        (<[node:=with_children nd (seq (length (heap s)) (length entries))]> (heap s)
           ++ (child_of <$> entries)) !! i = Some ndi →
        i ∈ queue s' ++ fs'.*2 ∨ children ndi ≠ [] →
        (∃ ndo, heap s !! i = Some ndo ∧ url ndo = url ndi ∧ kind ndo = FOLDER
                ∧ (i ∈ queue s ++ fs.*2 ∨ children ndo ≠ []))
        ∨ (∃ x, (i, x) ∈ kept ∧ normalize_url (url ndi) = Ok x)).
      { intros i ndi. rewrite lookup_grown by done.
        destruct (decide (i = node)) as [->|Hne]; [|case_decide as Hil].
        - intros [= <-] _. left. exists nd. split_and!; [done..|]. left. apply Hmem. by left.
        - intros Hi [[Hq|Hq]%Hqmem|Hc].
          + left. exists ndi. split_and!; [done..| |].
            * destruct (Hnew i) as (nd' & ? & ? & ?); [apply Hmem; by right|]. congruence.
            * left. apply Hmem. by right.
          + destruct (Hkept _ Hq) as (? & ? & _ & ? & _). lia.
          + left. exists ndi. split_and!; [done..|by eapply Hfold|by right].
        - rewrite list_lookup_fmap.
          destruct (entries !! (i - length (heap s))) as [e|] eqn:Hei; [|done].
          intros [= <-]. simpl. intros [[Hq|Hq]%Hqmem|Hc]; [|right|done].
          + destruct (Hold _ Hq). lia.
          + destruct (Hkept _ Hq) as (x & e' & ? & _ & ? & _ & ?).
            exists x. split; [done|]. congruence. }
      intros i j ndi ndj Hne Hi Hj Hai Haj.
      destruct (Hcase _ _ Hi Hai) as [(ndi0 & Hi0 & Hui & Hki & Haci)|(xi & Hxi & Hni)];
        destruct (Hcase _ _ Hj Haj) as [(ndj0 & Hj0 & Huj & Hkj & Hacj)|(xj & Hxj & Hnj)].
      * rewrite <-Hui, <-Huj. by apply (Hdis i j).
      * rewrite <-Hui, Hnj. destruct (Hid _ _ Hi0 Hki) as (y & -> & Hy).
        intros [= ->]. apply (Hnot xj); [|done].
        apply list_elem_of_fmap. by exists (j, xj).
      * rewrite <-Huj, Hni. destruct (Hid _ _ Hj0 Hkj) as (y & -> & Hy).
        intros [= ->]. apply (Hnot y); [|done].
        apply list_elem_of_fmap. by exists (i, y).
      * rewrite Hni, Hnj. intros [= ->]. apply Hne. by eapply NoDup_snd_inj.
    + intros i ndi. rewrite lookup_grown by done.
      destruct (decide (i = node)) as [->|Hne]; [|case_decide].
      * by intros [= <-].
      * apply Hfold.
      * rewrite list_lookup_fmap.
        destruct (entries !! (i - length (heap s))) as [e|]; [|done].
        by intros [= <-].
    + intros i ndi c. rewrite lookup_grown, length_app, length_insert, length_fmap by done.
      destruct (decide (i = node)) as [->|Hne]; [|case_decide].
      * intros [= <-]. simpl. rewrite Hch. simpl. intros Hc%elem_of_seq. lia.
      * intros Hi Hc. destruct (Hkids _ _ _ Hi Hc). lia.
      * rewrite list_lookup_fmap.
        destruct (entries !! (i - length (heap s))) as [e|]; [|done].
        intros [= <-]. simpl. by intros ?%elem_of_nil.
    + intros c. rewrite length_app, length_insert, length_fmap. intros Hc.
      destruct (decide (c < length (heap s))) as [Hcl|Hcl].
      * destruct (Hparent c) as (i & ndi & Hi & Hci); [lia|].
        pose proof (lookup_lt_Some _ _ _ Hi).
        exists i. rewrite lookup_grown by done.
        destruct (decide (i = node)) as [->|_]; [|case_decide; [eauto|lia]].
        rewrite Hlook in Hi. simplify_eq. rewrite Hch in Hci. by apply elem_of_nil in Hci.
      * exists node. rewrite lookup_grown by done. rewrite decide_True by done.
        eexists. split; [done|]. simpl. rewrite elem_of_app, elem_of_seq. right. lia.
Qed.

Lemma full_exec_inv n st st' :
  wait_ok w → wf st → inv st → exec n st = Running st' → wf st' ∧ inv st'.
Proof.
  intros Hw Hwf Hinv.
  apply (exec_invariant _ _ _ _ (fun st => wf st ∧ inv st)); [|done].
  intros a b [Ha Hi] Ht. split.
  - by eapply trans_wf; [apply full_expand_frame|..].
  - by eapply full_trans_inv.
Qed.

(** *** Fields that never change *)

Lemma full_trans_fields a b i nd :
  wf a → trans a b → heap (store a) !! i = Some nd →
  ∃ nd', heap (store b) !! i = Some nd'
         ∧ name nd' = name nd ∧ url nd' = url nd ∧ kind nd' = kind nd.
Proof.
  intros (_ & _ & _ & Href & _) Ht.
  destruct Ht as [s fs nf wt lg node queue' Hq Hmw|s nf wt lg|s fs nf wt lg Hne Hor
                 |s fs nf wt lg|s fs nf wt lg future rest node fs' exc Hpop Hfe Hpr
                 |s fs nf wt lg future rest node fs' entries s' Hpop Hfe He];
    unfold pending in *; simpl in *; eauto.
  intros Hi. apply pop_future_Permutation in Hpop.
  assert (Hp2 : fs.*2 ≡ₚ node :: fs'.*2) by (by rewrite Hpop).
  assert (Hlt : node < length (heap s)).
  { apply Href. rewrite Hp2, <-Permutation_middle. by left. }
  destruct (lookup_lt_is_Some_2 _ _ Hlt) as [ndn Hn].
  destruct (full_expand_spec _ _ _ _ _ Hn He) as (kept & _ & Hh & _).
  rewrite Hh, lookup_grown by done. pose proof (lookup_lt_Some _ _ _ Hi).
  destruct (decide (i = node)) as [->|_]; [|case_decide; [eauto|lia]].
  rewrite Hn in Hi. simplify_eq. eauto.
Qed.

Lemma full_exec_fields n a b i nd :
  wait_ok w → wf a → exec n a = Running b → heap (store a) !! i = Some nd →
  ∃ nd', heap (store b) !! i = Some nd'
         ∧ name nd' = name nd ∧ url nd' = url nd ∧ kind nd' = kind nd.
Proof.
  intros Hw. revert a nd. induction n as [|n IH]; intros a nd Hwf; simpl.
  - intros [= <-]. eauto.
  - destruct (step a) as [a1| |] eqn:Hs; try done. intros Hex Hi.
    apply step_trans in Hs.
    destruct (full_trans_fields _ _ _ _ Hwf Hs Hi) as (nd1 & Hi1 & E1 & E2 & E3).
    destruct (IH a1 nd1) as (nd2 & Hi2 & F1 & F2 & F3);
      [by eapply trans_wf; [apply full_expand_frame|..]|done|done|].
    exists nd2. split; [done|]. split_and!; congruence.
Qed.

(** *** What the handling of a fetched page leaves behind *)

(** An entry of the page [es] before position [k] is a [FOLDER] with
    identity [x]: the loop over the entries has put [x] in [seen] when it
    comes to position [k]. *)
Definition earlier (es : list Entry) (k : nat) (x : list N) : Prop :=
  ∃ i e, i < k ∧ es !! i = Some e ∧ entry_kind e = FOLDER
         ∧ normalize_url (entry_url e) = Ok x.

(** When the page of [node] is handled with entries [es], every entry
    becomes a child of [node], in the order of the page, and [node] is
    never touched again. The child of an entry that is not a [FOLDER], or
    whose identity is in [seen] when the loop comes to it, is settled at
    once: it is never queued, and keeps an empty list of children. *)
Lemma full_handled_fetched st st1 m st2 node es :
  wait_ok w → wf st → inv st →
  handles url w st node (Fetched es) →
  step st = Running st1 → exec m st1 = Running st2 →
  ∃ nd,
    heap (store st) !! node = Some nd
    ∧ heap (store st2) !! node
      = Some (mkNode (name nd) (url nd) (kind nd)
                (seq (length (heap (store st))) (length es)))
    ∧ ∀ k e, es !! k = Some e →
        ∃ cn, heap (store st2) !! (length (heap (store st)) + k) = Some cn
              ∧ name cn = entry_name e ∧ url cn = entry_url e
              ∧ kind cn = entry_kind e
              ∧ ((entry_kind e ≠ FOLDER
                  ∨ ∃ x, normalize_url (entry_url e) = Ok x
                         ∧ (x ∈ seen (store st) ∨ earlier es k x)) →
                 children cn = []
                 ∧ settled st2 (length (heap (store st)) + k)).
Proof.
  intros Hw Hwf Hinv Hh Hs Hex.
  pose proof (handles_fetched url expand w max_workers st node es Hh) as Hf.
  destruct (expand node es (store st)) as [s'|e] eqn:He; [|congruence].
  destruct Hf as (st1' & Hs' & Hst & _ & Hp).
  assert (st1' = st1) as -> by congruence. subst s'.
  destruct Hinv as (_ & Hnew & _).
  destruct (Hnew node) as (nd & Hn & Hkd & Hch).
  { rewrite elem_of_app. right. rewrite Hp. by left. }
  pose proof (lookup_lt_Some _ _ _ Hn) as Hlt.
  destruct (full_expand_spec _ _ _ _ _ Hn He) as (kept & Hk & Hheap & _ & Hq).
  pose proof (fun j x => enqueued_first _ _ _ _ j x Hk) as Hfirst.
  apply enqueued_spec in Hk as (_ & _ & Hin & Hall).
  assert (Hset : settled st1 node).
  { eapply handles_settled; [apply full_expand_frame|done..]. }
  assert (Hwf1 : wf st1).
  { eapply trans_wf; [apply full_expand_frame|done|done|]. by apply step_trans. }
  destruct (exec_settled url expand w max_workers full_expand_frame Hw
              m st1 st2 node Hwf1 Hex Hset) as [_ Hsame].
  exists nd. split_and!; [done| |].
  - rewrite Hsame, Hheap, lookup_grown, decide_True by done.
    unfold with_children. by rewrite Hch.
  - intros k e Hke.
    assert (Hc : heap (store st1) !! (length (heap (store st)) + k) = Some (child_of e)).
    { rewrite Hheap, lookup_grown, decide_False, decide_False by lia.
      replace (length (heap (store st)) + k - length (heap (store st))) with k by lia.
      by rewrite list_lookup_fmap, Hke. }
    destruct (full_exec_fields _ _ _ _ _ Hw Hwf1 Hex Hc) as (cn & Hcn & E1 & E2 & E3).
    exists cn. split_and!; [done..|]. intros Hdead.
    assert (Hsetc : settled st1 (length (heap (store st)) + k)).
    { split; [by eapply lookup_lt_Some|].
      destruct Hwf as (_ & _ & _ & Href & _).
      rewrite Hq, <-(assoc (++)), elem_of_app, (elem_of_app kept.*1).
      intros [Hi|[Hi|Hi]].
      - assert (length (heap (store st)) + k < length (heap (store st))); [|lia].
        apply Href. rewrite elem_of_app. by left.
      - apply list_elem_of_fmap in Hi as ([j x] & Hj & Hjx). simpl in Hj. subst j.
        destruct (Hin _ _ Hjx) as (_ & e' & He' & Hf' & Hx').
        replace (length (heap (store st)) + k - length (heap (store st))) with k in He'
          by lia.
        assert (e' = e) as -> by congruence.
        destruct Hdead as [?|(y & Hy & [Hyin|(i & ei & Hi & Hei & Hfi & Hyi)])]; [done| |].
        ++ destruct (Hall _ _ Hke Hf') as (z & Hz & _ & Hno).
           assert (z = y) as -> by congruence.
           apply (Hno Hyin). apply list_elem_of_fmap.
           by exists (length (heap (store st)) + k, x).
        ++ assert (y = x) as -> by congruence.
           apply (Hfirst _ _ Hjx i ei); [lia|done..].
      - assert (length (heap (store st)) + k < length (heap (store st))); [|lia].
        apply Href. rewrite elem_of_app. right. rewrite Hp. by right. }
    destruct (exec_settled url expand w max_workers full_expand_frame Hw
                m st1 st2 _ Hwf1 Hex Hsetc) as [Hset2 Hsame2].
    split; [|done]. rewrite Hsame2, Hc in Hcn. by simplify_eq.
Qed.

(** When the fetch of [node] fails and the handler runs to its end, the
    warning was written, nothing but the futures and the log changes, and
    [node] keeps no children. *)
Lemma full_handled_failed st st1 node exc :
  wait_ok w → wf st → inv st →
  handles url w st node (Failed exc) → step st = Running st1 →
  ∃ nd,
    print w (length (log st)) (url_at url (heap (store st)) node) exc = Ok ()
    ∧ store st1 = store st
    ∧ log st1 = log st ++ [(url_at url (heap (store st)) node, exc)]
    ∧ pending st ≡ₚ node :: pending st1
    ∧ heap (store st) !! node = Some nd
    ∧ children nd = []
    ∧ ∀ m st2, exec m st1 = Running st2 →
               heap (store st2) !! node = Some nd.
Proof.
  intros Hw Hwf Hinv Hh Hs.
  destruct (handles_failed_step url expand w max_workers st st1 node exc Hh Hs)
    as (Hpr & Hst & Hlog & Hp).
  destruct Hinv as (_ & Hnew & _).
  destruct (Hnew node) as (nd & Hn & Hkd & Hch).
  { rewrite elem_of_app. right. rewrite Hp. by left. }
  exists nd. split_and!; try done.
  intros m st2 Hex.
  assert (Hset : settled st1 node).
  { eapply handles_settled; [apply full_expand_frame|done..]. }
  assert (Hwf1 : wf st1).
  { eapply trans_wf; [apply full_expand_frame|done|done|]. by apply step_trans. }
  destruct (exec_settled url expand w max_workers full_expand_frame Hw
              m st1 st2 node Hwf1 Hex Hset) as [_ Hsame].
  by rewrite Hsame, Hst.
Qed.

(** *** The heap is the tree under the root *)

Inductive in_tree (h : list CatalogNode) : nat → Prop :=
  | in_tree_root : in_tree h 0
  | in_tree_child i nd c :
      in_tree h i → h !! i = Some nd → c ∈ children nd → in_tree h c.

Lemma full_inv_in_tree st i :
  inv st → i < length (heap (store st)) → in_tree (heap (store st)) i.
Proof.
  intros (_ & _ & _ & _ & Hkids & Hparent).
  induction i as [i IH] using lt_wf_ind. intros Hi.
  destruct (decide (i = 0)) as [->|Hne]; [constructor|].
  destruct (Hparent i) as (p & nd & Hp & Hc); [lia|].
  destruct (Hkids _ _ _ Hp Hc) as [Hlt _].
  eapply in_tree_child; [|done..]. apply IH; [done|].
  by eapply lookup_lt_Some.
Qed.

(** *** Runs of [crawl] *)

(** [st] is the state of [crawl(root_name, root_url)] after [n] transitions
    of its loop. *)
Definition visits (root_name root_url : str) (n : nat) (st : State CatalogNode) : Prop :=
  ∃ normalized,
    normalize_url root_url = Ok normalized
    ∧ exec n (init root_name root_url normalized) = Running st.

Lemma full_visits_inv root_name root_url n st :
  wait_ok w → visits root_name root_url n st → wf st ∧ inv st.
Proof.
  intros Hw (x & Hx & Hex).
  eapply full_exec_inv; [done|apply full_wf_init|by apply full_inv_init|done].
Qed.

Lemma full_crawl_returns root_name root_url fuel h :
  crawl w max_workers root_name root_url fuel = Some (Ok h) →
  (0 < max_workers)%Z
  ∧ ∃ n st, (n < fuel)%nat ∧ visits root_name root_url n st
            ∧ step st = Returned st ∧ heap (store st) = h.
Proof.
  unfold crawl, visits.
  destruct (normalize_url root_url) as [x|] eqn:Hx; [|done].
  unfold executor_ok. case_bool_decide as Hmw; simpl; [|done].
  destruct (Sched.exec _ _ _ _ fuel _) as [st|st|e] eqn:Hex; try done.
  intros [= <-]. apply exec_Returned in Hex as (n & Hn & Hr & Hs).
  split; [done|]. exists n, st. split_and!; [done| |done..]. by exists x.
Qed.

(** Two [FOLDER] nodes with the same identity do not both have children. *)
Lemma full_distinct st i j ndi ndj :
  inv st →
  heap (store st) !! i = Some ndi → heap (store st) !! j = Some ndj →
  i ≠ j →
  normalize_url (url ndi) = normalize_url (url ndj) →
  children ndi = [] ∨ children ndj = [].
Proof.
  intros (_ & _ & Hdis & _) Hi Hj Hne Heq.
  destruct (children ndi) as [|c cs] eqn:Hci; [by left|].
  destruct (children ndj) as [|d ds] eqn:Hcj; [by right|].
  exfalso. apply (Hdis i j ndi ndj); try done.
  - right. by rewrite Hci.
  - right. by rewrite Hcj.
Qed.

Lemma full_seen_step a b : wf a → inv a → trans a b → seen_step url a b.
Proof.
  intros (_ & _ & _ & Href & _) (_ & Hnew & _) Ht.
  destruct Ht as [s fs nf wt lg node queue' Hq Hmw|s nf wt lg|s fs nf wt lg Hne Hor
                 |s fs nf wt lg|s fs nf wt lg future rest node fs' exc Hpop Hfe Hpr
                 |s fs nf wt lg future rest node fs' entries s' Hpop Hfe He];
    [apply seen_step_idle; simpl; [done|right; by exists node]
    |apply seen_step_idle; simpl; [done|by left]..
    |].
  unfold pending in *; simpl in *.
  apply pop_future_Permutation in Hpop.
  assert (Hp2 : fs.*2 ≡ₚ node :: fs'.*2) by (by rewrite Hpop).
  destruct (Hnew node) as (nd & Hlook & _).
  { rewrite Hp2, <-Permutation_middle. by left. }
  pose proof (lookup_lt_Some _ _ _ Hlook) as Hlt.
  destruct (full_expand_spec _ _ _ _ _ Hlook He) as (kept & Hk & Hh & Hs & Hqq).
  apply enqueued_spec in Hk as (Hkn & Hnot & Hin & _).
  exists kept. simpl. split_and!; [done..|by eauto|].
  intros j x Hjx. destruct (Hin _ _ Hjx) as (Hle & e & Hej & _ & Hx).
  split; [done|].
  unfold url_at. pose proof (lookup_lt_Some _ _ _ Hej).
  rewrite Hh, lookup_grown, decide_False, decide_False by lia.
  by rewrite list_lookup_fmap, Hej.
Qed.

(** The returned heap is the heap of a state that comes after every other
    state of the run. *)
Lemma full_final root_name root_url n st st1 fuel h :
  visits root_name root_url n st → step st = Running st1 →
  crawl w max_workers root_name root_url fuel = Some (Ok h) →
  ∃ m st2, exec m st1 = Running st2 ∧ step st2 = Returned st2 ∧ heap (store st2) = h.
Proof.
  intros (x & Hx & Hn) Hs (_ & n' & st' & _ & (x' & Hx' & Hn') & Hret & <-)%full_crawl_returns.
  assert (x' = x) as -> by congruence.
  destruct (exec_later _ _ _ _ _ _ _ _ _ _ Hn Hs Hn' Hret) as [m Hm].
  by exists m, st'.
Qed.

(** In a run that returns a tree, every state inside the [for] loop has a
    next state. *)
Lemma full_returns_step root_name root_url n st fuel h :
  visits root_name root_url n st → done st ≠ None →
  crawl w max_workers root_name root_url fuel = Some (Ok h) →
  ∃ st1, step st = Running st1.
Proof.
  intros (x & Hx & Hn) Hd (_ & n' & st' & _ & (x' & Hx' & Hn') & Hret & _)%full_crawl_returns.
  assert (x' = x) as -> by congruence.
  by eapply exec_before_return.
Qed.

(** *** Termination of [crawl] *)

Lemma full_expand_total : SchedFacts.expand_total expand.
Proof.
  intros i es. induction es as [|e es IH]; intros s Hes; simpl; [by eexists|].
  assert (Hrest : ∀ e', e' ∈ es → entry_kind e' = FOLDER →
                        ∃ x, normalize_url (entry_url e') = Ok x).
  { intros e' He'. apply Hes. by right. }
  case_bool_decide as Hk; [|by apply IH].
  destruct (Hes e) as [x ->]; [by left|done|]. simpl.
  case_bool_decide; by apply IH.
Qed.

Lemma full_closed_init (root_name root_url normalized : list N) (U : gset (list N)) :
  normalize_url root_url = Ok normalized →
  (∀ u x, reachable w root_url u → normalize_url u = Ok x → x ∈ U) →
  closed url w root_url U (init root_name root_url normalized)
  ∧ measure U (init root_name root_url normalized) = 4 * size U.
Proof.
  intros Hn HU.
  assert (Hin : normalized ∈ U) by (eapply HU; [constructor|done]).
  split.
  - split; [apply full_wf_init|]. unfold init, pending; simpl. split; [set_solver|].
    intros i ->%list_elem_of_singleton. constructor.
  - unfold measure, init; simpl.
    rewrite size_difference by set_solver. rewrite size_singleton.
    assert (size ({[normalized]} : gset (list N)) ≤ size U).
    { apply subseteq_size. set_solver. }
    rewrite size_singleton in *. lia.
Qed.

Lemma full_crawl_terminates (root_name root_url : list N) (U : gset (list N)) fuel :
  wait_ok w → (1 ≤ max_workers)%Z →
  (∀ u x, reachable w root_url u → normalize_url u = Ok x → x ∈ U) →
  4 * size U < fuel →
  is_Some (crawl w max_workers root_name root_url fuel)
  ∧ ((∀ u, reachable w root_url u → ∃ x, normalize_url u = Ok x) →
     benign w →
     ∃ h, crawl w max_workers root_name root_url fuel = Some (Ok h)).
Proof.
  intros Hw Hmw HU Hfuel. unfold crawl.
  destruct (normalize_url root_url) as [x|e] eqn:Hx.
  2:{ split; [by eexists|]. intros Hn. destruct (Hn root_url) as [y Hy]; [constructor|].
      congruence. }
  unfold executor_ok. rewrite bool_decide_eq_true_2 by lia. simpl.
  destruct (full_closed_init root_name _ _ U Hx HU) as [Hc Hm].
  split.
  - destruct (exec_terminates url expand w max_workers full_expand_frame Hw root_url
                full_expand_grow U HU ltac:(lia) fuel _ Hc ltac:(lia))
      as (k & _ & [(st' & _ & _ & ->)|[e ->]]); by eexists.
  - intros Hn Hb.
    destruct (exec_returns url expand w max_workers full_expand_frame Hw root_url
                full_expand_grow U HU ltac:(lia) full_expand_total Hn Hb fuel _ Hc ltac:(lia))
      as (k & st' & _ & _ & _ & ->). by eexists.
Qed.

(** *** The children of a handled node *)

(** The children of [nd] are, in this order, nodes made for the entries
    [es]. *)
Definition lists (h : list CatalogNode) (nd : CatalogNode) (es : list Entry) : Prop :=
  length (children nd) = length es
  ∧ ∀ k e, es !! k = Some e →
      ∃ c cn, children nd !! k = Some c ∧ h !! c = Some cn
              ∧ name cn = entry_name e ∧ url cn = entry_url e
              ∧ kind cn = entry_kind e.

(** After the page of [node] was handled with entries [es]: the children
    of [node] are nodes for all the entries, in the order of the page; the
    child of a [FOLDER] entry whose identity was in [seen] when the loop
    came to it has no children and is neither queued nor in flight. *)
Lemma full_handled_lists st st1 m st2 node es :
  wait_ok w → wf st → inv st →
  handles url w st node (Fetched es) →
  step st = Running st1 → exec m st1 = Running st2 →
  ∃ nd2,
    heap (store st2) !! node = Some nd2
    ∧ lists (heap (store st2)) nd2 es
    ∧ (∀ k e x, es !! k = Some e → entry_kind e = FOLDER →
         normalize_url (entry_url e) = Ok x →
         x ∈ seen (store st) ∨ earlier es k x →
         ∃ c cn, children nd2 !! k = Some c ∧ heap (store st2) !! c = Some cn
                 ∧ name cn = entry_name e ∧ url cn = entry_url e
                 ∧ kind cn = entry_kind e
                 ∧ children cn = [] ∧ settled st2 c).
Proof.
  intros Hw Hwf Hinv Hh Hs Hex.
  destruct (full_handled_fetched _ _ _ _ _ _ Hw Hwf Hinv Hh Hs Hex)
    as (nd & Hn & Hn2 & Hkids).
  eexists. split_and!; [done| |].
  - split; simpl; [by rewrite length_seq|].
    intros k e Hke. destruct (Hkids _ _ Hke) as (cn & Hcn & E1 & E2 & E3 & _).
    exists (length (heap (store st)) + k), cn. split_and!; [|done..].
    apply lookup_seq. split; [done|]. by apply lookup_lt_Some in Hke.
  - simpl. intros k e x Hke Hf Hx Hseen.
    destruct (Hkids _ _ Hke) as (cn & Hcn & E1 & E2 & E3 & Hdead).
    destruct Hdead as [Hch Hset]; [right; eauto|].
    exists (length (heap (store st)) + k), cn. split_and!; [|done..].
    apply lookup_seq. split; [done|]. by apply lookup_lt_Some in Hke.
Qed.

(** What holds of the heap of every later state holds of the returned heap. *)
Lemma full_later_final (P : list CatalogNode → Prop) root_name root_url n st st1 :
  visits root_name root_url n st → step st = Running st1 →
  (∀ m st2, exec m st1 = Running st2 → P (heap (store st2))) →
  ∀ fuel h, crawl w max_workers root_name root_url fuel = Some (Ok h) → P h.
Proof.
  intros Hv Hs HP fuel h Hc.
  destruct (full_final _ _ _ _ _ _ _ Hv Hs Hc) as (m & st2 & Hm & _ & <-). by eapply HP.
Qed.

(** *** The other nodes of a run that returns *)

(** What the heap [h] of a later state shows of a node [nd] whose future
    was handled with outcome [r]. After a fetched page the children of
    [nd] are nodes for all the entries of the page, in its order; after a
    failed fetch [nd] has no children. *)
Definition handled (r : fetch_result) (h : list CatalogNode) (nd : CatalogNode)
  : Prop :=
  match r with
  | Fetched es => lists h nd es
  | Failed _ => children nd = []
  | Aborted _ => False
  end.

(** In a run that returns a tree, the future of every queued or in-flight
    node is handled in a later state, and the tree shows the node as that
    handling left it. *)
Lemma full_handled_all root_name root_url n st fuel h j :
  wait_ok w → visits root_name root_url n st →
  crawl w max_workers root_name root_url fuel = Some (Ok h) →
  j ∈ queue (store st) ++ pending st →
  ∃ n' st' r nd,
    n ≤ n' ∧ visits root_name root_url n' st' ∧ handles url w st' j r
    ∧ h !! j = Some nd ∧ handled r h nd.
Proof.
  intros Hw Hv Hc Hj.
  pose proof Hv as (x & Hx & Hn).
  pose proof Hc as (_ & n' & st' & _ & (x' & Hx' & Hn') & Hret & <-)%full_crawl_returns.
  assert (x' = x) as -> by congruence.
  destruct (exec_reaches_return _ _ _ _ _ _ _ _ _ Hn Hn' Hret) as (m & Hm & Hex).
  destruct (full_visits_inv _ _ _ _ Hw Hv) as [Hwf Hinv].
  destruct (exec_handles url expand w max_workers full_expand_frame Hw
              _ _ _ _ Hwf Hex Hret Hj)
    as (k & sk & sk1 & r & Hk & Hexk & Hh & Hsk & Hrest).
  assert (Hvk : visits root_name root_url (n + k) sk).
  { exists x. split; [done|]. by rewrite exec_add, Hn. }
  destruct (full_visits_inv _ _ _ _ Hw Hvk) as [Hwfk Hinvk].
  destruct r as [es|exc|i].
  - destruct (full_handled_lists _ _ _ _ _ _ Hw Hwfk Hinvk Hh Hsk Hrest)
      as (nd2 & Hn2 & Hl & _).
    exists (n + k), sk, (Fetched es), nd2. split_and!; [lia|done..].
  - destruct (full_handled_failed _ _ _ _ Hw Hwfk Hinvk Hh Hsk)
      as (nd & _ & _ & _ & _ & _ & Hch & Hlater).
    exists (n + k), sk, (Failed exc), nd.
    split_and!; [lia|done..|by apply (Hlater _ _ Hrest)|done].
  - apply (handles_aborted url expand w max_workers) in Hh. congruence.
Qed.
End facts.
End FullFacts.

(** ** A small catalog on which the crawlers are run

    The root page [R] lists the folder [A] and the file [B]; the page of [A]
    lists the folder [C], whose address is that of the root with a [limit]
    parameter. [wait] returns the oldest future in flight, and every warning
    is written. *)

Module Example.

(** Host checks that accept no bracketed host and change no name. *)
Definition hosts : HostLib :=
  {| ip_address := fun _ => None; normalize_NFKC := fun s => s |}.

Definition Root : str := lit "Root".
Definition R : str := lit "http://h/R".
Definition A : str := lit "http://h/A".
Definition B : str := lit "http://h/B".
Definition C : str := lit "http://h/R?limit=5".

Definition entry_A : Entry := mkEntry (lit "A") A FOLDER.
Definition entry_B : Entry := mkEntry (lit "B") B FILE.
Definition entry_C : Entry := mkEntry (lit "C") C FOLDER.

Definition site (f : nat) (u : str) : fetch_result :=
  if bool_decide (u = R) then Fetched [entry_A; entry_B]
  else if bool_decide (u = A) then Fetched [entry_C]
  else Failed (lit "404").

Definition oldest (t : nat) (pending : list nat) : list nat := take 1 pending.

Definition written (k : nat) (url exc : str) : result unit := Ok ().

Definition world : World := mkWorld site oldest written.

(** A site whose only page lists the root again. *)
Definition loop_world : World :=
  mkWorld (fun _ _ => Fetched [entry_C]) oldest written.

(** A site whose only page lists one file. *)
Definition file_world : World :=
  mkWorld (fun _ _ => Fetched [entry_B]) oldest written.

(** A site where every fetch fails. *)
Definition down_world : World :=
  mkWorld (fun _ _ => Failed (lit "timeout")) oldest written.

(** The same site, crawled with an output stream that cannot encode the
    warning. *)
Definition mute_world : World :=
  mkWorld (fun _ _ => Failed (lit "timeout")) oldest
          (fun _ _ _ => Raise UnicodeEncodeError).

(** A site where every worker ends with [SystemExit]. *)
Definition exit_world : World :=
  mkWorld (fun _ _ => Aborted SystemExit) oldest written.

(** A site whose root page lists the folders [A] and [D]; the fetch of [A]
    fails and the page of [D] lists the file [B]. *)
Definition D : str := lit "http://h/D".
Definition entry_D : Entry := mkEntry (lit "D") D FOLDER.

Definition half_site (f : nat) (u : str) : fetch_result :=
  if bool_decide (u = R) then Fetched [entry_A; entry_D]
  else if bool_decide (u = A) then Failed (lit "timeout")
  else Fetched [entry_B].

Definition half_world : World := mkWorld half_site oldest written.

(** A site whose root page lists the folder [A] twice, the second time
    with a [limit] parameter; every other page lists the file [B]. *)
Definition A2 : str := lit "http://h/A?limit=1".
Definition entry_A2 : Entry := mkEntry (lit "A2") A2 FOLDER.

Definition twice_site (f : nat) (u : str) : fetch_result :=
  if bool_decide (u = R) then Fetched [entry_A; entry_A2] else Fetched [entry_B].

Definition twice_world : World := mkWorld twice_site oldest written.

Lemma oldest_ok fe pr : wait_ok (mkWorld fe oldest pr).
Proof.
  intros t [|f pending] Hne; [done|]. simpl. unfold oldest. simpl.
  rewrite take_0. split_and!; [done|apply NoDup_singleton|].
  intros x ->%list_elem_of_singleton. by left.
Qed.

Lemma benign_world : benign world.
Proof.
  split; [done|]. intros f u i. simpl. unfold site. by repeat case_bool_decide.
Qed.

Lemma normalize_R : @normalize_url hosts R = Ok R.
Proof. vm_compute. reflexivity. Qed.
Lemma normalize_A : @normalize_url hosts A = Ok A.
Proof. vm_compute. reflexivity. Qed.
Lemma normalize_C : @normalize_url hosts C = Ok R.
Proof. vm_compute. reflexivity. Qed.

(** The addresses reachable from [R] on [site]. *)
Lemma reachable_world u :
  SchedFacts.reachable world R u → u = R ∨ u = A ∨ u = C.
Proof.
  induction 1 as [|u f page e Hr IH Hf He Hk]; [by left|].
  simpl in Hf. unfold site in Hf.
  destruct IH as [-> | [-> | ->]].
  - rewrite bool_decide_eq_true_2 in Hf by done. simplify_eq.
    apply elem_of_cons in He as [->|He]; [right; by left|].
    apply list_elem_of_singleton in He as ->. done.
  - rewrite bool_decide_eq_false_2 in Hf by done.
    rewrite bool_decide_eq_true_2 in Hf by done. simplify_eq.
    apply list_elem_of_singleton in He as ->. right; by right.
  - rewrite bool_decide_eq_false_2 in Hf by done.
    rewrite bool_decide_eq_false_2 in Hf by done. done.
Qed.

Lemma reachable_world_ids u x :
  SchedFacts.reachable world R u → @normalize_url hosts u = Ok x →
  x ∈ ({[R; A]} : gset (list N)).
Proof.
  intros [-> | [-> | ->]]%reachable_world.
  - rewrite normalize_R. intros [= <-]. set_solver.
  - rewrite normalize_A. intros [= <-]. set_solver.
  - rewrite normalize_C. intros [= <-]. set_solver.
Qed.

Lemma size_world_ids : size ({[R; A]} : gset (list N)) = 2%nat.
Proof. rewrite size_union, !size_singleton; [done|]. set_solver. Qed.

(** The trees that the two crawlers return on [site]. *)
Definition main_tree : list Main.CatalogNode :=
  [Main.mkNode Root R 0 [1%nat] true; Main.mkNode (lit "A") A 1 [] false].

Definition full_tree : list Full.CatalogNode :=
  [Full.mkNode Root R FOLDER [1%nat; 2%nat]; Full.mkNode (lit "A") A FOLDER [3%nat];
   Full.mkNode (lit "B") B FILE []; Full.mkNode (lit "C") C FOLDER []].

Lemma main_run : @Main.crawl hosts world 2 Root R 20 = Some (Ok main_tree).
Proof. vm_compute. reflexivity. Qed.

Lemma full_run : @Full.crawl hosts world 2 Root R 20 = Some (Ok full_tree).
Proof. vm_compute. reflexivity. Qed.

(** The state of [CatalogCrawler] after the submission of the root. *)
Definition main_submitted : State Main.CatalogNode :=
  mkState (mkStore [Main.mkNode Root R 0 [] false] {[R]} []) [(0%nat, 0%nat)] 1 0 None [].

Lemma main_visits_submitted :
  @MainFacts.visits hosts world 2 Root R 1 main_submitted.
Proof. exists R. split; [exact normalize_R|]. vm_compute. reflexivity. Qed.

(** The state in which the future of the root has completed and is about
    to be handled: after the submission of the root and the call of [wait]. *)
Definition waiting {Node : Type} (root : Node) : State Node :=
  mkState (mkStore [root] {[R]} []) [(0%nat, 0%nat)] 1 1 (Some [0%nat]) [].

Definition main_root : Main.CatalogNode := Main.mkNode Root R 0 [] false.
Definition full_root : Full.CatalogNode := Full.mkNode Root R FOLDER [].

Lemma main_visits_waiting fe mw :
  (0 < mw)%Z →
  @MainFacts.visits hosts (mkWorld fe oldest written) mw Root R 2 (waiting main_root).
Proof.
  intros Hmw. exists R. split; [exact normalize_R|]. simpl. unfold step. simpl.
  rewrite bool_decide_eq_true_2 by done. reflexivity.
Qed.

Lemma full_visits_waiting fe mw :
  (0 < mw)%Z →
  @FullFacts.visits hosts (mkWorld fe oldest written) mw Root R 2 (waiting full_root).
Proof.
  intros Hmw. exists R. split; [exact normalize_R|]. simpl. unfold step. simpl.
  rewrite bool_decide_eq_true_2 by done. reflexivity.
Qed.

Lemma main_handles_waiting fe :
  SchedFacts.handles Main.url (mkWorld fe oldest written) (waiting main_root) 0 (fe 0%nat R).
Proof. by exists 0%nat, [], []. Qed.

Lemma full_handles_waiting fe :
  SchedFacts.handles Full.url (mkWorld fe oldest written) (waiting full_root) 0 (fe 0%nat R).
Proof. by exists 0%nat, [], []. Qed.

(** The trees returned on the other sites. *)
Lemma main_loop_run :
  @Main.crawl hosts loop_world 1 Root R 10 = Some (Ok [Main.mkNode Root R 0 [] false]).
Proof. vm_compute. reflexivity. Qed.

Lemma full_loop_run :
  @Full.crawl hosts loop_world 1 Root R 10
  = Some (Ok [Full.mkNode Root R FOLDER [1%nat]; Full.mkNode (lit "C") C FOLDER []]).
Proof. vm_compute. reflexivity. Qed.

Lemma main_file_run :
  @Main.crawl hosts file_world 1 Root R 10 = Some (Ok [Main.mkNode Root R 0 [] true]).
Proof. vm_compute. reflexivity. Qed.

Lemma main_down_run :
  @Main.crawl hosts down_world 1 Root R 10 = Some (Ok [Main.mkNode Root R 0 [] false]).
Proof. vm_compute. reflexivity. Qed.

(** On [mute_world] and [exit_world] no tree is returned. *)
Lemma main_mute_run :
  @Main.crawl hosts mute_world 1 Root R 10 = Some (Raise UnicodeEncodeError).
Proof. vm_compute. reflexivity. Qed.

Lemma full_mute_run :
  @Full.crawl hosts mute_world 1 Root R 10 = Some (Raise UnicodeEncodeError).
Proof. vm_compute. reflexivity. Qed.

Lemma main_exit_run :
  @Main.crawl hosts exit_world 1 Root R 10 = Some (Raise (Interrupt SystemExit)).
Proof. vm_compute. reflexivity. Qed.

Lemma full_exit_run :
  @Full.crawl hosts exit_world 1 Root R 10 = Some (Raise (Interrupt SystemExit)).
Proof. vm_compute. reflexivity. Qed.

(** The crawl of [half_world] with two workers: the state in which the
    failed future of [A] is about to be handled, with the future of [D]
    in flight, and the returned tree. *)
Definition half_state : State Main.CatalogNode :=
  mkState (mkStore [Main.mkNode Root R 0 [1%nat; 2%nat] false;
                    Main.mkNode (lit "A") A 1 [] false;
                    Main.mkNode (lit "D") D 1 [] false]
                   ({[D]} ∪ ({[A]} ∪ {[R]})) [])
          [(1%nat, 1%nat); (2%nat, 2%nat)] 3 2 (Some [1%nat]) [].

Definition half_tree : list Main.CatalogNode :=
  [Main.mkNode Root R 0 [1%nat; 2%nat] false;
   Main.mkNode (lit "A") A 1 [] false;
   Main.mkNode (lit "D") D 1 [] true].

Lemma main_visits_half : @MainFacts.visits hosts half_world 2 Root R 7 half_state.
Proof. exists R. split; [exact normalize_R|]. vm_compute. reflexivity. Qed.

Lemma main_handles_half :
  SchedFacts.handles Main.url half_world half_state 1 (Failed (lit "timeout")).
Proof. by exists 1%nat, [], [(2%nat, 2%nat)]. Qed.

Lemma main_half_run : @Main.crawl hosts half_world 2 Root R 20 = Some (Ok half_tree).
Proof. vm_compute. reflexivity. Qed.

(** The tree that [FullCatalogCrawler] returns on [twice_world]. *)
Definition twice_tree : list Full.CatalogNode :=
  [Full.mkNode Root R FOLDER [1%nat; 2%nat]; Full.mkNode (lit "A") A FOLDER [3%nat];
   Full.mkNode (lit "A2") A2 FOLDER []; Full.mkNode (lit "B") B FILE []].

Lemma normalize_A2 : @normalize_url hosts A2 = Ok A.
Proof. vm_compute. reflexivity. Qed.

Lemma full_twice_run : @Full.crawl hosts twice_world 1 Root R 20 = Some (Ok twice_tree).
Proof. vm_compute. reflexivity. Qed.

(** The parses of two of the addresses. *)
Definition parsed_R : ParseResult :=
  mkParseResult (lit "http") (lit "h") (lit "/R") [] [] [].

Lemma parse_R : @urlparse hosts R = Ok parsed_R.
Proof. vm_compute. reflexivity. Qed.

Lemma parse_C : @urlparse hosts C = Ok (replace_query parsed_R (lit "limit=5")).
Proof. vm_compute. reflexivity. Qed.

Lemma parsed_R_netloc p :
  p = parsed_R ∨ p = replace_query parsed_R (lit "limit=5") →
  netloc p ≠ [] ∨ take 2 (path p) ≠ lit "//".
Proof. intros [-> | ->]; by left. Qed.

End Example.

(** ** The properties of the crawlers *)

#[local] Open Scope nat_scope.

(** C1. In the tree returned by either crawler, two different nodes with
    the same normalized identity never both have children (for
    [CatalogCrawler] no two nodes share an identity at all). The visited set
    holds the identity of the root and only it when the loop starts, with
    the root alone on the queue; and in every transition of the loop the
    identities that enter the visited set were absent from it, are pairwise
    distinct, and each is the identity of a node created and queued in that
    same transition. *)
Theorem C1_dedup `{!HostLib} (w : World) (max_workers : Z) (root_name root_url : list N) :
  wait_ok w →
  (∀ fuel h i j ndi ndj,
     Main.crawl w max_workers root_name root_url fuel = Some (Ok h) →
     h !! i = Some ndi → h !! j = Some ndj → i ≠ j →
     normalize_url (Main.url ndi) = normalize_url (Main.url ndj) →
     Main.children ndi = [] ∨ Main.children ndj = [])
  ∧ (∀ fuel h i j ndi ndj,
     Full.crawl w max_workers root_name root_url fuel = Some (Ok h) →
     h !! i = Some ndi → h !! j = Some ndj → i ≠ j →
     normalize_url (Full.url ndi) = normalize_url (Full.url ndj) →
     Full.children ndi = [] ∨ Full.children ndj = [])
  ∧ (∀ x, seen (store (Main.init root_name root_url x)) = {[x]}
          ∧ queue (store (Main.init root_name root_url x)) = [0]
          ∧ seen (store (Full.init root_name root_url x)) = {[x]}
          ∧ queue (store (Full.init root_name root_url x)) = [0])
  ∧ (∀ n a b,
     MainFacts.visits w max_workers root_name root_url n a →
     step Main.url Main.expand w max_workers a = Running b →
     SchedFacts.seen_step Main.url a b)
  ∧ (∀ n a b,
     FullFacts.visits w max_workers root_name root_url n a →
     step Full.url Full.expand w max_workers a = Running b →
     SchedFacts.seen_step Full.url a b).
Proof.
  intros Hw. split_and!.
  - intros fuel h i j ndi ndj
      (_ & n & st & _ & Hv & _ & <-)%MainFacts.main_crawl_returns Hi Hj Hne Heq.
    destruct (MainFacts.main_visits_inv _ _ _ _ _ _ Hw Hv) as [_ Hinv].
    destruct Hne. by eapply MainFacts.main_distinct.
  - intros fuel h i j ndi ndj
      (_ & n & st & _ & Hv & _ & <-)%FullFacts.full_crawl_returns Hi Hj Hne Heq.
    destruct (FullFacts.full_visits_inv _ _ _ _ _ _ Hw Hv) as [_ Hinv].
    by eapply FullFacts.full_distinct.
  - done.
  - intros n a b Hv Hs.
    destruct (MainFacts.main_visits_inv _ _ _ _ _ _ Hw Hv) as [Hwf Hinv].
    eapply MainFacts.main_seen_step; [done..|]. by apply SchedFacts.step_trans.
  - intros n a b Hv Hs.
    destruct (FullFacts.full_visits_inv _ _ _ _ _ _ Hw Hv) as [Hwf Hinv].
    eapply FullFacts.full_seen_step; [done..|]. by apply SchedFacts.step_trans.
Qed.

(** C2. With [max_workers >= 1], in every state of the loop of either
    crawler the number of futures in flight is at most [max_workers]. *)
Theorem C2_bounded_concurrency `{!HostLib} (w : World) (max_workers : Z)
    (root_name root_url : list N) (n : nat) :
  (1 ≤ max_workers)%Z →
  (∀ st, MainFacts.visits w max_workers root_name root_url n st →
         (Z.of_nat (length (futures st)) ≤ max_workers)%Z)
  ∧ (∀ st, FullFacts.visits w max_workers root_name root_url n st →
           (Z.of_nat (length (futures st)) ≤ max_workers)%Z).
Proof.
  intros Hmw. split; intros st (x & _ & Hex);
    (eapply SchedFacts.exec_bounded in Hex; [done|]);
    unfold SchedFacts.bounded; simpl; lia.
Qed.

(** C3. When the identities of the addresses reachable from the root all
    lie in a finite set [U] and [max_workers >= 1], either crawler ends
    within [4 * size U] transitions of its loop, by returning a tree or by
    raising; it returns a tree when [normalize_url] accepts every reachable
    address, every warning is written and no future ends with an exception
    that the handler lets through. *)
Theorem C3_termination `{!HostLib} (w : World) (max_workers : Z)
    (root_name root_url : list N) (U : gset (list N)) (fuel : nat) :
  wait_ok w → (1 ≤ max_workers)%Z →
  (∀ u x, SchedFacts.reachable w root_url u → normalize_url u = Ok x → x ∈ U) →
  4 * size U < fuel →
  (is_Some (Main.crawl w max_workers root_name root_url fuel)
   ∧ is_Some (Full.crawl w max_workers root_name root_url fuel))
  ∧ ((∀ u, SchedFacts.reachable w root_url u → ∃ x, normalize_url u = Ok x) →
     benign w →
     (∃ h, Main.crawl w max_workers root_name root_url fuel = Some (Ok h))
     ∧ (∃ h, Full.crawl w max_workers root_name root_url fuel = Some (Ok h))).
Proof.
  intros Hw Hmw HU Hfuel.
  destruct (MainFacts.main_crawl_terminates w max_workers root_name root_url U fuel
              Hw Hmw HU Hfuel) as [Hm1 Hm2].
  destruct (FullFacts.full_crawl_terminates w max_workers root_name root_url U fuel
              Hw Hmw HU Hfuel) as [Hf1 Hf2].
  split; [done|]. intros Hn Hb. split; [by apply Hm2|by apply Hf2].
Qed.

(** C10. In the tree returned by [CatalogCrawler.crawl] the root has depth
    0, the depth of every child is the depth of its parent plus one, and
    every node of the heap is in the tree under the root. *)
Theorem C10_depth `{!HostLib} (w : World) (max_workers : Z)
    (root_name root_url : list N) (fuel : nat) (h : list Main.CatalogNode) :
  wait_ok w →
  Main.crawl w max_workers root_name root_url fuel = Some (Ok h) →
  (∃ root, h !! 0 = Some root ∧ Main.depth root = 0%Z)
  ∧ (∀ i nd c, h !! i = Some nd → c ∈ Main.children nd →
       ∃ cn, h !! c = Some cn ∧ Main.depth cn = (Main.depth nd + 1)%Z)
  ∧ (∀ i, i < length h → MainFacts.in_tree h i).
Proof.
  intros Hw (_ & n & st & _ & Hv & _ & <-)%MainFacts.main_crawl_returns.
  destruct (MainFacts.main_visits_inv _ _ _ _ _ _ Hw Hv) as [_ Hinv].
  split_and!.
  - apply Hinv.
  - intros i nd c Hi Hc. destruct Hinv as (_ & _ & _ & Hd & _).
    by destruct (Hd _ _ _ Hi Hc) as [_ ?].
  - intros i Hi. by apply MainFacts.main_inv_in_tree.
Qed.

Lemma C1_dedup_witness :
  wait_ok Example.world
  ∧ @Full.crawl Example.hosts Example.world 2 Example.Root Example.R 20
    = Some (Ok Example.full_tree)
  ∧ (∀ i j ndi ndj,
       Example.full_tree !! i = Some ndi → Example.full_tree !! j = Some ndj → i ≠ j →
       @normalize_url Example.hosts (Full.url ndi)
       = @normalize_url Example.hosts (Full.url ndj) →
       Full.children ndi = [] ∨ Full.children ndj = []).
Proof.
  split; [apply Example.oldest_ok|]. split; [exact Example.full_run|].
  intros i j ndi ndj.
  apply (proj1 (proj2 (@C1_dedup Example.hosts Example.world 2 Example.Root Example.R
                         (Example.oldest_ok _ _))) 20).
  exact Example.full_run.
Defined.

Lemma C2_bounded_concurrency_witness :
  (1 ≤ 2)%Z
  ∧ @MainFacts.visits Example.hosts Example.world 2 Example.Root Example.R 1
      Example.main_submitted
  ∧ (Z.of_nat (length (futures Example.main_submitted)) ≤ 2)%Z.
Proof.
  split; [lia|]. split; [exact Example.main_visits_submitted|].
  apply (proj1 (@C2_bounded_concurrency Example.hosts Example.world 2
                  Example.Root Example.R 1 ltac:(lia))).
  exact Example.main_visits_submitted.
Defined.

Lemma C3_termination_witness :
  wait_ok Example.world
  ∧ (1 ≤ 2)%Z
  ∧ (4 * size ({[Example.R; Example.A]} : gset (list N)) < 20)
  ∧ benign Example.world
  ∧ (∃ h, @Main.crawl Example.hosts Example.world 2 Example.Root Example.R 20 = Some (Ok h))
  ∧ (∃ h, @Full.crawl Example.hosts Example.world 2 Example.Root Example.R 20 = Some (Ok h)).
Proof.
  assert (Hsize : 4 * size ({[Example.R; Example.A]} : gset (list N)) < 20).
  { rewrite Example.size_world_ids. lia. }
  split; [apply Example.oldest_ok|]. split; [lia|]. split; [exact Hsize|].
  split; [exact Example.benign_world|].
  apply (proj2 (@C3_termination Example.hosts Example.world 2 Example.Root Example.R
                  {[Example.R; Example.A]} 20 (Example.oldest_ok _ _) ltac:(lia)
                  Example.reachable_world_ids Hsize)); [|exact Example.benign_world].
  intros u [-> | [-> | ->]]%Example.reachable_world.
  - exists Example.R. exact Example.normalize_R.
  - exists Example.A. exact Example.normalize_A.
  - exists Example.R. exact Example.normalize_C.
Defined.

Lemma C10_depth_witness :
  wait_ok Example.world
  ∧ @Main.crawl Example.hosts Example.world 2 Example.Root Example.R 20
    = Some (Ok Example.main_tree)
  ∧ (∃ root, Example.main_tree !! 0 = Some root ∧ Main.depth root = 0%Z)
  ∧ (∀ i nd c, Example.main_tree !! i = Some nd → c ∈ Main.children nd →
       ∃ cn, Example.main_tree !! c = Some cn ∧ Main.depth cn = (Main.depth nd + 1)%Z)
  ∧ (∀ i, i < length Example.main_tree → MainFacts.in_tree Example.main_tree i).
Proof.
  split; [apply Example.oldest_ok|]. split; [exact Example.main_run|].
  exact (@C10_depth Example.hosts Example.world 2 Example.Root Example.R 20
           Example.main_tree (Example.oldest_ok _ _) Example.main_run).
Defined.

Section pages.
Context `{!HostLib}.
Variable w : World.
Variable max_workers : Z.
Variables root_name root_url : list N.

Local Abbreviation main_visits := (MainFacts.visits w max_workers root_name root_url).
Local Abbreviation main_step := (step Main.url Main.expand w max_workers).
Local Abbreviation main_exec := (exec Main.url Main.expand w max_workers).
Local Abbreviation main_crawl := (Main.crawl w max_workers root_name root_url).
Local Abbreviation full_visits := (FullFacts.visits w max_workers root_name root_url).
Local Abbreviation full_step := (step Full.url Full.expand w max_workers).
Local Abbreviation full_exec := (exec Full.url Full.expand w max_workers).
Local Abbreviation full_crawl := (Full.crawl w max_workers root_name root_url).

(** C4, amended. When [FullCatalogCrawler] handles a page, the child made
    for a [FOLDER] entry whose identity is in [seen] when the loop over
    the entries comes to it (it was in [seen] before the page, or an
    earlier [FOLDER] entry of the page has it) is attached to the parent
    at the position of the entry, and from then on, up to the returned
    tree, it has no children and is neither queued nor in flight. When
    [CatalogCrawler] handles a page, such an entry gets no child node:
    every child of the parent has an identity that was not in [seen]
    before the page, and no other node has that identity. *)
Theorem C4_seen_folder_entry (n : nat) :
  wait_ok w →
  (∀ st st1 node es k e x,
     full_visits n st → SchedFacts.handles Full.url w st node (Fetched es) →
     full_step st = Running st1 →
     es !! k = Some e → entry_kind e = FOLDER →
     normalize_url (entry_url e) = Ok x →
     x ∈ seen (store st) ∨ FullFacts.earlier es k x →
     (∀ m st2, full_exec m st1 = Running st2 →
        ∃ nd2 c cn,
          heap (store st2) !! node = Some nd2 ∧ Full.children nd2 !! k = Some c
          ∧ heap (store st2) !! c = Some cn
          ∧ Full.name cn = entry_name e ∧ Full.url cn = entry_url e
          ∧ Full.kind cn = entry_kind e
          ∧ Full.children cn = [] ∧ SchedFacts.settled st2 c)
     ∧ (∀ fuel h, full_crawl fuel = Some (Ok h) →
        ∃ nd2 c cn,
          h !! node = Some nd2 ∧ Full.children nd2 !! k = Some c ∧ h !! c = Some cn
          ∧ Full.name cn = entry_name e ∧ Full.url cn = entry_url e
          ∧ Full.kind cn = entry_kind e
          ∧ Full.children cn = []))
  ∧ (∀ st st1 node es,
     main_visits n st → SchedFacts.handles Main.url w st node (Fetched es) →
     main_step st = Running st1 →
     (∀ m st2, main_exec m st1 = Running st2 →
        ∃ nd2, heap (store st2) !! node = Some nd2
               ∧ ∀ c, c ∈ Main.children nd2 →
                   ∃ cn y, heap (store st2) !! c = Some cn
                           ∧ normalize_url (Main.url cn) = Ok y ∧ y ∉ seen (store st)
                           ∧ ∀ c' cn', heap (store st2) !! c' = Some cn' →
                                       normalize_url (Main.url cn') = Ok y → c' = c)
     ∧ (∀ fuel h, main_crawl fuel = Some (Ok h) →
        ∃ nd2, h !! node = Some nd2
               ∧ ∀ c, c ∈ Main.children nd2 →
                   ∃ cn y, h !! c = Some cn
                           ∧ normalize_url (Main.url cn) = Ok y ∧ y ∉ seen (store st)
                           ∧ ∀ c' cn', h !! c' = Some cn' →
                                       normalize_url (Main.url cn') = Ok y → c' = c)).
Proof.
  intros Hw. split.
  - intros st st1 node es k e x Hv Hh Hs Hk Hf Hx Hseen.
    destruct (FullFacts.full_visits_inv _ _ _ _ _ _ Hw Hv) as [Hwf Hinv].
    assert (Hlater : ∀ m st2, full_exec m st1 = Running st2 →
        ∃ nd2 c cn,
          heap (store st2) !! node = Some nd2 ∧ Full.children nd2 !! k = Some c
          ∧ heap (store st2) !! c = Some cn
          ∧ Full.name cn = entry_name e ∧ Full.url cn = entry_url e
          ∧ Full.kind cn = entry_kind e
          ∧ Full.children cn = [] ∧ SchedFacts.settled st2 c).
    { intros m st2 Hex.
      destruct (FullFacts.full_handled_lists _ _ _ _ _ _ _ _ Hw Hwf Hinv Hh Hs Hex)
        as (nd2 & Hn2 & _ & Hdead).
      destruct (Hdead _ _ _ Hk Hf Hx Hseen) as (c & cn & ?). by exists nd2, c, cn. }
    split; [done|].
    apply (FullFacts.full_later_final w max_workers
             (fun h => ∃ nd2 c cn, h !! node = Some nd2 ∧ Full.children nd2 !! k = Some c
                ∧ h !! c = Some cn ∧ Full.name cn = entry_name e
                ∧ Full.url cn = entry_url e ∧ Full.kind cn = entry_kind e
                ∧ Full.children cn = []) _ _ _ _ _ Hv Hs).
    intros m st2 Hex. destruct (Hlater _ _ Hex) as (nd2 & c & cn & ?).
    exists nd2, c, cn. intuition.
  - intros st st1 node es Hv Hh Hs.
    destruct (MainFacts.main_visits_inv _ _ _ _ _ _ Hw Hv) as [Hwf Hinv].
    assert (Hlater : ∀ m st2, main_exec m st1 = Running st2 →
        ∃ nd2, heap (store st2) !! node = Some nd2
               ∧ ∀ c, c ∈ Main.children nd2 →
                   ∃ cn y, heap (store st2) !! c = Some cn
                           ∧ normalize_url (Main.url cn) = Ok y ∧ y ∉ seen (store st)
                           ∧ ∀ c' cn', heap (store st2) !! c' = Some cn' →
                                       normalize_url (Main.url cn') = Ok y → c' = c).
    { intros m st2 Hex.
      destruct (MainFacts.main_handled_lists _ _ _ _ _ _ _ _ Hw Hwf Hinv Hh Hs Hex)
        as (kept & nd2 & _ & _ & Hn2 & _ & _ & Hnew).
      by exists nd2. }
    split; [done|].
    by apply (MainFacts.main_later_final w max_workers
             (fun h => ∃ nd2, h !! node = Some nd2
                ∧ ∀ c, c ∈ Main.children nd2 →
                    ∃ cn y, h !! c = Some cn
                            ∧ normalize_url (Main.url cn) = Ok y ∧ y ∉ seen (store st)
                            ∧ ∀ c' cn', h !! c' = Some cn' →
                                        normalize_url (Main.url cn') = Ok y → c' = c)
             _ _ _ _ _ Hv Hs).
Qed.

(** C5, amended. When [FullCatalogCrawler] handles a page with entries
    [es], the children of the node are, from then on and in the returned
    tree, nodes for all the entries of [es], in the order of the page.
    When [CatalogCrawler] handles it, the children are nodes for the
    entries [kept] only: the [FOLDER] entries whose identity was not yet in
    [seen], in the order of the page. *)
Theorem C5_children_order (n : nat) :
  wait_ok w →
  (∀ st st1 node es,
     full_visits n st → SchedFacts.handles Full.url w st node (Fetched es) →
     full_step st = Running st1 →
     (∀ m st2, full_exec m st1 = Running st2 →
        ∃ nd2, heap (store st2) !! node = Some nd2
               ∧ FullFacts.lists (heap (store st2)) nd2 es)
     ∧ (∀ fuel h, full_crawl fuel = Some (Ok h) →
        ∃ nd2, h !! node = Some nd2 ∧ FullFacts.lists h nd2 es))
  ∧ (∀ st st1 node es,
     main_visits n st → SchedFacts.handles Main.url w st node (Fetched es) →
     main_step st = Running st1 →
     ∃ kept,
       MainFacts.fresh (seen (store st)) (MainFacts.folders es) = Ok kept
       ∧ kept.*1 `sublist_of` es
       ∧ (∀ m st2, main_exec m st1 = Running st2 →
            ∃ nd2, heap (store st2) !! node = Some nd2
                   ∧ MainFacts.lists (heap (store st2)) nd2 kept.*1)
       ∧ (∀ fuel h, main_crawl fuel = Some (Ok h) →
            ∃ nd2, h !! node = Some nd2 ∧ MainFacts.lists h nd2 kept.*1)).
Proof.
  intros Hw. split.
  - intros st st1 node es Hv Hh Hs.
    destruct (FullFacts.full_visits_inv _ _ _ _ _ _ Hw Hv) as [Hwf Hinv].
    assert (Hlater : ∀ m st2, full_exec m st1 = Running st2 →
        ∃ nd2, heap (store st2) !! node = Some nd2
               ∧ FullFacts.lists (heap (store st2)) nd2 es).
    { intros m st2 Hex.
      destruct (FullFacts.full_handled_lists _ _ _ _ _ _ _ _ Hw Hwf Hinv Hh Hs Hex)
        as (nd2 & Hn2 & Hl & _). by exists nd2. }
    split; [done|].
    by apply (FullFacts.full_later_final w max_workers
             (fun h => ∃ nd2, h !! node = Some nd2 ∧ FullFacts.lists h nd2 es)
             _ _ _ _ _ Hv Hs).
  - intros st st1 node es Hv Hh Hs.
    destruct (MainFacts.main_visits_inv _ _ _ _ _ _ Hw Hv) as [Hwf Hinv].
    destruct (MainFacts.main_handled_lists w max_workers st st1 0 st1 node es
                Hw Hwf Hinv Hh Hs eq_refl) as (kept & _ & Hk & Hsub & _).
    exists kept. split; [done|]. split; [done|].
    assert (Hlater : ∀ m st2, main_exec m st1 = Running st2 →
        ∃ nd2, heap (store st2) !! node = Some nd2
               ∧ MainFacts.lists (heap (store st2)) nd2 kept.*1).
    { intros m st2 Hex.
      destruct (MainFacts.main_handled_lists _ _ _ _ _ _ _ _ Hw Hwf Hinv Hh Hs Hex)
        as (kept' & nd2 & Hk' & _ & Hn2 & Hl & _).
      assert (kept' = kept) as -> by congruence. by exists nd2. }
    split; [done|].
    by apply (MainFacts.main_later_final w max_workers
             (fun h => ∃ nd2, h !! node = Some nd2 ∧ MainFacts.lists h nd2 kept.*1)
             _ _ _ _ _ Hv Hs).
Qed.

(** C6, amended. When the fetch of a node fails with an [Exception] and
    the warning of the handler is written, in either crawler: the loop
    goes on; the heap, [seen] and the queue are unchanged and the other
    futures stay in flight; the warning enters the log; the node, from
    then on and in the returned tree, has no children (and, in
    [CatalogCrawler], [has_file_children = false]); and in a run that
    returns a tree, the future of every other node that was queued or in
    flight is handled in a later state, and the tree shows that node as
    the handling of its own outcome left it: with the children and the
    flag of its page when its fetch succeeded. When the warning is not
    written, what [print] raises leaves [crawl]; and when the fetch ends
    with an exception that is not an [Exception], that exception leaves
    [crawl]: in both cases no tree is returned. *)
Theorem C6_fetch_failure (n : nat) :
  wait_ok w →
  (∀ st node exc,
     main_visits n st → SchedFacts.handles Main.url w st node (Failed exc) →
     print w (length (log st)) (url_at Main.url (heap (store st)) node) exc = Ok () →
     ∃ st1 nd,
       main_step st = Running st1
       ∧ store st1 = store st
       ∧ log st1 = log st ++ [(url_at Main.url (heap (store st)) node, exc)]
       ∧ SchedFacts.pending st ≡ₚ node :: SchedFacts.pending st1
       ∧ Main.children nd = [] ∧ Main.has_file_children nd = false
       ∧ (∀ m st2, main_exec m st1 = Running st2 → heap (store st2) !! node = Some nd)
       ∧ (∀ fuel h, main_crawl fuel = Some (Ok h) →
            h !! node = Some nd
            ∧ ∀ j, j ∈ queue (store st) ++ SchedFacts.pending st → j ≠ node →
                ∃ n' st' r ndj,
                  n < n' ∧ main_visits n' st'
                  ∧ SchedFacts.handles Main.url w st' j r
                  ∧ h !! j = Some ndj ∧ MainFacts.handled st' r h ndj))
  ∧ (∀ st node exc e,
     (0 < max_workers)%Z →
     main_visits n st → SchedFacts.handles Main.url w st node (Failed exc) →
     print w (length (log st)) (url_at Main.url (heap (store st)) node) exc = Raise e →
     ∀ fuel, n < fuel → main_crawl fuel = Some (Raise e))
  ∧ (∀ st node i,
     (0 < max_workers)%Z →
     main_visits n st → SchedFacts.handles Main.url w st node (Aborted i) →
     ∀ fuel, n < fuel → main_crawl fuel = Some (Raise (Interrupt i)))
  ∧ (∀ st node exc,
     full_visits n st → SchedFacts.handles Full.url w st node (Failed exc) →
     print w (length (log st)) (url_at Full.url (heap (store st)) node) exc = Ok () →
     ∃ st1 nd,
       full_step st = Running st1
       ∧ store st1 = store st
       ∧ log st1 = log st ++ [(url_at Full.url (heap (store st)) node, exc)]
       ∧ SchedFacts.pending st ≡ₚ node :: SchedFacts.pending st1
       ∧ Full.children nd = []
       ∧ (∀ m st2, full_exec m st1 = Running st2 → heap (store st2) !! node = Some nd)
       ∧ (∀ fuel h, full_crawl fuel = Some (Ok h) →
            h !! node = Some nd
            ∧ ∀ j, j ∈ queue (store st) ++ SchedFacts.pending st → j ≠ node →
                ∃ n' st' r ndj,
                  n < n' ∧ full_visits n' st'
                  ∧ SchedFacts.handles Full.url w st' j r
                  ∧ h !! j = Some ndj ∧ FullFacts.handled r h ndj))
  ∧ (∀ st node exc e,
     (0 < max_workers)%Z →
     full_visits n st → SchedFacts.handles Full.url w st node (Failed exc) →
     print w (length (log st)) (url_at Full.url (heap (store st)) node) exc = Raise e →
     ∀ fuel, n < fuel → full_crawl fuel = Some (Raise e))
  ∧ (∀ st node i,
     (0 < max_workers)%Z →
     full_visits n st → SchedFacts.handles Full.url w st node (Aborted i) →
     ∀ fuel, n < fuel → full_crawl fuel = Some (Raise (Interrupt i))).
Proof.
  intros Hw. split_and!.
  - intros st node exc Hv Hh Hpr.
    destruct (MainFacts.main_visits_inv _ _ _ _ _ _ Hw Hv) as [Hwf Hinv].
    pose proof (SchedFacts.handles_failed Main.url Main.expand w max_workers
                  st node exc Hh) as Hf.
    rewrite Hpr in Hf. destruct Hf as (st1 & Hs & _).
    destruct (MainFacts.main_handled_failed w max_workers _ _ _ _ Hw Hwf Hinv Hh Hs)
      as (nd & _ & Hst & Hlog & Hp & Hn & Hch & Hfl & Hlater).
    exists st1, nd. split_and!; try done.
    intros fuel h Hc. split.
    + by apply (MainFacts.main_later_final w max_workers
                  (fun h => h !! node = Some nd) _ _ _ _ _ Hv Hs Hlater fuel).
    + intros j Hj Hne.
      assert (Hv1 : main_visits (S n) st1).
      { destruct Hv as (x & Hx & Hex). exists x. split; [done|].
        by rewrite (SchedFacts.exec_S_Running _ _ _ _ _ _ _ Hex). }
      assert (Hj1 : j ∈ queue (store st1) ++ SchedFacts.pending st1).
      { rewrite Hst. rewrite elem_of_app in Hj |- *.
        destruct Hj as [?|Hj]; [by left|right].
        rewrite Hp in Hj. by apply elem_of_cons in Hj as [->|]. }
      destruct (MainFacts.main_handled_all w max_workers _ _ _ _ _ _ _ Hw Hv1 Hc Hj1)
        as (n' & st' & r & ndj & Hle & ?).
      exists n', st', r, ndj. split; [lia|done].
  - intros st node exc e Hmw (x & Hx & Hex) Hh Hpr fuel Hf.
    pose proof (SchedFacts.handles_failed Main.url Main.expand w max_workers
                  st node exc Hh) as Hs.
    rewrite Hpr in Hs. unfold Main.crawl, executor_ok.
    rewrite Hx, bool_decide_eq_true_2 by done. simpl.
    by rewrite (SchedFacts.exec_raises _ _ _ _ _ _ _ _ _ Hex Hs Hf).
  - intros st node i Hmw (x & Hx & Hex) Hh fuel Hf.
    apply (SchedFacts.handles_aborted Main.url Main.expand w max_workers) in Hh.
    unfold Main.crawl, executor_ok.
    rewrite Hx, bool_decide_eq_true_2 by done. simpl.
    by rewrite (SchedFacts.exec_raises _ _ _ _ _ _ _ _ _ Hex Hh Hf).
  - intros st node exc Hv Hh Hpr.
    destruct (FullFacts.full_visits_inv _ _ _ _ _ _ Hw Hv) as [Hwf Hinv].
    pose proof (SchedFacts.handles_failed Full.url Full.expand w max_workers
                  st node exc Hh) as Hf.
    rewrite Hpr in Hf. destruct Hf as (st1 & Hs & _).
    destruct (FullFacts.full_handled_failed w max_workers _ _ _ _ Hw Hwf Hinv Hh Hs)
      as (nd & _ & Hst & Hlog & Hp & Hn & Hch & Hlater).
    exists st1, nd. split_and!; try done.
    intros fuel h Hc. split.
    + by apply (FullFacts.full_later_final w max_workers
                  (fun h => h !! node = Some nd) _ _ _ _ _ Hv Hs Hlater fuel).
    + intros j Hj Hne.
      assert (Hv1 : full_visits (S n) st1).
      { destruct Hv as (x & Hx & Hex). exists x. split; [done|].
        by rewrite (SchedFacts.exec_S_Running _ _ _ _ _ _ _ Hex). }
      assert (Hj1 : j ∈ queue (store st1) ++ SchedFacts.pending st1).
      { rewrite Hst. rewrite elem_of_app in Hj |- *.
        destruct Hj as [?|Hj]; [by left|right].
        rewrite Hp in Hj. by apply elem_of_cons in Hj as [->|]. }
      destruct (FullFacts.full_handled_all w max_workers _ _ _ _ _ _ _ Hw Hv1 Hc Hj1)
        as (n' & st' & r & ndj & Hle & ?).
      exists n', st', r, ndj. split; [lia|done].
  - intros st node exc e Hmw (x & Hx & Hex) Hh Hpr fuel Hf.
    pose proof (SchedFacts.handles_failed Full.url Full.expand w max_workers
                  st node exc Hh) as Hs.
    rewrite Hpr in Hs. unfold Full.crawl, executor_ok.
    rewrite Hx, bool_decide_eq_true_2 by done. simpl.
    by rewrite (SchedFacts.exec_raises _ _ _ _ _ _ _ _ _ Hex Hs Hf).
  - intros st node i Hmw (x & Hx & Hex) Hh fuel Hf.
    apply (SchedFacts.handles_aborted Full.url Full.expand w max_workers) in Hh.
    unfold Full.crawl, executor_ok.
    rewrite Hx, bool_decide_eq_true_2 by done. simpl.
    by rewrite (SchedFacts.exec_raises _ _ _ _ _ _ _ _ _ Hex Hh Hf).
Qed.

(** C7, amended. In [CatalogCrawler]: a node that is queued or in flight
    has [has_file_children = false]; when its page is handled with entries
    [es], the flag is, from then on and in the returned tree, true exactly
    when [es] has a [FILE] entry (no node is made for such an entry); when
    its fetch fails the flag is false in the returned tree. *)
Theorem C7_has_file_children (n : nat) :
  wait_ok w →
  (∀ st i, main_visits n st → i ∈ queue (store st) ++ SchedFacts.pending st →
     ∃ nd, heap (store st) !! i = Some nd ∧ Main.has_file_children nd = false)
  ∧ (∀ st st1 node es,
     main_visits n st → SchedFacts.handles Main.url w st node (Fetched es) →
     main_step st = Running st1 →
     (∀ m st2, main_exec m st1 = Running st2 →
        ∃ nd2, heap (store st2) !! node = Some nd2
               ∧ (Main.has_file_children nd2 = true
                  ↔ ∃ e, e ∈ es ∧ entry_kind e = FILE))
     ∧ (∀ fuel h, main_crawl fuel = Some (Ok h) →
        ∃ nd2, h !! node = Some nd2
               ∧ (Main.has_file_children nd2 = true
                  ↔ ∃ e, e ∈ es ∧ entry_kind e = FILE)))
  ∧ (∀ st node exc,
     main_visits n st → SchedFacts.handles Main.url w st node (Failed exc) →
     ∀ fuel h, main_crawl fuel = Some (Ok h) →
       ∃ nd, h !! node = Some nd ∧ Main.has_file_children nd = false).
Proof.
  intros Hw. split_and!.
  - intros st i Hv Hi.
    destruct (MainFacts.main_visits_inv _ _ _ _ _ _ Hw Hv) as [_ (_ & Hnew & _)].
    destruct (Hnew i Hi) as (nd & ? & _ & ?). by exists nd.
  - intros st st1 node es Hv Hh Hs.
    destruct (MainFacts.main_visits_inv _ _ _ _ _ _ Hw Hv) as [Hwf Hinv].
    assert (Hlater : ∀ m st2, main_exec m st1 = Running st2 →
        ∃ nd2, heap (store st2) !! node = Some nd2
               ∧ (Main.has_file_children nd2 = true
                  ↔ ∃ e, e ∈ es ∧ entry_kind e = FILE)).
    { intros m st2 Hex.
      destruct (MainFacts.main_handled_lists _ _ _ _ _ _ _ _ Hw Hwf Hinv Hh Hs Hex)
        as (kept & nd2 & _ & _ & Hn2 & _ & Hfl & _).
      exists nd2. split; [done|]. rewrite Hfl. apply MainFacts.has_file_spec. }
    split; [done|].
    by apply (MainFacts.main_later_final w max_workers
             (fun h => ∃ nd2, h !! node = Some nd2
                ∧ (Main.has_file_children nd2 = true
                   ↔ ∃ e, e ∈ es ∧ entry_kind e = FILE)) _ _ _ _ _ Hv Hs).
  - intros st node exc Hv Hh fuel h Hc.
    destruct (MainFacts.main_visits_inv _ _ _ _ _ _ Hw Hv) as [Hwf Hinv].
    assert (Hd : done st ≠ None).
    { destruct Hh as (future & rest & fs' & -> & _). done. }
    destruct (MainFacts.main_returns_step w max_workers _ _ _ _ _ _ Hv Hd Hc)
      as [st1 Hs].
    destruct (MainFacts.main_handled_failed w max_workers _ _ _ _ Hw Hwf Hinv Hh Hs)
      as (nd & _ & Hst & Hlog & Hp & Hn & Hch & Hfl & Hlater).
    exists nd. split; [|done].
    by apply (MainFacts.main_later_final w max_workers
             (fun h => h !! node = Some nd) _ _ _ _ _ Hv Hs Hlater fuel).
Qed.

End pages.

(** C4 fails for [CatalogCrawler]: the only page lists a [FOLDER] entry
    whose identity is that of the root, already in [seen]; the returned
    root has no child for it. *)
Lemma C4_counterexample :
  fetch Example.loop_world 0 Example.R = Fetched [Example.entry_C]
  ∧ entry_kind Example.entry_C = FOLDER
  ∧ @normalize_url Example.hosts (entry_url Example.entry_C) = Ok Example.R
  ∧ Example.R ∈ seen (store (Main.init Example.Root Example.R Example.R))
  ∧ @Main.crawl Example.hosts Example.loop_world 1 Example.Root Example.R 10
    = Some (Ok [Main.mkNode Example.Root Example.R 0 [] false])
  ∧ ¬ (∃ nd c, [Main.mkNode Example.Root Example.R 0 [] false] !! 0 = Some nd
               ∧ c ∈ Main.children nd).
Proof.
  split_and!; [done|done|exact Example.normalize_C| |exact Example.main_loop_run|].
  - simpl. by apply elem_of_singleton.
  - intros (nd & c & [= <-] & Hc). simpl in Hc. by apply elem_of_nil in Hc.
Qed.

Lemma C4_seen_folder_entry_witness :
  wait_ok Example.twice_world
  ∧ @FullFacts.visits Example.hosts Example.twice_world 1 Example.Root Example.R 2
      (Example.waiting Example.full_root)
  ∧ SchedFacts.handles Full.url Example.twice_world (Example.waiting Example.full_root) 0
      (Fetched [Example.entry_A; Example.entry_A2])
  ∧ @normalize_url Example.hosts (entry_url Example.entry_A2) = Ok Example.A
  ∧ @FullFacts.earlier Example.hosts [Example.entry_A; Example.entry_A2] 1 Example.A
  ∧ ∃ nd2 c cn,
      Example.twice_tree !! 0 = Some nd2
      ∧ Full.children nd2 !! 1 = Some c
      ∧ Example.twice_tree !! c = Some cn
      ∧ Full.name cn = entry_name Example.entry_A2
      ∧ Full.url cn = entry_url Example.entry_A2
      ∧ Full.kind cn = entry_kind Example.entry_A2
      ∧ Full.children cn = [].
Proof.
  assert (Hv := Example.full_visits_waiting Example.twice_site 1 ltac:(lia)).
  assert (Hh := Example.full_handles_waiting Example.twice_site).
  assert (He : @FullFacts.earlier Example.hosts
                 [Example.entry_A; Example.entry_A2] 1 Example.A).
  { exists 0, Example.entry_A.
    split; [lia|]. split; [reflexivity|]. split; [reflexivity|exact Example.normalize_A]. }
  split; [apply Example.oldest_ok|]. split; [exact Hv|]. split; [exact Hh|].
  split; [exact Example.normalize_A2|]. split; [exact He|].
  assert (Hs : ∃ st1, step Full.url (@Full.expand Example.hosts) Example.twice_world 1
                        (Example.waiting Example.full_root) = Running st1).
  { vm_compute. eexists. reflexivity. }
  destruct Hs as [st1 Hs].
  apply (proj2 (proj1 (@C4_seen_folder_entry Example.hosts Example.twice_world 1
                         Example.Root Example.R 2 (Example.oldest_ok _ _))
                  _ st1 0 [Example.entry_A; Example.entry_A2] 1 Example.entry_A2
                  Example.A Hv Hh Hs eq_refl eq_refl Example.normalize_A2
                  (or_intror He)) 20).
  exact Example.full_twice_run.
Defined.

(** C5 fails for [CatalogCrawler]: the page of the root has two entries,
    the returned root has one child. *)
Lemma C5_counterexample :
  fetch Example.world 0 Example.R = Fetched [Example.entry_A; Example.entry_B]
  ∧ @Main.crawl Example.hosts Example.world 2 Example.Root Example.R 20
    = Some (Ok Example.main_tree)
  ∧ ¬ (∃ nd, Example.main_tree !! 0 = Some nd
             ∧ length (Main.children nd) = length [Example.entry_A; Example.entry_B]).
Proof.
  split_and!; [done|exact Example.main_run|].
  by intros (nd & [= <-] & Hl).
Qed.

Lemma C5_children_order_witness :
  wait_ok Example.world
  ∧ @FullFacts.visits Example.hosts Example.world 2 Example.Root Example.R 2
      (Example.waiting Example.full_root)
  ∧ SchedFacts.handles Full.url Example.world (Example.waiting Example.full_root) 0
      (Fetched [Example.entry_A; Example.entry_B])
  ∧ ∃ nd2, Example.full_tree !! 0 = Some nd2
           ∧ FullFacts.lists Example.full_tree nd2 [Example.entry_A; Example.entry_B].
Proof.
  assert (Hv := Example.full_visits_waiting Example.site 2 ltac:(lia)).
  assert (Hh := Example.full_handles_waiting Example.site).
  split; [apply Example.oldest_ok|]. split; [exact Hv|]. split; [exact Hh|].
  assert (Hs : ∃ st1, step Full.url (@Full.expand Example.hosts) Example.world 2
                        (Example.waiting Example.full_root) = Running st1).
  { vm_compute. eexists. reflexivity. }
  destruct Hs as [st1 Hs].
  apply (proj2 (proj1 (@C5_children_order Example.hosts Example.world 2
                         Example.Root Example.R 2 (Example.oldest_ok _ _))
                  _ st1 0 [Example.entry_A; Example.entry_B] Hv Hh Hs) 20).
  exact Example.full_run.
Defined.

(** C6 fails: the fetch of the root fails and the output stream cannot
    encode the warning of the handler, so that [print] raises
    [UnicodeEncodeError]; the exception leaves [crawl], which returns no
    tree. It fails as well when the worker ends with an exception that is
    not an [Exception]: the handler lets it through. *)
Lemma C6_counterexample :
  fetch Example.mute_world 0 Example.R = Failed (lit "timeout")
  ∧ print Example.mute_world 0 Example.R (lit "timeout") = Raise UnicodeEncodeError
  ∧ @Main.crawl Example.hosts Example.mute_world 1 Example.Root Example.R 10
    = Some (Raise UnicodeEncodeError)
  ∧ @Full.crawl Example.hosts Example.mute_world 1 Example.Root Example.R 10
    = Some (Raise UnicodeEncodeError)
  ∧ fetch Example.exit_world 0 Example.R = Aborted SystemExit
  ∧ @Main.crawl Example.hosts Example.exit_world 1 Example.Root Example.R 10
    = Some (Raise (Interrupt SystemExit))
  ∧ @Full.crawl Example.hosts Example.exit_world 1 Example.Root Example.R 10
    = Some (Raise (Interrupt SystemExit)).
Proof.
  split_and!; [done|done|exact Example.main_mute_run|exact Example.full_mute_run
              |done|exact Example.main_exit_run|exact Example.full_exit_run].
Qed.

Lemma C6_fetch_failure_witness :
  wait_ok Example.half_world
  ∧ @MainFacts.visits Example.hosts Example.half_world 2 Example.Root Example.R 7
      Example.half_state
  ∧ SchedFacts.handles Main.url Example.half_world Example.half_state 1
      (Failed (lit "timeout"))
  ∧ print Example.half_world (length (log Example.half_state))
      (url_at Main.url (heap (store Example.half_state)) 1) (lit "timeout") = Ok ()
  ∧ @Main.crawl Example.hosts Example.half_world 2 Example.Root Example.R 20
    = Some (Ok Example.half_tree)
  ∧ 2 ∈ queue (store Example.half_state) ++ SchedFacts.pending Example.half_state
  ∧ ∃ st1 nd,
      step Main.url (@Main.expand Example.hosts) Example.half_world 2
        Example.half_state = Running st1
      ∧ store st1 = store Example.half_state
      ∧ log st1 = [(Example.A, lit "timeout")]
      ∧ Main.children nd = [] ∧ Main.has_file_children nd = false
      ∧ Example.half_tree !! 1 = Some nd
      ∧ ∃ n' st' r ndj,
          7 < n'
          ∧ @MainFacts.visits Example.hosts Example.half_world 2 Example.Root Example.R
              n' st'
          ∧ SchedFacts.handles Main.url Example.half_world st' 2 r
          ∧ Example.half_tree !! 2 = Some ndj
          ∧ @MainFacts.handled Example.hosts st' r Example.half_tree ndj.
Proof.
  assert (Hin : 2 ∈ queue (store Example.half_state)
                    ++ SchedFacts.pending Example.half_state).
  { simpl. right. left. }
  split; [apply Example.oldest_ok|]. split; [exact Example.main_visits_half|].
  split; [exact Example.main_handles_half|]. split; [reflexivity|].
  split; [exact Example.main_half_run|]. split; [exact Hin|].
  destruct (proj1 (@C6_fetch_failure Example.hosts Example.half_world 2
                     Example.Root Example.R 7 (Example.oldest_ok _ _))
              _ _ _ Example.main_visits_half Example.main_handles_half eq_refl)
    as (st1 & nd & Hs & Hst & Hlog & _ & Hch & Hfl & _ & Hfin).
  destruct (Hfin 20 _ Example.main_half_run) as [Hnd Hothers].
  exists st1, nd. split_and!; [done..|].
  exact (Hothers 2 Hin ltac:(lia)).
Defined.

(** C7 fails: the only page lists one file; the returned root has the flag
    and no child at all. *)
Lemma C7_counterexample :
  fetch Example.file_world 0 Example.R = Fetched [Example.entry_B]
  ∧ @Main.crawl Example.hosts Example.file_world 1 Example.Root Example.R 10
    = Some (Ok [Main.mkNode Example.Root Example.R 0 [] true])
  ∧ ¬ (∀ nd, [Main.mkNode Example.Root Example.R 0 [] true] !! 0 = Some nd →
             Main.has_file_children nd = true → ∃ c, c ∈ Main.children nd).
Proof.
  split_and!; [done|exact Example.main_file_run|].
  intros Hall. destruct (Hall _ eq_refl eq_refl) as [c Hc].
  simpl in Hc. by apply elem_of_nil in Hc.
Qed.

Lemma C7_has_file_children_witness :
  wait_ok Example.world
  ∧ @MainFacts.visits Example.hosts Example.world 2 Example.Root Example.R 2
      (Example.waiting Example.main_root)
  ∧ SchedFacts.handles Main.url Example.world (Example.waiting Example.main_root) 0
      (Fetched [Example.entry_A; Example.entry_B])
  ∧ ∃ nd2, Example.main_tree !! 0 = Some nd2
           ∧ (Main.has_file_children nd2 = true
              ↔ ∃ e, e ∈ [Example.entry_A; Example.entry_B] ∧ entry_kind e = FILE).
Proof.
  assert (Hv := Example.main_visits_waiting Example.site 2 ltac:(lia)).
  assert (Hh := Example.main_handles_waiting Example.site).
  split; [apply Example.oldest_ok|]. split; [exact Hv|]. split; [exact Hh|].
  assert (Hs : ∃ st1, step Main.url (@Main.expand Example.hosts) Example.world 2
                        (Example.waiting Example.main_root) = Running st1).
  { vm_compute. eexists. reflexivity. }
  destruct Hs as [st1 Hs].
  apply (proj2 (proj1 (proj2 (@C7_has_file_children Example.hosts Example.world 2
                         Example.Root Example.R 2 (Example.oldest_ok _ _)))
                  _ st1 0 [Example.entry_A; Example.entry_B] Hv Hh Hs) 20).
  exact Example.main_run.
Defined.

(** ** The properties of [normalize_url] *)

(** C8, amended. Normalizing the normal form of an address gives the
    normal form again, and raises where the first normalization raised,
    for every address that [urlparse] rejects and for every address whose
    parse has a network location or a path that does not begin with two
    slashes. *)
Theorem C8_idempotent `{!HostLib} (x : list N) :
  (∀ p, urlparse x = Ok p → netloc p ≠ [] ∨ take 2 (path p) ≠ lit "//") →
  normalize_url x ≫= normalize_url = normalize_url x.
Proof.
  intros Hcond. destruct (normalize_url x) as [y|e] eqn:Hx; [|done].
  simpl. pose proof (proj1 (UrlFacts.normalize_url_spec x y) Hx) as (p & _ & Hp & _).
  eapply UrlFacts.normalize_stable; [exact Hx|exact Hp|by apply Hcond].
Qed.

(** C9, amended. [normalize_url] raises [ValueError] where [urlparse]
    does and [UnicodeEncodeError] where a key or a value that it keeps
    cannot be encoded, and nothing else. Where it returns, the result is
    the address read with another query; the pairs of that query are the
    pairs of the query read whose key is neither [limit] nor [limitstart],
    in their order, and they are what a parse of the result finds when the
    address has a network location or a path that does not begin with two
    slashes. Two addresses with the same components apart from the query
    and the same pairs under the other keys have the same normal form; so
    have an address and the same address with one more parameter under
    [limit] or [limitstart] at the end of its query. *)
Theorem C9_normalize_url `{!HostLib} :
  (∀ x e,
     normalize_url x = Raise e →
     (e = ValueError ∧ urlparse x = Raise ValueError)
     ∨ (e = UnicodeEncodeError
        ∧ ∃ p, urlparse x = Ok p
               ∧ urlencode (List.filter UrlFacts.keep (parse_qsl (query p)))
                 = Raise UnicodeEncodeError))
  ∧ (∀ x y,
       normalize_url x = Ok y →
       ∃ p q', urlparse x = Ok p
               ∧ y = urlunparse (replace_query p q')
               ∧ parse_qsl q' = List.filter UrlFacts.keep (parse_qsl (query p))
               ∧ Forall (fun kv : list N * list N => kv.1 ∉ NOISE) (parse_qsl q'))
  ∧ (∀ x y p,
       normalize_url x = Ok y → urlparse x = Ok p →
       netloc p ≠ [] ∨ take 2 (path p) ≠ lit "//" →
       ∃ p', urlparse y = Ok p'
             ∧ parse_qsl (query p')
               = List.filter UrlFacts.keep (parse_qsl (query p)))
  ∧ (∀ x1 x2 p1 p2,
       urlparse x1 = Ok p1 → urlparse x2 = Ok p2 →
       replace_query p1 [] = replace_query p2 [] →
       List.filter UrlFacts.keep (parse_qsl (query p1))
       = List.filter UrlFacts.keep (parse_qsl (query p2)) →
       normalize_url x1 = normalize_url x2)
  ∧ (∀ x p q k v,
       urlparse x = Ok p →
       netloc p ≠ [] ∨ take 2 (path p) ≠ lit "//" →
       Forall CodecFacts.query_char q → Forall CodecFacts.query_char v →
       chr "&" ∉ v → k ∈ NOISE →
       normalize_url
         (urlunparse (replace_query p (q ++ chr "&" :: k ++ chr "=" :: v)))
       = normalize_url (urlunparse (replace_query p q))).
Proof.
  split_and!.
  - apply UrlFacts.normalize_url_Raise.
  - apply UrlFacts.normalize_url_query.
  - intros x y p Hx Hp Hcond.
    apply UrlFacts.normalize_url_spec in Hx as (p' & q' & Hp' & Hq' & ->).
    assert (p' = p) as -> by congruence.
    destruct (UrlFacts.urlparse_ok _ _ Hp) as [Hok Hst].
    destruct (UrlFacts.urlparse_written (scheme p) (netloc p)
                (UrlFacts.with_params (path p) (params p)) q' (fragment p))
      as (p2 & Hp2 & Hq2 & _);
      [done|by eapply CodecFacts.urlencode_chars| |done|].
    { destruct Hcond as [?|?]; [by left|right].
      by apply UrlFacts.with_params_take2. }
    exists p2. split; [done|].
    by rewrite Hq2, (CodecFacts.parse_qsl_urlencode _ _ Hq').
  - apply UrlFacts.normalize_url_same.
  - intros x p q k v Hp Hcond Hq Hv Hamp Hk.
    eapply UrlFacts.normalize_written_same; [done..| |done|].
    + apply Forall_app. split; [done|]. constructor; [right; by right|].
      apply Forall_app. split; [by apply UrlFacts.noise_chars|].
      constructor; [right; by left|done].
    + by apply UrlFacts.filter_keep_noise.
Qed.

(** C8 fails on [/////a]: its normal form is [///a], and the normal form
    of that is [/a]. No function of [HostLib] is called on these. *)
Lemma C8_counterexample :
  @normalize_url Example.hosts (lit "/////a") = Ok (lit "///a")
  ∧ @normalize_url Example.hosts (lit "///a") = Ok (lit "/a")
  ∧ (@normalize_url Example.hosts (lit "/////a") ≫= @normalize_url Example.hosts)
    ≠ @normalize_url Example.hosts (lit "/////a").
Proof.
  assert (H1 : @normalize_url Example.hosts (lit "/////a") = Ok (lit "///a"))
    by (vm_compute; reflexivity).
  assert (H2 : @normalize_url Example.hosts (lit "///a") = Ok (lit "/a"))
    by (vm_compute; reflexivity).
  split; [exact H1|]. split; [exact H2|].
  rewrite H1. simpl. rewrite H2. intros Heq. by vm_compute in Heq.
Qed.

Lemma C8_idempotent_witness :
  (∀ p, @urlparse Example.hosts Example.C = Ok p →
        netloc p ≠ [] ∨ take 2 (path p) ≠ lit "//")
  ∧ (@normalize_url Example.hosts Example.C ≫= @normalize_url Example.hosts)
    = @normalize_url Example.hosts Example.C.
Proof.
  assert (H : ∀ p, @urlparse Example.hosts Example.C = Ok p →
                   netloc p ≠ [] ∨ take 2 (path p) ≠ lit "//").
  { intros p Hp. apply Example.parsed_R_netloc. right.
    rewrite Example.parse_C in Hp. by injection Hp. }
  split; [exact H|]. exact (@C8_idempotent Example.hosts Example.C H).
Defined.

(** C9 fails on the address made of two slashes and an opening bracket,
    where [urlparse] raises [ValueError], and on a query with a lone
    surrogate, which [urlencode] cannot encode. *)
Lemma C9_counterexample :
  @normalize_url Example.hosts (lit "//[") = Raise ValueError
  ∧ @normalize_url Example.hosts (lit "?a=" ++ [0xD800%N]) = Raise UnicodeEncodeError
  ∧ ¬ (∃ y, @normalize_url Example.hosts (lit "//[") = Ok y).
Proof.
  assert (H1 : @normalize_url Example.hosts (lit "//[") = Raise ValueError)
    by (vm_compute; reflexivity).
  split; [exact H1|]. split; [vm_compute; reflexivity|].
  intros [y Hy]. congruence.
Qed.

Lemma C9_normalize_url_witness :
  @urlparse Example.hosts Example.R = Ok Example.parsed_R
  ∧ (netloc Example.parsed_R ≠ [] ∨ take 2 (path Example.parsed_R) ≠ lit "//")
  ∧ Forall CodecFacts.query_char (lit "a=1")
  ∧ Forall CodecFacts.query_char (lit "5")
  ∧ chr "&" ∉ lit "5"
  ∧ lit "limit" ∈ NOISE
  ∧ @normalize_url Example.hosts
      (urlunparse (replace_query Example.parsed_R
                     (lit "a=1" ++ chr "&" :: lit "limit" ++ chr "=" :: lit "5")))
    = @normalize_url Example.hosts
        (urlunparse (replace_query Example.parsed_R (lit "a=1"))).
Proof.
  assert (Hc : netloc Example.parsed_R ≠ [] ∨ take 2 (path Example.parsed_R) ≠ lit "//")
    by by left.
  assert (Hq : Forall CodecFacts.query_char (lit "a=1")).
  { unfold CodecFacts.query_char, CodecFacts.quote_char.
    apply (bool_decide_unpack _). vm_compute. reflexivity. }
  assert (Hv : Forall CodecFacts.query_char (lit "5")).
  { unfold CodecFacts.query_char, CodecFacts.quote_char.
    apply (bool_decide_unpack _). vm_compute. reflexivity. }
  assert (Ha : chr "&" ∉ lit "5").
  { apply (bool_decide_unpack _). vm_compute. reflexivity. }
  assert (Hk : lit "limit" ∈ NOISE) by (apply elem_of_cons; by left).
  split_and!; [exact Example.parse_R|exact Hc|exact Hq|exact Hv|exact Ha|exact Hk|].
  exact (proj2 (proj2 (proj2 (proj2 (@C9_normalize_url Example.hosts))))
           Example.R Example.parsed_R (lit "a=1") (lit "limit") (lit "5")
           Example.parse_R Hc Hq Hv Ha Hk).
Defined.

(** ** Trees in the heap

    The nodes of a crawl refer to their children by allocation index. What
    follows is about the heaps in which these references form a tree with
    the node 0 as its root, and about the walk that [to_dict] and
    [render_markdown] make through it. *)

Module Tree.
#[local] Open Scope nat_scope.

Section tree.
Context {Node : Type}.
(** [node.children] *)
Variable children : Node → list nat.

(** The nodes that a recursive walk from [node] visits, a node before its
    children and the children in their order; [None] when the walk needs
    more than [depth] nested calls. *)
Fixpoint preorder (h : list Node) (depth : nat) (node : nat) : option (list nat) :=
  match depth with
  | O => None
  | S depth' =>
      nd ← h !! node;
      below ← mapM (preorder h depth') (children nd);
      Some (node :: concat below)
  end.

(** Children are younger than their parent, and every node but the root is
    a child exactly once. *)
Definition forest (h : list Node) : Prop :=
  (∀ i nd c, h !! i = Some nd → c ∈ children nd → i < c < length h)
  ∧ concat (children <$> h) ≡ₚ seq 1 (length h - 1).

Lemma mapM_ext_in {A B} (f g : A → option B) l :
  (∀ x, x ∈ l → f x = g x) → mapM f l = mapM g l.
Proof.
  induction l as [|x l IH]; intros Hfg; [done|]. simpl.
  rewrite (Hfg x) by by left. rewrite IH; [done|].
  intros y Hy. apply Hfg. by right.
Qed.

(** More depth than needed changes nothing. *)
Lemma preorder_mono h d d' i l :
  preorder h d i = Some l → d ≤ d' → preorder h d' i = Some l.
Proof.
  revert d' i l. induction d as [|d IH]; intros d' i l; [done|].
  intros Hp Hd. destruct d' as [|d']; [lia|]. simpl in *.
  destruct (h !! i) as [nd|]; [|done]. simpl in *.
  destruct (mapM (preorder h d) (children nd)) as [below|] eqn:Hm; [|done].
  simpl in Hp. injection Hp as <-.
  assert (Hm' : mapM (preorder h d') (children nd) = Some below).
  { apply mapM_Some. apply mapM_Some in Hm.
    eapply Forall2_impl; [exact Hm|]. intros c lc Hc. apply IH; [done|lia]. }
  by rewrite Hm'.
Qed.

Section forest.
Variable h : list Node.
Hypothesis Hforest : forest h.

(** The walk from a node of a forest returns within [length h - i] calls. *)
Lemma preorder_returns i :
  i < length h → ∃ l, preorder h (length h - i) i = Some l.
Proof.
  destruct Hforest as [Hlt _].
  remember (length h - i) as d eqn:Hd. revert i Hd.
  induction d as [d IH] using lt_wf_ind. intros i Hd Hi.
  destruct d as [|d]; [lia|]. simpl.
  destruct (lookup_lt_is_Some_2 h i Hi) as [nd Hnd]. rewrite Hnd. simpl.
  assert (Hm : ∃ below, mapM (preorder h d) (children nd) = Some below).
  { assert (Hall : Forall (fun c => ∃ l, preorder h d c = Some l) (children nd)).
    { apply Forall_forall. intros c Hc. destruct (Hlt _ _ _ Hnd Hc) as [H1 H2].
      destruct (IH (length h - c) ltac:(lia) c eq_refl H2) as [l Hl].
      exists l. eapply preorder_mono; [done|lia]. }
    clear -Hall. induction Hall as [|c cs [l Hl] _ [below IH]].
    - by exists [].
    - exists (l :: below). simpl. by rewrite Hl, IH. }
  destruct Hm as [below ->]. by eexists.
Qed.

(** The nodes below [i], [i] included. *)
Definition below (i : nat) : list nat :=
  default [] (preorder h (length h - i) i).

Lemma below_eq i nd :
  h !! i = Some nd → below i = i :: concat (below <$> children nd).
Proof.
  intros Hnd. pose proof (lookup_lt_Some _ _ _ Hnd) as Hi.
  destruct Hforest as [Hlt _]. unfold below at 1.
  destruct (length h - i) as [|d] eqn:Hd; [lia|]. simpl. rewrite Hnd. simpl.
  assert (Hm : mapM (preorder h d) (children nd) = Some (below <$> children nd)).
  { apply mapM_Some. apply Forall2_fmap_r, Forall_Forall2_diag, Forall_forall.
    intros c Hc. destruct (Hlt _ _ _ Hnd Hc) as [H1 H2]. simpl.
    unfold below. destruct (preorder_returns c H2) as [l Hl]. rewrite Hl. simpl.
    eapply preorder_mono; [done|lia]. }
  by rewrite Hm.
Qed.

Lemma preorder_below d i :
  i < length h → length h - i ≤ d → preorder h d i = Some (below i).
Proof.
  intros Hi Hd. unfold below. destruct (preorder_returns i Hi) as [l Hl].
  rewrite Hl. simpl. by eapply preorder_mono.
Qed.

Lemma concat_perm {A} (l1 l2 : list (list A)) :
  l1 ≡ₚ l2 → concat l1 ≡ₚ concat l2.
Proof.
  induction 1 as [|x l k _ IH|x y l|l k m _ IH1 _ IH2]; simpl.
  - done.
  - by rewrite IH.
  - rewrite !(assoc (++)). f_equiv. apply Permutation_app_comm.
  - by rewrite IH1.
Qed.

Lemma elem_of_concat {A} (x : A) (ls : list (list A)) :
  x ∈ concat ls ↔ ∃ l, x ∈ l ∧ l ∈ ls.
Proof.
  induction ls as [|l ls IH]; simpl.
  - split; [by intros ?%elem_of_nil|]. by intros (l & _ & ?%elem_of_nil).
  - rewrite elem_of_app, IH. split.
    + intros [?|(l' & ? & ?)]; [exists l|exists l']; split; done || by constructor.
    + intros (l' & Hx & [->|?]%elem_of_cons); [by left|right; by exists l'].
Qed.

Lemma filter_none (P : nat → Prop) `{!∀ c, Decision (P c)} (l : list nat) :
  Forall (fun c => ¬ P c) l → filter P l = [].
Proof.
  induction 1 as [|x l Hx _ IH]; [done|].
  by rewrite filter_cons_False, IH.
Qed.

Lemma filter_ext_elem (P Q : nat → Prop) `{!∀ c, Decision (P c), !∀ c, Decision (Q c)}
    (l : list nat) :
  (∀ c, c ∈ l → P c ↔ Q c) → filter P l = filter Q l.
Proof.
  induction l as [|x l IH]; intros Hpq; [done|].
  assert (Hl : filter P l = filter Q l).
  { apply IH. intros c Hc. apply Hpq. by right. }
  destruct (decide (P x)) as [Hx|Hx].
  - rewrite !filter_cons_True; [by rewrite Hl|by apply Hpq; [left|]|done].
  - rewrite !filter_cons_False; [done| |done].
    intros Hq. apply Hx, Hpq; [by left|done].
Qed.

Lemma filter_from (l : list nat) k :
  NoDup l → k ∈ l →
  filter (fun c => k ≤ c) l ≡ₚ k :: filter (fun c => S k ≤ c) l.
Proof.
  induction 1 as [|x l Hx Hnd IH]; [by intros ?%elem_of_nil|].
  intros [Heq|Hin]%elem_of_cons; [subst x|].
  - rewrite filter_cons_True by lia. rewrite (filter_cons_False (fun c => S k ≤ c)) by lia.
    rewrite (filter_ext_elem (fun c => k ≤ c) (fun c => S k ≤ c) l); [done|].
    intros c Hc. assert (c ≠ k) by (by intros ->). lia.
  - assert (x ≠ k) by (by intros ->).
    destruct (decide (k ≤ x)).
    + rewrite filter_cons_True by done. rewrite (filter_cons_True (fun c => S k ≤ c)) by lia.
      rewrite IH by done. apply Permutation_swap.
    + rewrite filter_cons_False by done. rewrite (filter_cons_False (fun c => S k ≤ c)) by lia.
      by apply IH.
Qed.

Lemma filter_all (P : nat → Prop) `{!∀ c, Decision (P c)} (l : list nat) :
  Forall P l → filter P l = l.
Proof.
  induction 1 as [|x l Hx _ IH]; [done|].
  by rewrite filter_cons_True, IH.
Qed.

(** The children of the nodes older than [k]. *)
Definition older (k : nat) : list nat := concat (children <$> take k h).

Lemma older_lt k c : c ∈ older k → c < length h.
Proof.
  destruct Hforest as [Hlt _]. unfold older.
  intros (cs & Hc & (nd & -> & Hnd)%list_elem_of_fmap)%elem_of_concat.
  apply list_elem_of_lookup in Hnd as [i Hi].
  apply lookup_take_Some in Hi as [Hi _].
  by destruct (Hlt _ _ _ Hi Hc).
Qed.

Lemma younger_gt k c : c ∈ concat (children <$> drop k h) → k < c.
Proof.
  destruct Hforest as [Hlt _].
  intros (cs & Hc & (nd & -> & Hnd)%list_elem_of_fmap)%elem_of_concat.
  apply list_elem_of_lookup in Hnd as [i Hi].
  rewrite lookup_drop in Hi.
  destruct (Hlt _ _ _ Hi Hc). lia.
Qed.

Lemma older_split k : concat (children <$> h) = older k ++ concat (children <$> drop k h).
Proof. unfold older. by rewrite <-concat_app, <-fmap_app, take_drop. Qed.

Lemma older_NoDup k : NoDup (older k).
Proof.
  destruct Hforest as [_ Hperm].
  assert (Hnd : NoDup (concat (children <$> h))) by (rewrite Hperm; apply NoDup_seq).
  rewrite (older_split k) in Hnd. by apply NoDup_app in Hnd as [? _].
Qed.

Lemma older_elem k : 0 < k < length h → k ∈ older k.
Proof.
  intros Hk. destruct Hforest as [_ Hperm].
  assert (Hin : k ∈ concat (children <$> h)).
  { rewrite Hperm. apply elem_of_seq. lia. }
  rewrite (older_split k), elem_of_app in Hin.
  destruct Hin as [?|Hin%younger_gt]; [done|lia].
Qed.

(** The trees that hang from the nodes older than [k] hold the nodes from
    [k] on. *)
Lemma hanging k :
  0 < k ≤ length h →
  concat (below <$> filter (fun c => k ≤ c) (older k)) ≡ₚ seq k (length h - k).
Proof.
  remember (length h - k) as m eqn:Hm. revert k Hm.
  induction m as [|m IH]; intros k Hm Hk.
  - replace (filter (fun c => k ≤ c) (older k)) with (@nil nat); [done|].
    symmetry. apply filter_none, Forall_forall.
    intros c Hc%older_lt. lia.
  - destruct (lookup_lt_is_Some_2 h k ltac:(lia)) as [nd Hnd].
    destruct Hforest as [Hlt _].
    assert (Hch : Forall (fun c => S k ≤ c) (children nd)).
    { apply Forall_forall. intros c Hc. destruct (Hlt _ _ _ Hnd Hc). lia. }
    assert (Hnext : older (S k) = older k ++ children nd).
    { unfold older. rewrite (take_S_r _ _ _ Hnd), fmap_app, concat_app. simpl.
      by rewrite app_nil_r. }
    specialize (IH (S k) ltac:(lia) ltac:(lia)).
    rewrite Hnext, filter_app, (filter_all _ (children nd)) in IH by done.
    rewrite fmap_app, concat_app in IH.
    rewrite (fmap_Permutation below _ _
               (filter_from _ k (older_NoDup k) (older_elem k ltac:(lia)))).
    rewrite fmap_cons, concat_cons, (below_eq k nd Hnd). simpl.
    f_equiv. rewrite <-IH. apply Permutation_app_comm.
Qed.

(** The walk from the root visits every node of the heap once. *)
Lemma below_root : h ≠ [] → below 0 ≡ₚ seq 0 (length h).
Proof.
  intros Hne.
  assert (Hpos : 0 < length h).
  { clear -Hne. destruct h; [done|simpl; lia]. }
  destruct (lookup_lt_is_Some_2 h 0 Hpos) as [nd0 Hnd].
  destruct Hforest as [Hlt _].
  assert (Hch : Forall (fun c => 1 ≤ c) (children nd0)).
  { apply Forall_forall. intros c Hc. destruct (Hlt 0 nd0 c Hnd Hc). lia. }
  rewrite (below_eq 0 nd0 Hnd).
  replace (length h) with (S (length h - 1)) at 1 by lia. simpl. f_equiv.
  destruct (decide (length h = 1)) as [H1|H1].
  - rewrite H1. simpl. destruct (children nd0) as [|c cs] eqn:Hc; [done|].
    destruct (Hlt 0 nd0 c Hnd); [rewrite Hc; by left|lia].
  - pose proof (hanging 1 ltac:(lia)) as Hh1.
    assert (Ho : older 1 = children nd0).
    { unfold older. rewrite (take_S_r _ _ _ Hnd), take_0. simpl. by rewrite app_nil_r. }
    by rewrite Ho, filter_all in Hh1.
Qed.

End forest.

(** A walk with enough depth from the root of a forest returns the nodes
    of the heap, each of them once. *)
Lemma preorder_forest h d :
  forest h → h ≠ [] → length h ≤ d →
  ∃ l, preorder h d 0 = Some l ∧ l ≡ₚ seq 0 (length h).
Proof.
  intros Hf Hne Hd. exists (below h 0). split.
  - apply preorder_below; [done|destruct h; [done|simpl; lia]|lia].
  - by apply below_root.
Qed.

(** The heap stays a forest when a node gets fresh nodes, without children
    of their own, as its next children. *)
Lemma forest_grow h node nd nd' news :
  forest h → h !! node = Some nd →
  children nd' = children nd ++ seq (length h) (length news) →
  Forall (fun x => children x = []) news →
  forest (<[node := nd']> h ++ news).
Proof.
  intros [Hlt Hperm] Hnd Hch Hnews.
  pose proof (lookup_lt_Some _ _ _ Hnd) as Hnode.
  assert (Hlen : length (<[node := nd']> h ++ news) = length h + length news).
  { by rewrite length_app, length_insert. }
  split.
  - intros i x c. rewrite Hlen, lookup_grown by done.
    destruct (decide (i = node)) as [->|Hne].
    + intros [= <-]. rewrite Hch, elem_of_app, elem_of_seq.
      intros [Hc|Hc]; [|lia]. destruct (Hlt _ _ _ Hnd Hc). lia.
    + destruct (decide (i < length h)).
      * intros Hi Hc. destruct (Hlt _ _ _ Hi Hc). lia.
      * intros Hi Hc. rewrite Forall_forall in Hnews.
        rewrite (Hnews x) in Hc; [by apply elem_of_nil in Hc|].
        by eapply list_elem_of_lookup_2.
  - rewrite Hlen, fmap_app, concat_app.
    replace (concat (children <$> news)) with (@nil nat).
    2:{ clear -Hnews. induction Hnews as [|x news Hx _ IH]; [done|].
        simpl. by rewrite Hx. }
    rewrite app_nil_r.
    assert (Hl : length h = length (take node h) + S (length (drop (S node) h))).
    { rewrite length_take, length_drop. lia. }
    rewrite <-(take_drop_middle h node nd Hnd) in Hperm |- *.
    rewrite insert_app_r_alt by (rewrite length_take; lia).
    rewrite length_take, Nat.min_l, Nat.sub_diag by lia. simpl.
    rewrite !fmap_app, !concat_app in Hperm |- *. simpl in *.
    rewrite Hch, <-!(assoc (++)).
    rewrite (Permutation_app_comm (seq _ _)), !(assoc (++)).
    rewrite <-(assoc (++) (concat _) (children nd)), Hperm.
    rewrite length_app. simpl.
    replace (length (take node h) + S (length (drop (S node) h)) + length news - 1)
      with ((length (take node h) + S (length (drop (S node) h)) - 1) + length news) by lia.
    rewrite seq_app. do 2 f_equiv. lia.
Qed.

End tree.
End Tree.

(** ** Python values: what [to_dict] returns and [json] writes and reads

    A [dict] is the list of its items in insertion order; a [float] is its
    IEEE 754 binary64 bit pattern. *)

#[local] Unset Elimination Schemes.
Inductive value :=
  | VNone
  | VBool (b : bool)
  | VInt (z : Z)
  | VFloat (bits : N)
  | VStr (s : list N)
  | VList (items : list value)
  | VDict (items : list (list N * value)).
#[local] Set Elimination Schemes.

(** Induction on a value, through the lists it holds. *)
Lemma value_ind (P : value → Prop) :
  P VNone → (∀ b, P (VBool b)) → (∀ z, P (VInt z)) → (∀ bits, P (VFloat bits)) →
  (∀ s, P (VStr s)) →
  (∀ items, Forall P items → P (VList items)) →
  (∀ items, Forall (fun kv => P kv.2) items → P (VDict items)) →
  ∀ v, P v.
Proof.
  intros HN HB HI HF HS HL HD.
  fix IH 1. intros [| | | | |items|items]; [done..| |].
  - apply HL. induction items as [|v items IHl]; constructor; [apply IH|done].
  - apply HD. induction items as [|[k v] items IHl]; constructor; [apply IH|done].
Qed.

(** [d.get(key)] on the items of a [dict]. *)
Fixpoint get (key : list N) (items : list (list N * value)) : option value :=
  match items with
  | [] => None
  | (k, v) :: rest => if decide (k = key) then Some v else get key rest
  end.


(** ** The output of [CatalogCrawler] ([src/main.py])

    [to_dict] and the [walk] of [render_markdown] call themselves on the
    children of a node; the number of nested frames that Python still
    allows is the argument [limit], and [None] stands for the
    [RecursionError] raised beyond it. *)

Module MainOut.
Import Main.

(** [CatalogNode.to_dict] (lines 50-56). The call takes a frame, and the
    list comprehension [[child.to_dict() for child in self.children]] takes
    a frame of its own (in CPython 3.11 a comprehension is a function that
    is called), from which the calls on the children are made. *)
Fixpoint to_dict (h : list CatalogNode) (limit : nat) (self : nat) : option value :=
  match limit with
  | O => None
  | S limit' =>
      nd ← h !! self;
      children ← match limit' with
                 | O => None
                 | S limit'' => mapM (to_dict h limit'') (children nd)
                 end;
      Some (VDict [(lit "name", VStr (name nd));
                   (lit "url", VStr (url nd));
                   (lit "has_file_children", VBool (has_file_children nd));
                   (lit "children", VList children)])
  end.

(** The line that [walk] appends for a node (lines 181-185). *)
Definition marker (nd : CatalogNode) (indent : nat) : str :=
  let prefix := concat (replicate indent (lit "  ")) in
  let marker := prefix ++ lit "- [" ++ name nd ++ lit "](" ++ url nd ++ lit ")" in
  if has_file_children nd then marker ++ lit " *(contains problems)*" else marker.

(** [walk(node, indent)] (lines 180-187), from [lines] to [lines] after
    the call. *)
Fixpoint walk (h : list CatalogNode) (limit : nat) (node : nat) (indent : nat)
    (lines : list str) : option (list str) :=
  match limit with
  | O => None
  | S limit' =>
      nd ← h !! node;
      foldl (fun acc child => lines ← acc; walk h limit' child (indent + 1) lines)
            (Some (lines ++ [marker nd indent])) (children nd)
  end.

(** [render_markdown(root)] (lines 177-190). The call [walk(root)] is one
    call deeper than [render_markdown]. *)
Definition render_markdown (h : list CatalogNode) (limit : nat) (root : nat)
  : option str :=
  match limit with
  | O => None
  | S limit' => lines ← walk h limit' root 0 []; Some (join (chr "010") lines)
  end.

End MainOut.

(** ** The output of [FullCatalogCrawler] ([src/catalog_to_json.py]) *)

Module FullOut.
Import Full.

(** [CatalogNode.to_dict] (lines 40-46). The call takes a frame, and the
    list comprehension [[child.to_dict() for child in self.children]] takes
    a frame of its own (in CPython 3.11 a comprehension is a function that
    is called), from which the calls on the children are made. *)
Fixpoint to_dict (h : list CatalogNode) (limit : nat) (self : nat) : option value :=
  match limit with
  | O => None
  | S limit' =>
      nd ← h !! self;
      children ← match limit' with
                 | O => None
                 | S limit'' => mapM (to_dict h limit'') (children nd)
                 end;
      Some (VDict [(lit "name", VStr (name nd));
                   (lit "url", VStr (url nd));
                   (lit "kind", VStr (kind nd));
                   (lit "children", VList children)])
  end.

End FullOut.

Example to_dict_ex :
  MainOut.to_dict Example.main_tree 4 0
  = Some (VDict [(lit "name", VStr (lit "Root")); (lit "url", VStr Example.R);
                 (lit "has_file_children", VBool true);
                 (lit "children",
                  VList [VDict [(lit "name", VStr (lit "A")); (lit "url", VStr Example.A);
                                (lit "has_file_children", VBool false);
                                (lit "children", VList [])]])]).
Proof. reflexivity. Qed.

(** With three frames left the comprehension of the second call cannot run. *)
Example to_dict_deep_ex : MainOut.to_dict Example.main_tree 3 0 = None.
Proof. reflexivity. Qed.

Example render_markdown_ex :
  MainOut.render_markdown Example.main_tree 3 0
  = Some (lit "- [Root](http://h/R) *(contains problems)*" ++ [10%N]
          ++ lit "  - [A](http://h/A)").
Proof. reflexivity. Qed.

(** ** Facts about the output of [CatalogCrawler] *)

Module MainOutFacts.
Import Main MainOut SchedFacts MainFacts.
#[local] Open Scope nat_scope.

(** *** The heap of a crawl is a tree *)

Section facts.
Context `{!HostLib}.
Variable w : World.
Variable max_workers : Z.

Local Abbreviation trans := (SchedFacts.trans url expand w max_workers).

Lemma main_trans_forest a b :
  wf a → inv a → trans a b →
  Tree.forest children (heap (store a)) → Tree.forest children (heap (store b)).
Proof.
  intros (_ & _ & _ & Href & _) (_ & Hnew & _) Ht Hf.
  destruct Ht as [s fs nf wt lg node queue' Hq Hmw|s nf wt lg|s fs nf wt lg Hne Hor
                 |s fs nf wt lg|s fs nf wt lg future rest node fs' exc Hpop Hfe Hpr
                 |s fs nf wt lg future rest node fs' entries s' Hpop Hfe He];
    unfold pending in *; simpl in *; try done.
  apply pop_future_Permutation in Hpop.
  assert (Hin : node ∈ queue s ++ fs.*2).
  { rewrite elem_of_app. right. rewrite Hpop. simpl. by left. }
  destruct (Hnew node Hin) as (nd & Hlook & Hch & _).
  destruct (main_expand_spec _ _ _ _ _ Hlook He) as (kept & _ & Hh & _).
  rewrite Hh. eapply Tree.forest_grow; [done|done| |].
  - simpl. by rewrite !length_fmap.
  - apply Forall_forall. by intros x (e & -> & _)%list_elem_of_fmap.
Qed.

Lemma main_forest_init root_name root_url normalized :
  Tree.forest children (heap (store (init root_name root_url normalized))).
Proof.
  split; simpl; [|done].
  intros [|i] nd c; simpl; [|done]. intros [= <-]. simpl. by intros ?%elem_of_nil.
Qed.

(** The tree that [crawl] returns: the references to children lead to
    younger nodes, every node but the root is a child once, and the
    [depth] of a child is one more than that of its parent. *)
Lemma main_crawl_tree root_name root_url fuel h :
  wait_ok w →
  crawl w max_workers root_name root_url fuel = Some (Ok h) →
  Tree.forest children h
  ∧ (∃ nd, h !! 0 = Some nd ∧ depth nd = 0%Z)
  ∧ (∀ i nd c, h !! i = Some nd → c ∈ children nd →
               ∃ cn, h !! c = Some cn ∧ depth cn = (depth nd + 1)%Z).
Proof.
  intros Hw (_ & n & st & _ & (x & Hx & Hex) & _ & <-)%main_crawl_returns.
  assert (Hall : (wf st ∧ inv st)
                 ∧ Tree.forest children (heap (store st))).
  { eapply (exec_invariant _ _ _ _
              (fun st => (wf st ∧ inv st)
                         ∧ Tree.forest children (heap (store st)))); [| |exact Hex].
    - intros a b [[Ha Hi] Hf] Ht. split_and!.
      + by eapply trans_wf; [apply main_expand_frame|..].
      + by eapply main_trans_inv.
      + by eapply main_trans_forest.
    - split_and!; [apply main_wf_init|by apply main_inv_init|apply main_forest_init]. }
  destruct Hall as [[_ (_ & _ & Hroot & Hdepth & _)] Hf].
  split_and!; [done..|]. intros i nd c Hi Hc. by destruct (Hdepth _ _ _ Hi Hc).
Qed.

End facts.
(** *** [to_dict] and [walk] follow the walk of the tree *)

(** Three of the items that a dict of [to_dict] has. *)
Definition fields (items : list (list N * value))
  : option value * option value * option value :=
  (get (lit "name") items, get (lit "url") items, get (lit "has_file_children") items).

(** What [to_dict] writes of the node at a reference. *)
Definition row (h : list CatalogNode) (i : nat)
  : option value * option value * option value :=
  match h !! i with
  | Some nd => (Some (VStr (name nd)), Some (VStr (url nd)),
                Some (VBool (has_file_children nd)))
  | None => (None, None, None)
  end.

Lemma mapM_None_inv {A B} (f : A → option B) l :
  mapM f l = None → ∃ x, x ∈ l ∧ f x = None.
Proof.
  induction l as [|x l IH]; simpl; [done|].
  destruct (f x) eqn:Hx; simpl; [|intros _; exists x; split; [by left|done]].
  destruct (mapM f l); simpl; [done|]. intros _.
  destruct IH as (y & Hy & Hfy); [done|]. exists y. split; [by right|done].
Qed.


(** The line of the node at a reference, indented by its [depth]. *)
Definition line (h : list CatalogNode) (i : nat) : str :=
  match h !! i with
  | Some nd => marker nd (Z.to_nat (depth nd))
  | None => []
  end.

Lemma walk_preorder h :
  (∀ i nd c cn, h !! i = Some nd → c ∈ children nd → h !! c = Some cn →
                depth cn = (depth nd + 1)%Z) →
  ∀ d i nd indent lines,
    h !! i = Some nd → depth nd = Z.of_nat indent →
    walk h d i indent lines
    = (fun l => lines ++ (line h <$> l)) <$> Tree.preorder children h d i.
Proof.
  intros Hdepth. induction d as [|d IH]; intros i nd indent lines Hnd Hd; simpl; [done|].
  rewrite Hnd. simpl.
  assert (Hline : marker nd indent = line h i).
  { unfold line. by rewrite Hnd, Hd, Nat2Z.id. }
  rewrite Hline.
  assert (Hcs : ∀ cs acc,
    (∀ c, c ∈ cs → c ∈ children nd) →
    foldl (fun acc child => lines ← acc; walk h d child (indent + 1) lines)
          (Some acc) cs
    = (fun ls => acc ++ (line h <$> concat ls)) <$> mapM (Tree.preorder children h d) cs).
  { induction cs as [|c cs IHcs]; intros acc Hsub; simpl.
    - by rewrite app_nil_r.
    - assert (Hc : c ∈ children nd) by (apply Hsub; by left).
      destruct (h !! c) as [cn|] eqn:Hcn.
      + rewrite (IH c cn (indent + 1) acc Hcn)
          by (rewrite (Hdepth _ _ _ _ Hnd Hc Hcn), Hd; lia).
        destruct (Tree.preorder children h d c) as [l|]; simpl.
        * rewrite IHcs by (intros c' Hc'; apply Hsub; by right).
          destruct (mapM _ cs) as [ls|]; simpl; [|done].
          by rewrite fmap_app, (assoc (++)).
        * clear. induction cs as [|c' cs IHcs]; [done|]. simpl. apply IHcs.
      + assert (Hw : walk h d c (indent + 1) acc = None).
        { destruct d; simpl; [done|]. by rewrite Hcn. }
        assert (Hp : Tree.preorder children h d c = None).
        { destruct d; simpl; [done|]. by rewrite Hcn. }
        rewrite Hw, Hp. simpl.
        clear. induction cs as [|c' cs IHcs]; [done|]. simpl. apply IHcs. }
  rewrite Hcs by done.
  destruct (mapM _ (children nd)) as [ls|]; simpl; [|done].
  by rewrite <-(assoc (++)).
Qed.

End MainOutFacts.

(** ** Facts about the output of [FullCatalogCrawler] *)

Module FullOutFacts.
Import Full FullOut SchedFacts FullFacts.
#[local] Open Scope nat_scope.

Section facts.
Context `{!HostLib}.
Variable w : World.
Variable max_workers : Z.

Local Abbreviation trans := (SchedFacts.trans url expand w max_workers).




End facts.

(** *** [to_dict] follows the walk of the tree *)

(** Three of the items that a dict of [to_dict] has. *)
Definition fields (items : list (list N * value))
  : option value * option value * option value :=
  (get (lit "name") items, get (lit "url") items, get (lit "kind") items).

(** What [to_dict] writes of the node at a reference. *)
Definition row (h : list CatalogNode) (i : nat)
  : option value * option value * option value :=
  match h !! i with
  | Some nd => (Some (VStr (name nd)), Some (VStr (url nd)), Some (VStr (kind nd)))
  | None => (None, None, None)
  end.


End FullOutFacts.

(** ** The exceptions of [crawl] *)

Module RaiseFacts.
Import SchedFacts.
#[local] Open Scope nat_scope.

Section sched.
Context {Node : Type}.
Variable node_url : Node → str.
Variable expand : nat → list Entry → Store Node → result (Store Node).
Variable w : World.
Variable max_workers : Z.

Local Abbreviation step := (Sched.step node_url expand w max_workers).
Local Abbreviation exec := (Sched.exec node_url expand w max_workers).

(** [futures.pop(future)] finds the future that the [for] loop handles,
    and the node it gives is a node of the heap. *)
Lemma pop_found (st : State Node) future rest :
  wf st → done st = Some (future :: rest) →
  ∃ node fs', pop_future future (futures st) = Some (node, fs')
              ∧ node < length (heap (store st)).
Proof.
  intros (_ & _ & _ & Href & Hdone) Hd.
  destruct (Hdone _ Hd) as [_ Hsub].
  destruct (pop_future_is_Some future (futures st)) as [[node fs'] Hpop];
    [apply Hsub; by left|].
  exists node, fs'. split; [done|]. apply Href.
  apply pop_future_Permutation in Hpop. rewrite elem_of_app. right.
  unfold pending. rewrite Hpop. by left.
Qed.

End sched.

Section crawlers.
Context `{!HostLib}.

(** *** [CatalogCrawler] *)

Lemma main_attach_Raise node es s e :
  Main.attach node es s = Raise e →
  ∃ en, en ∈ es ∧ normalize_url (entry_url en) = Raise e.
Proof.
  revert s. induction es as [|en es IH]; intros s; simpl; [done|].
  destruct (normalize_url (entry_url en)) as [x|e'] eqn:Hx; simpl.
  - case_bool_decide; intros (en' & Hin & He)%IH; exists en'; (split; [by right|done]).
  - intros [= ->]. exists en. split; [by left|done].
Qed.

Lemma main_attach_fails node es s en e :
  en ∈ es → normalize_url (entry_url en) = Raise e →
  ∃ e', Main.attach node es s = Raise e'.
Proof.
  revert s. induction es as [|en' es IH]; intros s Hin He; [by apply elem_of_nil in Hin|].
  simpl. destruct (normalize_url (entry_url en')) as [x|e'] eqn:Hx; simpl; [|by eexists].
  apply elem_of_cons in Hin as [->|Hin]; [congruence|].
  case_bool_decide; by apply IH.
Qed.

Lemma main_expand_Raise node es s e :
  Main.expand node es s = Raise e →
  ∃ en, en ∈ es ∧ entry_kind en = FOLDER ∧ normalize_url (entry_url en) = Raise e.
Proof.
  unfold Main.expand. intros (en & Hin & He)%main_attach_Raise.
  apply list_elem_of_In, filter_In in Hin as [Hin Hk].
  exists en. split_and!; [by apply list_elem_of_In|by apply bool_decide_eq_true in Hk|done].
Qed.

Lemma main_expand_fails node es s en e :
  en ∈ es → entry_kind en = FOLDER → normalize_url (entry_url en) = Raise e →
  ∃ e', Main.expand node es s = Raise e'.
Proof.
  intros Hin Hk He. unfold Main.expand. eapply main_attach_fails; [|done].
  apply list_elem_of_In, filter_In. split; [by apply list_elem_of_In|].
  by apply bool_decide_eq_true.
Qed.

(** *** [FullCatalogCrawler] *)

Lemma full_expand_Raise node es s e :
  Full.expand node es s = Raise e →
  ∃ en, en ∈ es ∧ entry_kind en = FOLDER ∧ normalize_url (entry_url en) = Raise e.
Proof.
  revert s. induction es as [|en es IH]; intros s; simpl; [done|].
  case_bool_decide as Hk.
  - destruct (normalize_url (entry_url en)) as [x|e'] eqn:Hx; simpl.
    + case_bool_decide; intros (en' & Hin & He)%IH; exists en'; (split; [by right|done]).
    + intros [= ->]. exists en. split_and!; [by left|done..].
  - intros (en' & Hin & He)%IH. exists en'. split; [by right|done].
Qed.

Lemma full_expand_fails node es s en e :
  en ∈ es → entry_kind en = FOLDER → normalize_url (entry_url en) = Raise e →
  ∃ e', Full.expand node es s = Raise e'.
Proof.
  revert s. induction es as [|en' es IH]; intros s Hin Hk He;
    [by apply elem_of_nil in Hin|].
  simpl. apply elem_of_cons in Hin as [->|Hin].
  - rewrite bool_decide_eq_true_2 by done. rewrite He. by eexists.
  - case_bool_decide.
    + destruct (normalize_url (entry_url en')) as [x|e'] eqn:Hx; simpl; [|by eexists].
      case_bool_decide; by apply IH.
    + by apply IH.
Qed.

End crawlers.
End RaiseFacts.

(** ** [normalize_url] changes the query only *)

Module NormalFacts.
Import CodecFacts UrlFacts.
#[local] Open Scope N_scope.

(** Cutting the parameters again from the path that [urlunparse] puts
    together gives the same path and parameters. *)
Lemma splitparams_exact u :
  chr ";" ∈ u →
  let B := with_params (_splitparams u).1 (_splitparams u).2 in
  (if contains (chr ";") B then _splitparams B else (B, [])) = _splitparams u.
Proof.
  intros Hu. destruct (decide (chr "/" ∈ u)) as [Hs|Hs].
  - apply last_occurrence in Hs as (h & t & -> & Ht).
    rewrite splitparams_rooted by done.
    destruct (find (chr ";") t) as [i|] eqn:Hf; simpl.
    + unfold with_params. destruct (drop (S i) t) as [|d ds] eqn:Hd; simpl.
      * pose proof (find_Some _ _ _ Hf) as [Heq Hn].
        unfold contains. case_bool_decide; [|done].
        rewrite splitparams_rooted by by apply not_elem_of_take.
        by rewrite find_absent.
      * assert (Heq : (h ++ chr "/" :: take i t) ++ chr ";" :: d :: ds
                      = h ++ chr "/" :: t).
        { rewrite <-Hd, <-(assoc (++)). simpl. do 2 f_equal.
          apply with_params_split; [done|by rewrite Hd]. }
        rewrite Heq. unfold contains. rewrite bool_decide_eq_true_2 by done.
        by rewrite splitparams_rooted, Hf, Hd.
    + unfold with_params. simpl. unfold contains.
      rewrite bool_decide_eq_true_2 by done. by rewrite splitparams_rooted, Hf.
  - destruct (find (chr ";") u) as [i|] eqn:Hf; [|by apply find_None in Hf].
    rewrite (splitparams_flat u i) by done. simpl.
    pose proof (find_Some _ _ _ Hf) as [Heq Hn].
    unfold with_params. destruct (drop (S i) u) as [|d ds] eqn:Hd; simpl.
    + unfold contains. by rewrite bool_decide_eq_false_2.
    + rewrite <-Heq. unfold contains. rewrite bool_decide_eq_true_2 by done.
      by rewrite (splitparams_flat u i), Hd.
Qed.

Section with_hostlib.
Context `{!HostLib}.

(** After a network location the path is empty or starts with a slash. *)
Lemma urlsplit_rooted x s n u q f :
  urlsplit x = Ok (s, n, u, q, f) → n ≠ [] →
  u = [] ∨ head u = Some (chr "/").
Proof.
  intros (r0 & r1 & r2 & _ & Hn & Hf & Hq & _)%urlsplit_steps Hne.
  apply split_netloc_spec in Hn as [(_ & -> & _)|(_ & _ & Ha & _)]; [done|].
  apply split_fragment_spec in Hf as [Hf1 Hf]. apply split_query_spec in Hq as [Hq1 Hq].
  assert (Hpre : ∃ k, r1 = u ++ k).
  { destruct Hq as [->|[-> _]], Hf as [->|[-> _]].
    - eexists. by rewrite <-(assoc (++)).
    - by eexists.
    - by eexists.
    - exists []. by rewrite app_nil_r. }
  assert (Hu2 : chr "#" ∉ u).
  { destruct Hq as [->|[-> _]]; [|done]. set_solver. }
  destruct Hpre as [k ->]. destruct u as [|c u]; [by left|]. right.
  destruct Ha as [Ha|(c' & Hc' & Hd)]; [done|].
  simpl in Hc'. simplify_eq.
  apply delim_spec in Hd as [->|[->| ->]]; [done|set_solver..].
Qed.

End with_hostlib.
End NormalFacts.

(** ** What the outputs show of a crawl *)

(** X1. On the tree that [CatalogCrawler.crawl] returns, and with more
    nested calls allowed than the tree has nodes, [render_markdown] returns
    the lines of the nodes joined by newlines: one line for every node of
    the crawl and no other, a node before its children and the children in
    their order, each line indented by two spaces for each unit of the
    [depth] of its node. *)
Theorem render_markdown_crawl `{!HostLib} (w : World) (max_workers : Z)
    (root_name root_url : list N) (fuel limit : nat) (h : list Main.CatalogNode) :
  wait_ok w →
  Main.crawl w max_workers root_name root_url fuel = Some (Ok h) →
  length h < limit →
  ∃ order,
    Tree.preorder Main.children h (length h) 0 = Some order
    ∧ order ≡ₚ seq 0 (length h)
    ∧ MainOut.render_markdown h limit 0
      = Some (join (chr "010") (MainOutFacts.line h <$> order)).
Proof.
  intros Hw Hc Hl.
  destruct (MainOutFacts.main_crawl_tree _ _ _ _ _ _ Hw Hc)
    as (Hf & (rt & Hrt & Hd0) & Hdepth).
  assert (Hne : h ≠ []) by (by intros ->).
  destruct (Tree.preorder_forest Main.children h (length h) Hf Hne ltac:(lia))
    as (order & Hp & Hperm).
  exists order. split_and!; [done..|].
  assert (Hdep : ∀ i nd c cn, h !! i = Some nd → c ∈ Main.children nd →
                   h !! c = Some cn → Main.depth cn = (Main.depth nd + 1)%Z).
  { intros i nd c cn Hi Hcin Hcn. destruct (Hdepth _ _ _ Hi Hcin) as (cn' & Hcn' & Hd).
    congruence. }
  destruct limit as [|limit]; [lia|]. simpl.
  rewrite (MainOutFacts.walk_preorder h Hdep limit 0 rt 0 [] Hrt Hd0).
  by rewrite (Tree.preorder_mono _ _ _ _ _ _ Hp) by lia.
Qed.



Lemma render_markdown_crawl_witness :
  wait_ok Example.world
  ∧ @Main.crawl Example.hosts Example.world 2 Example.Root Example.R 20
    = Some (Ok Example.main_tree)
  ∧ length Example.main_tree < 3
  ∧ ∃ order,
      Tree.preorder Main.children Example.main_tree (length Example.main_tree) 0
      = Some order
      ∧ order ≡ₚ seq 0 (length Example.main_tree)
      ∧ MainOut.render_markdown Example.main_tree 3 0
        = Some (join (chr "010") (MainOutFacts.line Example.main_tree <$> order)).
Proof.
  assert (Hl : length Example.main_tree < 3) by (simpl; lia).
  split; [apply Example.oldest_ok|]. split; [exact Example.main_run|]. split; [exact Hl|].
  exact (@render_markdown_crawl Example.hosts Example.world 2 Example.Root Example.R
           20 3 Example.main_tree (Example.oldest_ok _ _) Example.main_run Hl).
Defined.



(** X4. The handler around [future.result()] does not cover the work on
    the entries: when a crawler handles a fetched page that lists a
    [FOLDER] entry whose address [normalize_url] rejects, [crawl] raises
    [ValueError] or [UnicodeEncodeError] instead of returning a tree, in
    every run long enough to reach that page. *)
Theorem crawl_entry_failure `{!HostLib} (w : World) (max_workers : Z)
    (root_name root_url : list N) (n node : nat) (es : list Entry) (en : Entry)
    (e : exn) :
  (0 < max_workers)%Z →
  en ∈ es → entry_kind en = FOLDER → normalize_url (entry_url en) = Raise e →
  (∀ st, MainFacts.visits w max_workers root_name root_url n st →
         SchedFacts.handles Main.url w st node (Fetched es) →
         ∃ e', (e' = ValueError ∨ e' = UnicodeEncodeError)
               ∧ ∀ fuel, n < fuel →
                   Main.crawl w max_workers root_name root_url fuel = Some (Raise e'))
  ∧ (∀ st, FullFacts.visits w max_workers root_name root_url n st →
           SchedFacts.handles Full.url w st node (Fetched es) →
           ∃ e', (e' = ValueError ∨ e' = UnicodeEncodeError)
                 ∧ ∀ fuel, n < fuel →
                     Full.crawl w max_workers root_name root_url fuel = Some (Raise e')).
Proof.
  intros Hmw Hin Hk He.
  assert (Hkind : ∀ x e', normalize_url x = Raise e' →
                          e' = ValueError ∨ e' = UnicodeEncodeError).
  { intros x e' [[-> _]|[-> _]]%UrlFacts.normalize_url_Raise; auto. }
  split.
  - intros st (x & Hx & Hex) Hh.
    destruct (RaiseFacts.main_expand_fails node es (store st) en e Hin Hk He) as [e' He'].
    pose proof (SchedFacts.handles_fetched _ Main.expand _ max_workers _ _ _ Hh) as Hs.
    rewrite He' in Hs. exists e'. split.
    + apply RaiseFacts.main_expand_Raise in He' as (en' & _ & _ & Hn). by eapply Hkind.
    + intros fuel Hf. unfold Main.crawl, executor_ok.
      rewrite Hx, bool_decide_eq_true_2 by done. simpl.
      by rewrite (SchedFacts.exec_raises _ _ _ _ _ _ _ _ _ Hex Hs Hf).
  - intros st (x & Hx & Hex) Hh.
    destruct (RaiseFacts.full_expand_fails node es (store st) en e Hin Hk He) as [e' He'].
    pose proof (SchedFacts.handles_fetched _ Full.expand _ max_workers _ _ _ Hh) as Hs.
    rewrite He' in Hs. exists e'. split.
    + apply RaiseFacts.full_expand_Raise in He' as (en' & _ & _ & Hn). by eapply Hkind.
    + intros fuel Hf. unfold Full.crawl, executor_ok.
      rewrite Hx, bool_decide_eq_true_2 by done. simpl.
      by rewrite (SchedFacts.exec_raises _ _ _ _ _ _ _ _ _ Hex Hs Hf).
Qed.

(** X5. [futures.pop(future)] never raises [KeyError]: in every state of
    the [for future in done] loop of either crawler, the future that is
    handled next is a key of [futures], and the node stored under it is a
    node of the heap. *)
Theorem futures_pop_found `{!HostLib} (w : World) (max_workers : Z)
    (root_name root_url : list N) (n : nat) :
  wait_ok w →
  (∀ st future rest,
     MainFacts.visits w max_workers root_name root_url n st →
     done st = Some (future :: rest) →
     ∃ node fs', pop_future future (futures st) = Some (node, fs')
                 ∧ node < length (heap (store st)))
  ∧ (∀ st future rest,
       FullFacts.visits w max_workers root_name root_url n st →
       done st = Some (future :: rest) →
       ∃ node fs', pop_future future (futures st) = Some (node, fs')
                   ∧ node < length (heap (store st))).
Proof.
  intros Hw. split; intros st future rest Hv Hd.
  - destruct (MainFacts.main_visits_inv _ _ _ _ _ _ Hw Hv) as [Hwf _].
    by eapply RaiseFacts.pop_found.
  - destruct (FullFacts.full_visits_inv _ _ _ _ _ _ Hw Hv) as [Hwf _].
    by eapply RaiseFacts.pop_found.
Qed.

(** A site whose pages list one folder with an address that [urlparse]
    rejects. *)
Module BadSite.

Definition entry : Entry := mkEntry (lit "X") (lit "//[") FOLDER.

Definition world : World := mkWorld (fun _ _ => Fetched [entry]) Example.oldest Example.written.

Lemma normalize_entry : @normalize_url Example.hosts (entry_url entry) = Raise ValueError.
Proof. vm_compute. reflexivity. Qed.

Lemma bad_main_run :
  @Main.crawl Example.hosts world 1 Example.Root Example.R 10 = Some (Raise ValueError).
Proof. vm_compute. reflexivity. Qed.

End BadSite.

Lemma crawl_entry_failure_witness :
  (0 < 1)%Z
  ∧ BadSite.entry ∈ [BadSite.entry]
  ∧ entry_kind BadSite.entry = FOLDER
  ∧ @normalize_url Example.hosts (entry_url BadSite.entry) = Raise ValueError
  ∧ @MainFacts.visits Example.hosts BadSite.world 1 Example.Root Example.R 2
      (Example.waiting Example.main_root)
  ∧ SchedFacts.handles Main.url BadSite.world (Example.waiting Example.main_root) 0
      (Fetched [BadSite.entry])
  ∧ ∃ e', (e' = ValueError ∨ e' = UnicodeEncodeError)
          ∧ ∀ fuel, 2 < fuel →
              @Main.crawl Example.hosts BadSite.world 1 Example.Root Example.R fuel
              = Some (Raise e').
Proof.
  assert (H1 : (0 < 1)%Z) by lia.
  assert (H2 : BadSite.entry ∈ [BadSite.entry]) by (by left).
  assert (Hv := Example.main_visits_waiting (fun _ _ => Fetched [BadSite.entry]) 1 H1).
  assert (Hh := Example.main_handles_waiting (fun _ _ => Fetched [BadSite.entry])).
  split_and!; [exact H1|exact H2|reflexivity|exact BadSite.normalize_entry
              |exact Hv|exact Hh|].
  exact (proj1 (@crawl_entry_failure Example.hosts BadSite.world 1 Example.Root Example.R
                  2 0 [BadSite.entry] BadSite.entry ValueError
                  H1 H2 eq_refl BadSite.normalize_entry)
           (Example.waiting Example.main_root) Hv Hh).
Defined.

Lemma futures_pop_found_witness :
  wait_ok Example.half_world
  ∧ @MainFacts.visits Example.hosts Example.half_world 2 Example.Root Example.R 7
      Example.half_state
  ∧ done Example.half_state = Some [1]
  ∧ ∃ node fs', pop_future 1 (futures Example.half_state) = Some (node, fs')
                ∧ node < length (heap (store Example.half_state)).
Proof.
  split; [apply Example.oldest_ok|]. split; [exact Example.main_visits_half|].
  split; [reflexivity|].
  exact (proj1 (@futures_pop_found Example.hosts Example.half_world 2 Example.Root
                  Example.R 7 (Example.oldest_ok _ _))
           Example.half_state 1 [] Example.main_visits_half eq_refl).
Defined.

(** X6. For an address with a network location, and for a relative address
    whose path does not begin with two slashes, [normalize_url] changes the
    query and nothing else: a parse of the normal form gives the scheme,
    network location, path, parameters and fragment of the address, and a
    query whose pairs are the pairs of the address under keys other than
    [limit] and [limitstart], in their order. *)
Theorem normalize_url_components `{!HostLib} (x y : list N) (p : ParseResult) :
  normalize_url x = Ok y → urlparse x = Ok p →
  netloc p ≠ [] ∨ (scheme p = [] ∧ take 2 (path p) ≠ lit "//") →
  ∃ q', urlparse y = Ok (mkParseResult (scheme p) (netloc p) (path p) (params p)
                           q' (fragment p))
        ∧ parse_qsl q'
          = List.filter (fun kv : list N * list N => negb (bool_decide (kv.1 ∈ NOISE)))
              (parse_qsl (query p)).
Proof.
  intros (p' & q' & Hp' & Hq' & ->)%UrlFacts.normalize_url_spec Hp Hn.
  assert (p' = p) as -> by congruence.
  exists q'. split; [|by apply CodecFacts.parse_qsl_urlencode].
  destruct (UrlFacts.urlparse_ok _ _ Hp) as [Hok _].
  destruct (UrlFacts.urlparse_spec _ _ Hp) as (u & Hs & Hsplit).
  rewrite UrlFacts.urlunparse_eq. simpl.
  rewrite UrlFacts.urlparse_written_eq;
    [|done|by eapply CodecFacts.urlencode_chars
     |destruct Hn as [Hn|[_ Hn]]; [by left|right; by apply UrlFacts.with_params_take2]].
  f_equal. unfold UrlFacts.parsed_written, replace_query.
  set (B := UrlFacts.with_params (path p) (params p)).
  assert (Hre : UrlFacts.reread (scheme p) (netloc p) B = B).
  { unfold UrlFacts.reread, UrlFacts.prefixed. destruct (netloc p) as [|c n] eqn:Hnl.
    { destruct Hn as [?|[-> _]]; done. }
    simpl. rewrite <-Hnl in *. clear Hn. assert (Hn : netloc p ≠ []) by by rewrite Hnl.
    assert (HB : B = [] ∨ head B = Some (chr "/")).
    { destruct (NormalFacts.urlsplit_rooted _ _ _ _ _ _ Hs Hn) as [->|Hh].
      - rewrite andb_false_r in Hsplit. injection Hsplit as HP Hpa.
        left. unfold B. by rewrite HP, Hpa.
      - destruct (bool_decide _ && contains _ u) eqn:Hc.
        + apply andb_true_iff in Hc as [_ Hc%bool_decide_eq_true].
          destruct (UrlFacts.splitparams_stable u Hc) as (_ & _ & H3).
          rewrite <-Hsplit in H3. simpl in H3. fold B in H3.
          destruct H3 as [->|Hu]; [by right|].
          destruct B as [|b B']; [by left|]. right. rewrite Hu in Hh. done.
        + injection Hsplit as HP Hpa. right. unfold B. rewrite HP, Hpa. done. }
    unfold UrlFacts.rooted. destruct HB as [->|Hh]; [done|].
    destruct B as [|b B']; [done|]. simpl in Hh. by simplify_eq. }
  rewrite Hre.
  destruct (bool_decide (scheme p ∈ uses_params)) eqn:Hup; simpl in *.
  - destruct (contains (chr ";") u) eqn:Hc.
    + apply bool_decide_eq_true in Hc.
      pose proof (NormalFacts.splitparams_exact u Hc) as He. rewrite <-Hsplit in He. simpl in He.
      fold B in He. rewrite He. by destruct p.
    + injection Hsplit as HP Hpa. unfold B. rewrite HP, Hpa. unfold UrlFacts.with_params. simpl.
      rewrite Hc. destruct p. simpl in *. by subst.
  - injection Hsplit as HP Hpa. unfold B. rewrite HP, Hpa. unfold UrlFacts.with_params. simpl.
    destruct p. simpl in *. by subst.
Qed.



Lemma normalize_url_components_witness :
  let x := lit "http://h/a/b;c?limit=5&x=1#f" in
  let y := lit "http://h/a/b;c?x=1#f" in
  let p := mkParseResult (lit "http") (lit "h") (lit "/a/b") (lit "c")
             (lit "limit=5&x=1") (lit "f") in
  @normalize_url Example.hosts x = Ok y
  ∧ @urlparse Example.hosts x = Ok p
  ∧ (netloc p ≠ [] ∨ (scheme p = [] ∧ take 2 (path p) ≠ lit "//"))
  ∧ ∃ q', @urlparse Example.hosts y
          = Ok (mkParseResult (lit "http") (lit "h") (lit "/a/b") (lit "c") q' (lit "f"))
          ∧ parse_qsl q' = [(lit "x", lit "1")].
Proof.
  intros x y p.
  assert (H1 : @normalize_url Example.hosts x = Ok y) by (vm_compute; reflexivity).
  assert (H2 : @urlparse Example.hosts x = Ok p) by (vm_compute; reflexivity).
  assert (H3 : netloc p ≠ [] ∨ (scheme p = [] ∧ take 2 (path p) ≠ lit "//"))
    by (left; discriminate).
  split; [exact H1|]. split; [exact H2|]. split; [exact H3|].
  destruct (@normalize_url_components Example.hosts x y p H1 H2 H3) as (q' & Ha & Hb).
  exists q'. split; [exact Ha|]. rewrite Hb. vm_compute. reflexivity.
Defined.
